(** * HPO phenotype hierarchy plugin: hierarchy index, selection engine,
    view projector, record normalizer, loaders and output adapter.

    The repository holds three variants of the component:
    - the chunk-loading variant of [src/HPOPlugin.tsx] (first half of the
      file, module [Chunked]);
    - the single-CSV variant of [src/HPOPlugin.tsx] (second half of the
      file, module [Bridge]);
    - the nested-children variant (module [Tree]).
    [nodesByParent], [nodesById], [visibleNodes], the auto-expand effect and
    the filter serialisation are textually the same in the two variants of
    [HPOPlugin.tsx]; they are modelled once, at top level.

    Conventions of the embedding.
    - A JavaScript string is a [string] (a sequence of 8-bit characters);
      [toLowerCase] and [trim] are modelled on the ASCII range.
    - A JavaScript [Set<string>] is the list of its elements in insertion
      order, without repetition (module [JSSet]).
    - A [Map] is a [gmap]; [m.get(k) || []] is [default [] (m !! k)].
    - Where a pass writes to objects that an array and a [Map] share, an
      object is its position in the array ([lastIndex]).
    - A [while] loop or a recursive closure takes a [fuel] argument and
      returns [None] when the fuel runs out before the code returns. *)

From Stdlib Require Import ZArith Ascii.
From stdpp Require Import gmap strings list fin_maps sorting.

Local Open Scope Z_scope.
Local Open Scope nat_scope.

(** ** JavaScript values *)

Module Js.

(** A string-valued property that may be absent: [string | undefined | null]. *)
Definition truthy (v : option string) : bool :=
  match v with
  | Some s => negb (bool_decide (s = ""))
  | None => false
  end.

(** The numbers the model needs: an integer, or NaN. *)
Inductive JSNumber : Type :=
| JSNum (z : Z)
| JSNaN.

Definition quote : ascii := ascii_of_nat 34.

Definition lower_ascii (c : ascii) : ascii :=
  let n := nat_of_ascii c in
  if (65 <=? n) && (n <=? 90) then ascii_of_nat (n + 32) else c.

(** [s.toLowerCase()] *)
Fixpoint toLowerCase (s : string) : string :=
  match s with
  | EmptyString => EmptyString
  | String c r => String (lower_ascii c) (toLowerCase r)
  end.

(** [s.startsWith(p)] *)
Fixpoint startsWith (s p : string) : bool :=
  match p, s with
  | EmptyString, _ => true
  | String _ _, EmptyString => false
  | String a p', String b s' => bool_decide (a = b) && startsWith s' p'
  end.

(** [s.includes(t)] *)
Fixpoint includes (s t : string) : bool :=
  startsWith s t ||
  match s with
  | EmptyString => false
  | String _ r => includes r t
  end.

Fixpoint dropWhile (p : ascii → bool) (s : string) : string :=
  match s with
  | EmptyString => EmptyString
  | String c r => if p c then dropWhile p r else s
  end.

Fixpoint rev_string (s acc : string) : string :=
  match s with
  | EmptyString => acc
  | String c r => rev_string r (String c acc)
  end.

Definition dropWhileEnd (p : ascii → bool) (s : string) : string :=
  rev_string (dropWhile p (rev_string s "")) "".

(** [s.trim()], on the ASCII white space characters. *)
Definition trim (s : string) : string :=
  dropWhileEnd Ascii.is_space (dropWhile Ascii.is_space s).

Definition is_quote (c : ascii) : bool := bool_decide (c = quote).

(** [s.replace(/^"+|"+$/g, '')]: the leading run of quotes goes, then the
    trailing run of what is left. *)
Definition replaceOuterQuotes (s : string) : string :=
  dropWhileEnd is_quote (dropWhile is_quote s).

Definition digit (c : ascii) : option Z :=
  let n := nat_of_ascii c in
  if (48 <=? n) && (n <=? 57) then Some (Z.of_nat (n - 48)) else None.

Definition hexdigit (c : ascii) : option Z :=
  let n := nat_of_ascii c in
  if (48 <=? n) && (n <=? 57) then Some (Z.of_nat (n - 48))
  else if (97 <=? n) && (n <=? 102) then Some (Z.of_nat (n - 87))
  else if (65 <=? n) && (n <=? 70) then Some (Z.of_nat (n - 55))
  else None.

(** The longest prefix of digits in the radix, as a number; [acc] is [None]
    until a digit has been read. *)
Fixpoint parseDigits (dig : ascii → option Z) (radix : Z) (s : string)
  (acc : option Z) : option Z :=
  match s with
  | EmptyString => acc
  | String c r =>
    match dig c with
    | Some d => parseDigits dig radix r (Some (radix * default 0%Z acc + d)%Z)
    | None => acc
    end
  end.

Definition splitSign (s : string) : bool * string :=
  match s with
  | String "-" r => (true, r)
  | String "+" r => (false, r)
  | _ => (false, s)
  end.

Definition signed (neg : bool) (digits : option Z) : JSNumber :=
  match digits with
  | Some n => JSNum (if neg then (- n)%Z else n)
  | None => JSNaN
  end.

(** [parseInt(v, 10)]; an absent value is converted to the string
    ["undefined"], which has no digit. *)
Definition parseInt10 (v : option string) : JSNumber :=
  match v with
  | None => JSNaN
  | Some s =>
    let '(neg, r) := splitSign (dropWhile Ascii.is_space s) in
    signed neg (parseDigits digit 10 r None)
  end.

(** [parseInt(v)]: radix 16 after a [0x] or [0X] prefix, 10 otherwise. *)
Definition parseInt (v : option string) : JSNumber :=
  match v with
  | None => JSNaN
  | Some s =>
    let '(neg, r) := splitSign (dropWhile Ascii.is_space s) in
    match r with
    | String "0" (String "x" h) | String "0" (String "X" h) =>
      signed neg (parseDigits hexdigit 16 h None)
    | _ => signed neg (parseDigits digit 10 r None)
    end
  end.

(** [x || 0] on a number: NaN and 0 are falsy. *)
Definition orZero (x : JSNumber) : JSNumber :=
  match x with
  | JSNum z => JSNum z
  | JSNaN => JSNum 0
  end.

(** [parts.join(sep)] *)
Fixpoint join (sep : string) (parts : list string) : string :=
  match parts with
  | [] => ""
  | [x] => x
  | x :: rest => x +:+ sep +:+ join sep rest
  end.

(** The line feed character, and the string ["\n"]. *)
Definition lf : ascii := ascii_of_nat 10.

Definition newline : string := String lf "".

(** [s.split(sep)] for a separator of one character: never empty. *)
Fixpoint split (sep : ascii) (s : string) : list string :=
  match s with
  | EmptyString => [EmptyString]
  | String c r =>
    if bool_decide (c = sep) then EmptyString :: split sep r
    else
      match split sep r with
      | h :: t => String c h :: t
      | [] => [String c EmptyString]
      end
  end.

(** [s.replace(re, '')] for the global pattern [re] of one quote character. *)
Fixpoint removeQuotes (s : string) : string :=
  match s with
  | EmptyString => EmptyString
  | String c r => if is_quote c then removeQuotes r else String c (removeQuotes r)
  end.

End Js.

(** ** [Set<string>] in insertion order *)

Module JSSet.

Definition t : Type := list string.

Definition empty : t := [].

Definition has (s : t) (x : string) : bool := bool_decide (x ∈ s).

Definition add (x : string) (s : t) : t :=
  if has s x then s else s ++ [x].

Definition delete (x : string) (s : t) : t :=
  filter (λ y, y ≠ x) s.

End JSSet.

(** [l.forEach(f)] for a callback that threads a state and may not return. *)
Fixpoint forEachM {A S : Type} (f : A → S → option S) (l : list A) (s : S)
  : option S :=
  match l with
  | [] => Some s
  | x :: l' =>
    match f x s with
    | Some s' => forEachM f l' s'
    | None => None
    end
  end.

(** ** Node records and the hierarchy index ([HPOPlugin.tsx]) *)

Record HPONode : Type := mkNode {
  id : string;
  name : string;
  parent_id : option string;
  level : Js.JSNumber;
  has_children : bool
}.

Global Instance JSNumber_eq_dec : EqDecision Js.JSNumber.
Proof. solve_decision. Defined.

Global Instance HPONode_eq_dec : EqDecision HPONode.
Proof. solve_decision. Defined.

(** [nodesByParent]: every node is appended to the array stored under its
    own [parent_id], whatever that is. *)
Definition nodesByParent (nodes : list HPONode)
  : gmap (option string) (list HPONode) :=
  foldl (λ map node,
           let parentNodes := default [] (map !! parent_id node) in
           <[parent_id node := parentNodes ++ [node]]> map)
        ∅ nodes.

(** [nodesById]: a later record with the same id replaces an earlier one. *)
Definition nodesById (nodes : list HPONode) : gmap string HPONode :=
  foldl (λ map node, <[id node := node]> map) ∅ nodes.

(** [nodesByParent.get(k) || []] *)
Definition childrenOf (nodes : list HPONode) (k : option string)
  : list HPONode :=
  default [] (nodesByParent nodes !! k).

(** ** View projector ([visibleNodes]) *)

(** The search test of [visibleNodes] and of the auto-expand effect. *)
Definition matchesSearch (searchLower : string) (node : HPONode) : bool :=
  Js.includes (Js.toLowerCase (name node)) searchLower ||
  Js.includes (Js.toLowerCase (id node)) searchLower.

(** The ancestor walk:
    [while (current.parent_id) { acc.add(current.parent_id);
       const parent = nodesById.get(current.parent_id);
       if (!parent) break; current = parent; }].
    One unit of fuel per evaluation of the loop test. *)
Fixpoint ancestorWalk (fuel : nat) (byId : gmap string HPONode)
  (current : HPONode) (acc : JSSet.t) : option JSSet.t :=
  match fuel with
  | O => None
  | S fuel' =>
    match parent_id current with
    | Some p =>
      if bool_decide (p = "") then Some acc
      else
        let acc' := JSSet.add p acc in
        match byId !! p with
        | Some parent => ancestorWalk fuel' byId parent acc'
        | None => Some acc'
        end
    | None => Some acc
    end
  end.

(** The first pass of search mode: the pair [(matchingNodes, ancestorNodes)]. *)
Definition collectMatches (fuel : nat) (nodes : list HPONode)
  (searchLower : string) : option (JSSet.t * JSSet.t) :=
  forEachM (λ node '(matchingNodes, ancestorNodes),
              if matchesSearch searchLower node then
                match ancestorWalk fuel (nodesById nodes) node ancestorNodes with
                | Some ancestorNodes' =>
                  Some (JSSet.add (id node) matchingNodes, ancestorNodes')
                | None => None
                end
              else Some (matchingNodes, ancestorNodes))
           nodes (JSSet.empty, JSSet.empty).

(** The state the two closures of [visibleNodes] share: [(visited, result)]. *)
Definition ViewState : Type := JSSet.t * list HPONode.

Definition included (matchingNodes ancestorNodes : JSSet.t) (node : HPONode)
  : bool :=
  JSSet.has matchingNodes (id node) || JSSet.has ancestorNodes (id node).

(** [addNodeAndChildren]; the fuel bounds the depth of the recursion. *)
Fixpoint addNodeAndChildren (fuel : nat) (nodes : list HPONode)
  (matchingNodes ancestorNodes : JSSet.t) (node : HPONode) (st : ViewState)
  : option ViewState :=
  match fuel with
  | O => None
  | S fuel' =>
    let '(visited, result) := st in
    if JSSet.has visited (id node) then Some st
    else
      let visited' := JSSet.add (id node) visited in
      if included matchingNodes ancestorNodes node then
        forEachM (λ child st',
                    if included matchingNodes ancestorNodes child then
                      addNodeAndChildren fuel' nodes matchingNodes
                                         ancestorNodes child st'
                    else Some st')
                 (childrenOf nodes (Some (id node)))
                 (visited', result ++ [node])
      else Some (visited', result)
  end.

(** [addNode]; the fuel bounds the depth of the recursion. *)
Fixpoint addNode (fuel : nat) (nodes : list HPONode) (expandedNodes : JSSet.t)
  (node : HPONode) (st : ViewState) : option ViewState :=
  match fuel with
  | O => None
  | S fuel' =>
    let '(visited, result) := st in
    if JSSet.has visited (id node) then Some st
    else
      let st1 := (JSSet.add (id node) visited, result ++ [node]) in
      if JSSet.has expandedNodes (id node) then
        forEachM (addNode fuel' nodes expandedNodes)
                 (childrenOf nodes (Some (id node))) st1
      else Some st1
  end.

(** The recursion of [addNode] and [addNodeAndChildren] enters a node only
    when its id is new to [visited], so it is never deeper than the number
    of records plus the call that returns at once. *)
Definition depthFuel (nodes : list HPONode) : nat := S (length nodes).

(** [visibleNodes]; [fuel] bounds each ancestor walk of search mode. *)
Definition visibleNodes (fuel : nat) (nodes : list HPONode)
  (expandedNodes : JSSet.t) (debouncedSearchTerm : string)
  : option (list HPONode) :=
  let rootNodes := childrenOf nodes None in
  if negb (bool_decide (debouncedSearchTerm = "")) then
    match collectMatches fuel nodes (Js.toLowerCase debouncedSearchTerm) with
    | Some (matchingNodes, ancestorNodes) =>
      snd <$> forEachM (addNodeAndChildren (depthFuel nodes) nodes
                                           matchingNodes ancestorNodes)
                       rootNodes (JSSet.empty, [])
    | None => None
    end
  else
    snd <$> forEachM (addNode (depthFuel nodes) nodes expandedNodes)
                     rootNodes (JSSet.empty, []).

(** The auto-expand effect: the value given to [setExpandedNodes]. *)
Definition autoExpand (fuel : nat) (nodes : list HPONode)
  (debouncedSearchTerm : string) : option JSSet.t :=
  if negb (bool_decide (debouncedSearchTerm = "")) then
    forEachM (λ node matches,
                if matchesSearch (Js.toLowerCase debouncedSearchTerm) node then
                  JSSet.add (id node) <$>
                    ancestorWalk fuel (nodesById nodes) node matches
                else Some matches)
             nodes JSSet.empty
  else Some JSSet.empty.

(** ** Output adapter: the value given to [setVariables] *)

Definition formatTerm (node : HPONode) : string :=
  id node +:+ " - " +:+ name node.

(** [Array.from(newSelected).map(id => { const node = nodes.find(...);
      return node ? `${node.id} - ${node.name}` : null }).filter(...)] *)
Definition selectedTerms (nodes : list HPONode) (newSelected : JSSet.t)
  : list string :=
  omap (λ i, formatTerm <$> List.find (λ n, bool_decide (id n = i)) nodes)
       newSelected.

Definition filterValue (nodes : list HPONode) (newSelected : JSSet.t)
  : string :=
  let terms := selectedTerms nodes newSelected in
  if 0 <? length terms then Js.join "," terms else "".

(** ** Selection engine *)

Definition isNodeSelected (selectedNodes : JSSet.t) (nodeId : string) : bool :=
  JSSet.has selectedNodes nodeId.

(** The loop over the children in [getDescendants]:
    [if (!visited.has(child.id)) stack.push(child.id)].  The stack is kept
    top first, so [stack.push(x)] conses and [stack.pop()] takes the head. *)
Definition pushChildren (visited : JSSet.t) (stack : list string)
  (children : list HPONode) : list string :=
  foldl (λ stk child, if JSSet.has visited (id child) then stk else id child :: stk)
        stack children.

(** The [while (stack.length > 0)] loop of [getDescendants], shared by the
    two variants of [HPOPlugin.tsx]; [keepRoot] tells whether the start node
    is pushed to [descendants] too.  One unit of fuel per evaluation of the
    loop test. *)
Fixpoint getDescendantsLoop (fuel : nat) (nodes : list HPONode)
  (keepRoot : bool) (nodeId : string) (stack : list string)
  (visited : JSSet.t) (descendants : list string) : option (list string) :=
  match fuel with
  | O => None
  | S fuel' =>
    match stack with
    | [] => Some descendants
    | currentId :: stack' =>
      if JSSet.has visited currentId then
        getDescendantsLoop fuel' nodes keepRoot nodeId stack' visited
                           descendants
      else
        let visited' := JSSet.add currentId visited in
        let descendants' :=
          if keepRoot || negb (bool_decide (currentId = nodeId))
          then descendants ++ [currentId] else descendants in
        let stack'' :=
          pushChildren visited' stack' (childrenOf nodes (Some currentId)) in
        getDescendantsLoop fuel' nodes keepRoot nodeId stack'' visited'
                           descendants'
    end
  end.

(** Every pass of the loop either pops an id already visited or marks a new
    id and pushes at most its children, and every record is the child of one
    id only: the loop test is evaluated at most [length nodes + 2] times. *)
Definition loopFuel (nodes : list HPONode) : nat := S (S (length nodes)).

(** Chunk-loading variant of [HPOPlugin.tsx]. *)
Module Chunked.

(** [getDescendants]: [if (currentId !== nodeId) descendants.push(currentId)]. *)
Definition getDescendants (nodes : list HPONode) (nodeId : string)
  : list string :=
  default [] (getDescendantsLoop (loopFuel nodes) nodes false nodeId
                                 [nodeId] JSSet.empty []).

(** [handleNodeSelect]: the new selection, and the filter value written when
    the iframe is loaded. *)
Definition handleNodeSelect (nodes : list HPONode) (iframeLoaded : bool)
  (selectedNodes : JSSet.t) (node : HPONode) (checked : bool)
  : JSSet.t * option string :=
  let descendants := getDescendants nodes (id node) in
  let newSelected :=
    if checked then
      JSSet.add (id node) (foldl (λ s i, JSSet.add i s) selectedNodes descendants)
    else
      JSSet.delete (id node)
                   (foldl (λ s i, JSSet.delete i s) selectedNodes descendants) in
  (newSelected,
   if iframeLoaded then Some (filterValue nodes newSelected) else None).

Definition isNodePartiallySelected (nodes : list HPONode)
  (selectedNodes : JSSet.t) (nodeId : string) : bool :=
  let descendants := getDescendants nodes nodeId in
  let selectedDescendants :=
    List.filter (λ i, JSSet.has selectedNodes i) descendants in
  (0 <? length selectedDescendants) &&
  (length selectedDescendants <? length descendants).

End Chunked.

(** Single-CSV variant of [HPOPlugin.tsx]. *)
Module Bridge.

(** [getDescendants]: [descendants.push(currentId)] for every id popped, the
    start node included. *)
Definition getDescendants (nodes : list HPONode) (nodeId : string)
  : list string :=
  default [] (getDescendantsLoop (loopFuel nodes) nodes true nodeId
                                 [nodeId] JSSet.empty []).

Definition handleNodeSelect (nodes : list HPONode) (iframeLoaded : bool)
  (selectedNodes : JSSet.t) (node : HPONode) (checked : bool)
  : JSSet.t * option string :=
  let descendants := getDescendants nodes (id node) in
  let newSelected :=
    if checked then foldl (λ s i, JSSet.add i s) selectedNodes descendants
    else foldl (λ s i, JSSet.delete i s) selectedNodes descendants in
  (newSelected,
   if iframeLoaded then Some (filterValue nodes newSelected) else None).

Definition isNodePartiallySelected (nodes : list HPONode)
  (selectedNodes : JSSet.t) (nodeId : string) : bool :=
  let descendants := getDescendants nodes nodeId in
  let selectedDescendants :=
    List.filter (λ i, JSSet.has selectedNodes i) descendants in
  (0 <? length selectedDescendants) &&
  (length selectedDescendants <? length descendants).

End Bridge.

(** ** Record normalizer *)

(** A parsed CSV row: each column is a string, or absent from the row. *)
Record CSVRow : Type := mkRow {
  TERM_ID : option string;
  TERM_FULL_NAME : option string;
  PARENT_ID : option string;
  LEVEL : option string
}.

(** [stripQuotes]: [if (!str) return ''; return str.replace(/^"+|"+$/g, '').trim()]. *)
Definition stripQuotes (str : option string) : string :=
  match str with
  | Some s => if bool_decide (s = "") then "" else Js.trim (Js.replaceOuterQuotes s)
  | None => ""
  end.

Module ChunkedLoad.

(** The [filter] callback of [fetchData]:
    [row.TERM_ID && row.TERM_FULL_NAME && !row.TERM_ID.startsWith(']')]. *)
Definition rowFilter (row : CSVRow) : bool :=
  Js.truthy (TERM_ID row) && Js.truthy (TERM_FULL_NAME row) &&
  negb (Js.startsWith (default "" (TERM_ID row)) "]").

(** The [map] callback of [fetchData]. *)
Definition rowNode (row : CSVRow) : HPONode :=
  {| id := stripQuotes (TERM_ID row);
     name := stripQuotes (TERM_FULL_NAME row);
     parent_id := if Js.truthy (PARENT_ID row)
                  then Some (stripQuotes (PARENT_ID row)) else None;
     level := Js.parseInt10 (LEVEL row);
     has_children := false |}.

(** [processedNodes], before the pass that sets [has_children] (a flag that
    only the rendering reads). *)
Definition processedNodes (data : list CSVRow) : list HPONode :=
  rowNode <$> List.filter rowFilter data.

(** [combinedData] of [loadChunkedData]: every chunk after the first loses
    its first line; [None] stands for the error 'No data chunks found'. *)
Definition combinedData (chunks : list string) : option string :=
  match chunks with
  | [] => None
  | firstChunk :: restChunks =>
    Some (Js.join Js.newline
            (firstChunk ::
             ((λ chunk, Js.join Js.newline (tail (Js.split Js.lf chunk)))
                <$> restChunks)))
  end.

End ChunkedLoad.

Module BridgeLoad.

(** The body of the row loop of [loadHPOData], from [const id = ...] on:
    the node pushed for the row, if any. *)
Definition rowNode (row : CSVRow) : option HPONode :=
  let id_ := Js.trim <$> TERM_ID row in
  let name_ := Js.trim <$> TERM_FULL_NAME row in
  let parentId := if Js.truthy (Js.trim <$> PARENT_ID row)
                  then Js.trim <$> PARENT_ID row else None in
  let level_ := Js.orZero (Js.parseInt (LEVEL row)) in
  if Js.truthy id_ && Js.truthy name_ then
    Some {| id := default "" id_;
            name := default "" name_;
            parent_id := if bool_decide (parentId = Some "") then None
                         else parentId;
            level := level_;
            has_children := false |}
  else None.

Definition hpoNodes (rows : list CSVRow) : list HPONode :=
  omap rowNode rows.

End BridgeLoad.

(** Nested-children variant: record normalizer, root selection and
    descendants. *)
Module Tree.

(** [HPONode] of this variant.  The nodes held in the state are the roots
    and what their [children] arrays lead to; the linking pass of
    [loadChunkedData] pushes every object to the array of one parent at
    most, so these are finite trees. *)
#[warnings="-register-all"]
Inductive HPONode : Type := mkNode {
  id : string;
  label : string;
  parentId : option string;
  level : Js.JSNumber;
  children : list HPONode
}.

(** The [filter] callback of [parseCSVChunk]: [row.TERM_ID && row.TERM_FULL_NAME]. *)
Definition rowFilter (row : CSVRow) : bool :=
  Js.truthy (TERM_ID row) && Js.truthy (TERM_FULL_NAME row).

Definition rowNode (row : CSVRow) : HPONode :=
  {| id := stripQuotes (TERM_ID row);
     label := stripQuotes (TERM_FULL_NAME row);
     parentId := if Js.truthy (PARENT_ID row)
                 then Some (stripQuotes (PARENT_ID row)) else None;
     level := Js.parseInt10 (LEVEL row);
     children := [] |}.

Definition parsedNodes (data : list CSVRow) : list HPONode :=
  rowNode <$> List.filter rowFilter data.

Definition nodesMap (parsed : list HPONode) : gmap string HPONode :=
  foldl (λ map node, <[id node := node]> map) ∅ parsed.

(** Which records [loadChunkedData] keeps as roots (nodes without parents
    or with non-existent parents); the pass that fills the [children]
    arrays is not modelled. *)
Definition rootNodes (parsed : list HPONode) : list HPONode :=
  List.filter (λ node,
                 negb (Js.truthy (parentId node)) ||
                 negb (bool_decide (is_Some (nodesMap parsed !! default "" (parentId node)))))
              parsed.

(** The number of nodes of a tree, and of a list of trees. *)
Fixpoint size (node : HPONode) : nat :=
  S ((fix sizes (l : list HPONode) : nat :=
        match l with
        | [] => 0
        | c :: l' => size c + sizes l'
        end) (children node)).

Definition sizes (l : list HPONode) : nat := foldr (λ c n, size c + n) 0 l.

(** The loop of [getDescendantIds]: [queue.shift()] takes the head,
    [queue.push(...currentNode.children)] appends.  One unit of fuel per
    evaluation of the loop test. *)
Fixpoint getDescendantIdsLoop (fuel : nat) (queue : list HPONode)
  (descendantIds : list string) : option (list string) :=
  match fuel with
  | O => None
  | S fuel' =>
    match queue with
    | [] => Some descendantIds
    | currentNode :: queue' =>
      getDescendantIdsLoop fuel' (queue' ++ children currentNode)
                           (descendantIds ++ [id currentNode])
    end
  end.

(** [getDescendantIds]; every pass of the loop takes one node of the trees
    below [node] off the queue. *)
Definition getDescendantIds (node : HPONode) : list string :=
  default [] (getDescendantIdsLoop (S (sizes (children node)))
                                   (children node) []).

(** [findNodeById]: the nodes of the array in order, each before what its
    [children] array leads to; the first node with the id is returned. *)
Fixpoint findInNode (nodeId : string) (node : HPONode) : option HPONode :=
  if bool_decide (id node = nodeId) then Some node
  else
    (fix findNodeById (nodes : list HPONode) : option HPONode :=
       match nodes with
       | [] => None
       | c :: nodes' =>
         match findInNode nodeId c with
         | Some found => Some found
         | None => findNodeById nodes'
         end
       end) (children node).

Definition findNodeById (nodes : list HPONode) (nodeId : string)
  : option HPONode :=
  foldr (λ node rest,
           match findInNode nodeId node with
           | Some found => Some found
           | None => rest
           end)
        None nodes.

(** [handleNodeSelect]: the selection after the call. In local development
    it is the set given to [setLocalSelectedNodes]; otherwise the array
    given to [setFilterValue], which [selectedNodes] is rebuilt from.
    Nothing changes when no node of the tree has the id. *)
Definition handleNodeSelect (nodes : list HPONode) (isLocalDev : bool)
  (selectedNodes : JSSet.t) (nodeId : string) (selected : bool) : JSSet.t :=
  match findNodeById nodes nodeId with
  | None => selectedNodes
  | Some targetNode =>
    let allIds := nodeId :: getDescendantIds targetNode in
    if isLocalDev then
      if selected then foldl (λ s i, JSSet.add i s) selectedNodes allIds
      else foldl (λ s i, JSSet.delete i s) selectedNodes allIds
    else
      if selected then
        foldl (λ s i, JSSet.add i s) JSSet.empty (selectedNodes ++ allIds)
      else
        List.filter (λ i, negb (bool_decide (i ∈ allIds))) selectedNodes
  end.

(** [hasSelectedDescendants] of [renderNode]: children and grandchildren. *)
Definition hasSelectedDescendants (selectedNodes : JSSet.t) (node : HPONode)
  : bool :=
  existsb (λ child,
             JSSet.has selectedNodes (id child) ||
             existsb (λ grandchild, JSSet.has selectedNodes (id grandchild))
                     (children child))
          (children node).

(** The loop of [loadChunkedData] that joins the chunks: a non-final chunk
    gives its complete lines to [combinedData] and keeps the last, partial,
    one for the next chunk. *)
Fixpoint combineLoop (chunks : list string) (combinedData partialLine : string)
  : string :=
  match chunks with
  | [] => combinedData
  | chunk :: rest =>
    let lines := Js.split Js.lf (partialLine +:+ chunk) in
    match rest with
    | [] => combinedData +:+ Js.join Js.newline lines
    | _ :: _ =>
      combineLoop rest
                  (combinedData +:+ Js.join Js.newline (removelast lines)
                                +:+ Js.newline)
                  (List.last lines "")
    end
  end.

(** [combinedData], or [None] for the error 'No data chunks found'. *)
Definition combinedData (chunks : list string) : option string :=
  match chunks with
  | [] => None
  | _ :: _ => Some (combineLoop chunks "" "")
  end.

End Tree.

(** ** The [has_children] pass of [fetchData] and [loadHPOData] *)

(** A [Map] filled by [objects.forEach(o => map.set(o.id, o))]. The objects
    are shared by the array and by the map: an object is its position in
    the array, and the map gives for an id the position of the object that
    was set under it last. *)
Definition lastIndex {A : Type} (key : A → string) (objects : list A)
  : gmap string nat :=
  (foldl (λ '(map, i) object, (<[key object := i]> map, S i)) (∅, 0) objects).1.

(** [nodesMap] of [fetchData] and of [loadHPOData]. *)
Definition nodesMap (nodes : list HPONode) : gmap string nat :=
  lastIndex id nodes.

(** [parent.has_children = true] *)
Definition setHasChildren (parent : HPONode) : HPONode :=
  {| id := id parent; name := name parent; parent_id := parent_id parent;
     level := level parent; has_children := true |}.

(** [nodes.forEach(node => { if (node.parent_id && nodesMap.has(node.parent_id))
      { const parent = nodesMap.get(node.parent_id)!; parent.has_children = true } })].
    The callback reads [parent_id] only, which no assignment changes, so the
    loop runs over the records as they were; the objects are the state. *)
Definition markParents (nodes : list HPONode) : list HPONode :=
  foldl (λ objects node,
           if Js.truthy (parent_id node) then
             match nodesMap nodes !! default "" (parent_id node) with
             | Some j => alter setHasChildren j objects
             | None => objects
             end
           else objects)
        nodes nodes.

(** What [fetchData] gives to [setNodes]. *)
Definition fetchData (data : list CSVRow) : list HPONode :=
  markParents (ChunkedLoad.processedNodes data).

(** ** The linking pass of the nested-children variant *)

Module TreeLoad.

(** [nodesMap] of [loadChunkedData], by positions. *)
Definition nodesMap (parsedNodes : list Tree.HPONode) : gmap string nat :=
  lastIndex Tree.id parsedNodes.

(** [parsedNodes.forEach(node => { if (node.parentId && nodesMap.has(node.parentId))
      { const parent = nodesMap.get(node.parentId); if (parent) parent.children.push(node) } })]:
    the [children] arrays of the objects after the pass, each as the
    positions of the objects pushed to it. [parseCSVChunk] makes every
    object with an empty array. *)
Definition linkChildren (parsedNodes : list Tree.HPONode) : list (list nat) :=
  (foldl (λ '(arrays, i) node,
            (if Js.truthy (Tree.parentId node) then
               match nodesMap parsedNodes !! default "" (Tree.parentId node) with
               | Some j => alter (λ children, children ++ [i]) j arrays
               | None => arrays
               end
             else arrays, S i))
         (replicate (length parsedNodes) [], 0) parsedNodes).1.

(** The object at a position together with what its [children] array leads
    to, read as a tree; the fuel bounds the depth, and [None] says that the
    fuel ran out or that a position is not one of the array. *)
Fixpoint nested (fuel : nat) (parsedNodes : list Tree.HPONode)
  (arrays : list (list nat)) (i : nat) : option Tree.HPONode :=
  match fuel with
  | O => None
  | S fuel' =>
    match parsedNodes !! i, arrays !! i with
    | Some node, Some children =>
      match mapM (nested fuel' parsedNodes arrays) children with
      | Some cs =>
        Some (Tree.mkNode (Tree.id node) (Tree.label node) (Tree.parentId node)
                          (Tree.level node) cs)
      | None => None
      end
    | _, _ => None
    end
  end.

(** The positions that the filter of [rootNodes] keeps. *)
Definition rootPositions (parsedNodes : list Tree.HPONode) : list nat :=
  List.filter
    (λ i, match parsedNodes !! i with
          | Some node =>
            negb (Js.truthy (Tree.parentId node)) ||
            negb (bool_decide
                    (is_Some (Tree.nodesMap parsedNodes
                                !! default "" (Tree.parentId node))))
          | None => false
          end)
    (seq 0 (length parsedNodes)).

(** What [loadChunkedData] gives to [setNodes]: the roots, linked. *)
Definition loadedNodes (parsedNodes : list Tree.HPONode)
  : option (list Tree.HPONode) :=
  mapM (nested (S (length parsedNodes)) parsedNodes (linkChildren parsedNodes))
       (rootPositions parsedNodes).

End TreeLoad.

(** ** The single-CSV loader ([parseCSVLine], [loadHPOData]) *)

Module Line.

(** The variables of [parseCSVLine]. *)
Record State : Type := mk {
  values : list string;
  current : string;
  inQuotes : bool;
  bracketDepth : Z
}.

Definition isOpening (char : ascii) : bool :=
  bool_decide (char = "["%char) || bool_decide (char = "{"%char).

Definition isClosing (char : ascii) : bool :=
  bool_decide (char = "]"%char) || bool_decide (char = "}"%char).

(** The body of the [for] loop, for one character of the line. *)
Definition step (st : State) (char : ascii) : State :=
  if bool_decide (char = Js.quote) then
    mk (values st) (current st) (negb (inQuotes st)) (bracketDepth st)
  else if isOpening char then
    mk (values st) (current st +:+ String char "") (inQuotes st)
       (bracketDepth st + 1)
  else if isClosing char then
    mk (values st) (current st +:+ String char "") (inQuotes st)
       (bracketDepth st - 1)
  else if bool_decide (char = ","%char) && negb (inQuotes st) &&
          bool_decide (bracketDepth st = 0%Z) then
    mk (values st ++ [Js.trim (current st)]) "" (inQuotes st) (bracketDepth st)
  else
    mk (values st) (current st +:+ String char "") (inQuotes st)
       (bracketDepth st).

Fixpoint loop (line : string) (st : State) : State :=
  match line with
  | EmptyString => st
  | String char rest => loop rest (step st char)
  end.

End Line.

(** [parseCSVLine]: the loop, then [values.push(current.trim())]. *)
Definition parseCSVLine (line : string) : list string :=
  let st := Line.loop line (Line.mk [] "" false 0) in
  Line.values st ++ [Js.trim (Line.current st)].

(** [headers.forEach((header, index) => { row[header] = values[index] || '' })] *)
Definition rowObject (headers values : list string) : gmap string string :=
  (foldl (λ '(row, index) header,
            (<[header := default "" (values !! index)]> row, S index))
         (∅, 0) headers).1.

(** The four properties of [row] that [loadHPOData] reads. *)
Definition csvRow (row : gmap string string) : CSVRow :=
  {| TERM_ID := row !! "TERM_ID";
     TERM_FULL_NAME := row !! "TERM_FULL_NAME";
     PARENT_ID := row !! "PARENT_ID";
     LEVEL := row !! "LEVEL" |}.

(** [csvText.trim().split('\n')] *)
Definition csvLines (csvText : string) : list string :=
  Js.split Js.lf (Js.trim csvText).

(** [lines[0].split(',')], each header trimmed and then freed of its quote
    characters. *)
Definition csvHeaders (csvText : string) : list string :=
  (λ h, Js.removeQuotes (Js.trim h)) <$>
    Js.split ","%char (default "" (head (csvLines csvText))).

(** What [loadHPOData] gives to [setNodes], from the text of the response. *)
Definition loadHPOData (csvText : string) : list HPONode :=
  markParents
    (BridgeLoad.hpoNodes
       ((λ line, csvRow (rowObject (csvHeaders csvText) (parseCSVLine line)))
          <$> tail (csvLines csvText))).

(** ** Expansion state *)

(** [toggleExpansion]: the set given to [setExpandedNodes]. *)
Definition toggleExpansion (expandedNodes : JSSet.t) (nodeId : string)
  : JSSet.t :=
  if JSSet.has expandedNodes nodeId then JSSet.delete nodeId expandedNodes
  else JSSet.add nodeId expandedNodes.

(** ** Sessions *)

(** A run of checkbox events: every call of [handleNodeSelect] reads the
    selection that the call before it gave to [setSelectedNodes]. *)
Definition runToggles
  (handle : JSSet.t → HPONode → bool → JSSet.t * option string)
  (events : list (HPONode * bool)) (selectedNodes : JSSet.t) : JSSet.t :=
  foldl (λ sel '(node, checked), (handle sel node checked).1)
        selectedNodes events.

(** ** Record sets and rows used as test inputs *)

Module Examples.

Definition rootA : HPONode := mkNode "HP:1" "RootA" None (Js.JSNum 0) false.
Definition childA : HPONode :=
  mkNode "HP:2" "ChildA" (Some "HP:1") (Js.JSNum 1) false.
Definition childB : HPONode :=
  mkNode "HP:3" "ChildB" (Some "HP:1") (Js.JSNum 1) false.

(** Scenario 1 of the specification. *)
Definition family : list HPONode := [rootA; childA; childB].

(** A parent cycle: A's parent is B and B's parent is A. *)
Definition cycleA : HPONode := mkNode "A" "a" (Some "B") (Js.JSNum 0) false.
Definition cycleB : HPONode := mkNode "B" "b" (Some "A") (Js.JSNum 0) false.
Definition cyclic : list HPONode := [cycleA; cycleB].

(** A record whose parent is absent from the record set, and a child of it. *)
Definition orphan : HPONode :=
  mkNode "HP:5" "X" (Some "HP:999") (Js.JSNum 0) false.
Definition orphanChild : HPONode :=
  mkNode "HP:6" "ChildA" (Some "HP:5") (Js.JSNum 1) false.
Definition dangling : list HPONode := [orphan; orphanChild].

(** Scenario 5 of the specification: the records of scenario 1 and a record
    whose parent "HP:999" is absent. *)
Definition familyAndOrphan : list HPONode := family ++ [orphan].

Definition treeOrphan : Tree.HPONode :=
  Tree.mkNode "HP:5" "X" (Some "HP:999") (Js.JSNum 0) [].

(** The records of scenario 5 as [parseCSVChunk] gives them, before the
    linking pass. *)
Definition treeChildA : Tree.HPONode :=
  Tree.mkNode "HP:2" "ChildA" (Some "HP:1") (Js.JSNum 1) [].
Definition treeChildB : Tree.HPONode :=
  Tree.mkNode "HP:3" "ChildB" (Some "HP:1") (Js.JSNum 1) [].
Definition treeParsed : list Tree.HPONode :=
  [Tree.mkNode "HP:1" "RootA" None (Js.JSNum 0) []; treeChildA; treeChildB;
   treeOrphan].

(** The root of scenario 1 after the linking pass. *)
Definition treeFamily : Tree.HPONode :=
  Tree.mkNode "HP:1" "RootA" None (Js.JSNum 0) [treeChildA; treeChildB].

(** Rows for the normalizer. *)
Definition goodRow : CSVRow :=
  mkRow (Some "HP:1") (Some "RootA") None (Some "0").
Definition bracketRow : CSVRow :=
  mkRow (Some "]x") (Some "RootA") None (Some "0").
Definition quotesOnlyRow : CSVRow :=
  mkRow (Some (String Js.quote (String Js.quote ""))) (Some "RootA") None
        (Some "0").
Definition emptyIdRow : CSVRow := mkRow (Some "") (Some "X") None (Some "0").
Definition badLevelRow : CSVRow :=
  mkRow (Some "HP:1") (Some "RootA") None (Some "abc").

End Examples.

(** * Vocabulary of the properties *)

(** ** Reachability through child links *)

(** The children relation on ids: [y] is the id of a record whose
    [parent_id] is [x]. *)
Definition childStep (nodes : list HPONode) (x y : string) : Prop :=
  ∃ n, n ∈ nodes ∧ parent_id n = Some x ∧ id n = y.

(** [y] is reachable from [x] through one or more child links. *)
Definition reachable (nodes : list HPONode) : relation string :=
  tc (childStep nodes).

(** [c] is in the [children] array of [t]. *)
Definition treeChild (t c : Tree.HPONode) : Prop := c ∈ Tree.children t.

(** ** The loop of [getDescendants] *)

(** The records whose parent has not been marked yet: what the loop may
    still push. *)
Definition pendingChild (visited : JSSet.t) (n : HPONode) : bool :=
  match parent_id n with
  | Some p => negb (JSSet.has visited p)
  | None => false
  end.

Definition pending (nodes : list HPONode) (visited : JSSet.t) : nat :=
  length (List.filter (pendingChild visited) nodes).

(** The loop invariant: stacked and visited ids are reachable, the visited
    ids are closed under children up to what is on the stack, and
    [descendants] lists the visited ids that are kept, once each. *)
Definition loopInv (nodes : list HPONode) (keepRoot : bool) (nodeId : string)
  (stack : list string) (visited : JSSet.t) (descendants : list string)
  : Prop :=
  (∀ s, s ∈ stack → rtc (childStep nodes) nodeId s) ∧
  (∀ v, v ∈ visited → rtc (childStep nodes) nodeId v) ∧
  (∀ d, d ∈ descendants ↔ d ∈ visited ∧ (keepRoot = true ∨ d ≠ nodeId)) ∧
  (∀ v c, v ∈ visited → childStep nodes v c → c ∈ visited ∨ c ∈ stack) ∧
  (nodeId ∈ visited ∨ nodeId ∈ stack) ∧
  NoDup descendants.

(** ** The traversals of [visibleNodes] *)

(** [addNode] and [addNodeAndChildren] are two settings of one traversal:
    [emit] tells whether a new node is pushed to [result], [opened] whether
    the children of a pushed node are looked at, and [enter] which of them
    the traversal is called on. *)
Fixpoint traverse (nodes : list HPONode) (emit opened enter : HPONode → bool)
  (fuel : nat) (node : HPONode) (st : ViewState) : option ViewState :=
  match fuel with
  | O => None
  | S fuel' =>
    let '(visited, result) := st in
    if JSSet.has visited (id node) then Some st
    else
      let visited' := JSSet.add (id node) visited in
      if emit node then
        if opened node then
          forEachM (λ child st',
                      if enter child
                      then traverse nodes emit opened enter fuel' child st'
                      else Some st')
                   (childrenOf nodes (Some (id node)))
                   (visited', result ++ [node])
        else Some (visited', result ++ [node])
      else Some (visited', result)
  end.

(** What a returned call has done to the state: [result] has grown by new
    nodes, all of the record set, all to be emitted, with ids that were not
    visited before and are now, without repetition; every id marked since is
    the id of a record that was pushed if it was to be emitted; and the
    children to enter of every opened new node are marked. *)
Definition grown (nodes : list HPONode) (emit opened enter : HPONode → bool)
  (st st' : ViewState) : Prop :=
  ∃ new,
    st'.2 = st.2 ++ new ∧
    (∀ x, x ∈ st.1 → x ∈ st'.1) ∧
    (∀ n, n ∈ new → n ∈ nodes ∧ emit n = true ∧ (id n ∉ st.1) ∧ id n ∈ st'.1) ∧
    NoDup (id <$> new) ∧
    (∀ x, x ∈ st'.1 →
          x ∈ st.1 ∨ ∃ n, n ∈ nodes ∧ id n = x ∧ (emit n = true → n ∈ new)) ∧
    (∀ p c, p ∈ new → opened p = true →
            c ∈ childrenOf nodes (Some (id p)) → enter c = true →
            id c ∈ st'.1).

(** Termination: the records whose id is not marked yet bound the depth. *)
Definition unvisited (nodes : list HPONode) (visited : JSSet.t) : nat :=
  length (filter (λ n, id n ∉ visited) nodes).

(** ** Ancestors *)

(** The ids the walk from [cur] meets: the [parent_id] of [cur] when it is
    not empty, and then what the walk meets from the record that
    [nodesById] gives for it. *)
Inductive onChain (byId : gmap string HPONode) : HPONode → string → Prop :=
| onChain_parent cur p :
    parent_id cur = Some p → p ≠ "" → onChain byId cur p
| onChain_up cur p parent x :
    parent_id cur = Some p → p ≠ "" → byId !! p = Some parent →
    onChain byId parent x → onChain byId cur x.

(** [a] is the parent record of [m]. *)
Definition parentOf (nodes : list HPONode) (a m : HPONode) : Prop :=
  a ∈ nodes ∧ m ∈ nodes ∧ parent_id m = Some (id a).

(** [a] is a proper ancestor of [m]: a chain of parent links leads from [m]
    up to [a]. *)
Definition properAncestor (nodes : list HPONode) : relation HPONode :=
  tc (parentOf nodes).

(** A node matches, or is a proper ancestor of a node that matches. *)
Definition relevant (nodes : list HPONode) (searchLower : string)
  (n : HPONode) : Prop :=
  matchesSearch searchLower n = true ∨
  ∃ m, m ∈ nodes ∧ matchesSearch searchLower m = true ∧ properAncestor nodes n m.

(** The parent chain of a record ends at a record without parent. *)
Inductive rooted (nodes : list HPONode) : HPONode → Prop :=
| rooted_root n : parent_id n = None → rooted nodes n
| rooted_child n p :
    p ∈ nodes → parent_id n = Some (id p) → rooted nodes p → rooted nodes n.

(** A well-formed record set: ids are unique, no [parent_id] is the empty
    string, and every parent chain ends at a root (so no parent is missing
    and there is no cycle). *)
Definition wellFormed (nodes : list HPONode) : Prop :=
  NoDup (id <$> nodes) ∧
  (∀ n, n ∈ nodes → parent_id n ≠ Some "") ∧
  (∀ n, n ∈ nodes → rooted nodes n).


(** ** Plain mode *)

(** What plain mode is meant to show: the records without parent, and the
    children of a shown record whose id is in the expansion set. *)
Inductive shownPlain (nodes : list HPONode) (expandedNodes : JSSet.t)
  : HPONode → Prop :=
| shown_root n :
    n ∈ nodes → parent_id n = None → shownPlain nodes expandedNodes n
| shown_child p n :
    shownPlain nodes expandedNodes p →
    JSSet.has expandedNodes (id p) = true →
    n ∈ nodes → parent_id n = Some (id p) →
    shownPlain nodes expandedNodes n.

(** A list built by pushes, each of a root or of a child of an opened node
    pushed before. *)
Inductive justified (nodes : list HPONode) (opened : HPONode → bool)
  : list HPONode → Prop :=
| justified_nil : justified nodes opened []
| justified_snoc l n :
    justified nodes opened l →
    n ∈ childrenOf nodes None ∨
    (∃ p, p ∈ l ∧ opened p = true ∧ n ∈ childrenOf nodes (Some (id p))) →
    justified nodes opened (l ++ [n]).

(** ** Characters of a string, cells of a CSV line *)

(** Every character of the string passes the test. *)
Fixpoint allChars (p : ascii → bool) (s : string) : bool :=
  match s with
  | EmptyString => true
  | String c r => p c && allChars p r
  end.

Definition notQuote (c : ascii) : bool := negb (Js.is_quote c).

Definition notOpening (c : ascii) : bool := negb (Line.isOpening c).

(** The first and the last character of a string, if any. *)
Definition firstChar (s : string) : option ascii :=
  match s with
  | EmptyString => None
  | String c _ => Some c
  end.

Definition lastChar (s : string) : option ascii :=
  firstChar (Js.rev_string s "").

(** A character of the ASCII range. Outside it [String.prototype.trim]
    strips characters that [Js.trim] keeps (the no-break space, the byte
    order mark, the Unicode space separators). *)
Definition isAscii (c : ascii) : bool := nat_of_ascii c <? 128.

(** A character that neither [stripQuotes] nor any [trim] strips when it
    stands at an end of a value. *)
Definition keptAtEnd (c : ascii) : bool :=
  isAscii c && negb (Js.is_quote c) && negb (Ascii.is_space c).

(** A character that may stand between quotes: no quote and no bracket. *)
Definition quotedChar (c : ascii) : bool :=
  notQuote c && notOpening c && negb (Line.isClosing c).

(** A character that may stand in a cell written without quotes: no comma
    either. *)
Definition plainChar (c : ascii) : bool :=
  quotedChar c && negb (bool_decide (c = ","%char)).

(** A cell is its text and whether it is written between quotes. *)
Definition cellOK (cell : bool * string) : bool :=
  allChars (if cell.1 then quotedChar else plainChar) cell.2.

Definition renderCell (cell : bool * string) : string :=
  if cell.1 then String Js.quote (cell.2 +:+ String Js.quote "") else cell.2.

(** ** Linked objects *)

(** The object at position [i] names the object at position [j] as its
    parent: its [parentId] is not empty and [nodesMap] gives [j] for it. *)
Definition linkedTo (parsedNodes : list Tree.HPONode) (i j : nat) : Prop :=
  ∃ n, parsedNodes !! i = Some n ∧ Js.truthy (Tree.parentId n) = true ∧
       TreeLoad.nodesMap parsedNodes !! default "" (Tree.parentId n) = Some j.

(** The positions from [k] on of the objects of [l] that name [j]. *)
Fixpoint linkHits (idx : gmap string nat) (j k : nat) (l : list Tree.HPONode)
  : list nat :=
  match l with
  | [] => []
  | n :: l' =>
    (if Js.truthy (Tree.parentId n) &&
        bool_decide (idx !! default "" (Tree.parentId n) = Some j)
     then [k] else []) ++ linkHits idx j (S k) l'
  end.

(** A chain of positions, each naming the next as its parent, up to a
    position that names none. *)
Inductive chainUp (parsedNodes : list Tree.HPONode) : list nat → Prop :=
| chainUp_root r :
    r < length parsedNodes → (∀ j, ¬ linkedTo parsedNodes r j) →
    chainUp parsedNodes [r]
| chainUp_child c i l :
    linkedTo parsedNodes c i → chainUp parsedNodes (i :: l) →
    chainUp parsedNodes (c :: i :: l).

(** The tree of the object at a position: the fields of the object, and
    under it, in order, the trees of the objects of its [children] array. *)
#[warnings="-register-all"]
Inductive treeOf (parsedNodes : list Tree.HPONode) (arrays : list (list nat))
  : nat → Tree.HPONode → Prop :=
| treeOf_node i node children cs :
    parsedNodes !! i = Some node → arrays !! i = Some children →
    Forall2 (treeOf parsedNodes arrays) children cs →
    treeOf parsedNodes arrays i
           (Tree.mkNode (Tree.id node) (Tree.label node) (Tree.parentId node)
                        (Tree.level node) cs).

(** * Properties *)

(** ** Sets in insertion order *)

Section JSSetFacts.
Implicit Types (s : JSSet.t) (x y : string).

Lemma has_true s x : JSSet.has s x = true ↔ x ∈ s.
Proof. unfold JSSet.has. apply bool_decide_eq_true. Qed.

Lemma has_false s x : JSSet.has s x = false ↔ x ∉ s.
Proof. unfold JSSet.has. apply bool_decide_eq_false. Qed.

Lemma elem_of_add x y s : y ∈ JSSet.add x s ↔ y = x ∨ y ∈ s.
Proof.
  unfold JSSet.add. destruct (JSSet.has s x) eqn:E.
  - apply has_true in E. split; [auto | intros [-> | ?]; auto].
  - rewrite elem_of_app, list_elem_of_singleton. tauto.
Qed.

Lemma elem_of_delete x y s : y ∈ JSSet.delete x s ↔ y ≠ x ∧ y ∈ s.
Proof. unfold JSSet.delete. by rewrite list_elem_of_filter. Qed.

Lemma NoDup_add x s : NoDup s → NoDup (JSSet.add x s).
Proof.
  intros Hs. unfold JSSet.add. destruct (JSSet.has s x) eqn:E; [done|].
  apply has_false in E. apply NoDup_app. split_and!; [done | | apply NoDup_singleton].
  intros y Hy ->%list_elem_of_singleton. done.
Qed.

Lemma elem_of_foldl_add (l : list string) s y :
  y ∈ foldl (λ s i, JSSet.add i s) s l ↔ y ∈ s ∨ y ∈ l.
Proof.
  revert s. induction l as [|i l IH]; intros s; simpl.
  - rewrite elem_of_nil. tauto.
  - rewrite IH, elem_of_add, elem_of_cons. tauto.
Qed.

Lemma elem_of_foldl_delete (l : list string) s y :
  y ∈ foldl (λ s i, JSSet.delete i s) s l ↔ y ∈ s ∧ y ∉ l.
Proof.
  revert s. induction l as [|i l IH]; intros s; simpl.
  - rewrite elem_of_nil. tauto.
  - rewrite IH, elem_of_delete, not_elem_of_cons. tauto.
Qed.

End JSSetFacts.

(** ** The hierarchy index *)

Lemma nodesByParent_snoc nodes node :
  nodesByParent (nodes ++ [node]) =
  <[parent_id node := default [] (nodesByParent nodes !! parent_id node) ++ [node]]>
    (nodesByParent nodes).
Proof. unfold nodesByParent. by rewrite foldl_app. Qed.

(** The array stored under a key holds the records with that [parent_id],
    in the order of the record set. *)
Lemma childrenOf_filter nodes k :
  childrenOf nodes k = filter (λ n, parent_id n = k) nodes.
Proof.
  unfold childrenOf. induction nodes as [|node nodes IH] using rev_ind; [done|].
  rewrite nodesByParent_snoc, filter_app, filter_cons, filter_nil.
  destruct (decide (parent_id node = k)) as [->|Hne].
  - rewrite lookup_insert_eq. simpl. by rewrite IH.
  - rewrite lookup_insert_ne by done. by rewrite IH, app_nil_r.
Qed.

Lemma elem_of_childrenOf nodes k n :
  n ∈ childrenOf nodes k ↔ n ∈ nodes ∧ parent_id n = k.
Proof. rewrite childrenOf_filter, list_elem_of_filter. tauto. Qed.

Lemma nodesById_snoc nodes node :
  nodesById (nodes ++ [node]) = <[id node := node]> (nodesById nodes).
Proof. unfold nodesById. by rewrite foldl_app. Qed.

Lemma nodesById_Some nodes i n :
  nodesById nodes !! i = Some n → n ∈ nodes ∧ id n = i.
Proof.
  induction nodes as [|node nodes IH] using rev_ind; [done|].
  rewrite nodesById_snoc, elem_of_app, list_elem_of_singleton.
  destruct (decide (id node = i)) as [<-|Hne].
  - rewrite lookup_insert_eq. intros [= <-]. auto.
  - rewrite lookup_insert_ne by done. intros H. apply IH in H. tauto.
Qed.

Lemma nodesById_unique nodes n :
  NoDup (id <$> nodes) → n ∈ nodes → nodesById nodes !! id n = Some n.
Proof.
  induction nodes as [|node nodes IH] using rev_ind; [by intros _ ?%elem_of_nil|].
  rewrite fmap_app, nodesById_snoc. simpl.
  intros (Hnd & Hdisj & _)%NoDup_app [Hin | ->%list_elem_of_singleton]%elem_of_app.
  - rewrite lookup_insert_ne; [by apply IH|].
    intros Heq. apply (Hdisj (id n)).
    + apply list_elem_of_fmap. eauto.
    + rewrite Heq. apply list_elem_of_singleton. done.
  - by rewrite lookup_insert_eq.
Qed.

(** ** [getDescendants]: termination *)

Lemma pending_le nodes visited : pending nodes visited ≤ length nodes.
Proof. unfold pending. apply List.filter_length_le. Qed.

Lemma pending_add nodes visited cur :
  cur ∉ visited →
  pending nodes visited =
  pending nodes (JSSet.add cur visited) + length (childrenOf nodes (Some cur)).
Proof.
  intros Hcur. rewrite childrenOf_filter. unfold pending.
  induction nodes as [|n nodes IH]; [done|].
  rewrite filter_cons. simpl.
  assert (pendingChild visited n =
          pendingChild (JSSet.add cur visited) n || bool_decide (parent_id n = Some cur))
    as ->.
  { unfold pendingChild. destruct (parent_id n) as [p|]; [|done].
    destruct (decide (p = cur)) as [->|Hne].
    - rewrite bool_decide_eq_true_2 by done.
      apply has_false in Hcur. rewrite Hcur. by rewrite orb_true_r.
    - rewrite bool_decide_eq_false_2 by congruence. rewrite orb_false_r.
      f_equal. apply bool_decide_ext. rewrite elem_of_add.
      split; [auto | intros [?|?]; [congruence|done]]. }
  assert (pendingChild (JSSet.add cur visited) n = true → parent_id n ≠ Some cur)
    as Hexcl.
  { unfold pendingChild. intros H Heq. rewrite Heq in H.
    apply negb_true_iff in H. apply has_false in H. apply H, elem_of_add. auto. }
  destruct (pendingChild (JSSet.add cur visited) n) eqn:E1; simpl.
  - rewrite decide_False by auto. rewrite IH. lia.
  - destruct (decide (parent_id n = Some cur)) as [Heq|Hne].
    + rewrite bool_decide_eq_true_2 by done. simpl. rewrite IH. lia.
    + rewrite bool_decide_eq_false_2 by done. done.
Qed.

Lemma length_pushChildren visited stack children :
  length (pushChildren visited stack children) ≤ length stack + length children.
Proof.
  unfold pushChildren. revert stack.
  induction children as [|c children IH]; intros stack; simpl; [lia|].
  etrans; [apply IH|]. destruct (JSSet.has visited (id c)); simpl; lia.
Qed.

Lemma elem_of_pushChildren visited stack children x :
  x ∈ pushChildren visited stack children ↔
  x ∈ stack ∨ ((x ∉ visited) ∧ (∃ c, c ∈ children ∧ id c = x)).
Proof.
  unfold pushChildren. revert stack.
  induction children as [|c children IH]; intros stack; simpl.
  - split; [auto|]. intros [?|(_ & c & ?%elem_of_nil & _)]; done.
  - rewrite IH. destruct (JSSet.has visited (id c)) eqn:E.
    + apply has_true in E. split.
      * intros [?|(? & c' & ? & ?)]; [auto|]. right. split; [done|].
        exists c'. rewrite elem_of_cons. auto.
      * intros [?|(Hx & c' & [->|?]%elem_of_cons & <-)]; [auto|done|].
        right. eauto.
    + apply has_false in E. rewrite elem_of_cons. split.
      * intros [[->|?]|(? & c' & ? & ?)]; [|auto|].
        -- right. split; [done|]. exists c. rewrite elem_of_cons. auto.
        -- right. split; [done|]. exists c'. rewrite elem_of_cons. auto.
      * intros [?|(Hx & c' & [->|?]%elem_of_cons & <-)]; [auto|auto|].
        right. eauto.
Qed.

(** With more fuel than pending pushes and stacked ids, the loop returns. *)
Lemma getDescendantsLoop_total fuel nodes keepRoot nodeId stack visited descendants :
  length stack + pending nodes visited < fuel →
  is_Some (getDescendantsLoop fuel nodes keepRoot nodeId stack visited descendants).
Proof.
  revert stack visited descendants.
  induction fuel as [|fuel IH]; intros stack visited descendants Hlt; [lia|].
  simpl. destruct stack as [|cur stack]; [by eexists|].
  simpl in Hlt. destruct (JSSet.has visited cur) eqn:E.
  - apply IH. lia.
  - apply has_false in E. apply IH.
    pose proof (length_pushChildren (JSSet.add cur visited) stack
                  (childrenOf nodes (Some cur))).
    pose proof (pending_add nodes visited cur E). lia.
Qed.

Lemma getDescendantsLoop_returns nodes keepRoot nodeId :
  is_Some (getDescendantsLoop (loopFuel nodes) nodes keepRoot nodeId [nodeId]
                              JSSet.empty []).
Proof.
  apply getDescendantsLoop_total. unfold loopFuel. simpl.
  pose proof (pending_le nodes JSSet.empty). lia.
Qed.

(** ** [getDescendants]: what it returns *)

Section DescendantsLoop.
Variables (nodes : list HPONode) (keepRoot : bool) (nodeId : string).

Local Abbreviation inv := (loopInv nodes keepRoot nodeId).

Lemma loopInv_init : inv [nodeId] JSSet.empty [].
Proof.
  unfold loopInv, JSSet.empty. split_and!.
  - intros s ->%list_elem_of_singleton. done.
  - intros v ?%elem_of_nil. done.
  - intros d. rewrite !elem_of_nil. tauto.
  - intros v c ?%elem_of_nil. done.
  - right. by apply list_elem_of_singleton.
  - constructor.
Qed.

Lemma loopInv_skip cur stack visited descendants :
  cur ∈ visited →
  inv (cur :: stack) visited descendants →
  inv stack visited descendants.
Proof.
  intros Hcur (HS & HV & HD & HC & HA & HN). split_and!; try done.
  - intros s Hs. apply HS. by right.
  - intros v c Hv Hstep.
    destruct (HC v c Hv Hstep) as [?|[->|?]%elem_of_cons]; auto.
  - destruct HA as [?|[->|?]%elem_of_cons]; auto.
Qed.

Lemma loopInv_visit cur stack visited descendants :
  cur ∉ visited →
  inv (cur :: stack) visited descendants →
  inv (pushChildren (JSSet.add cur visited) stack (childrenOf nodes (Some cur)))
      (JSSet.add cur visited)
      (if keepRoot || negb (bool_decide (cur = nodeId))
       then descendants ++ [cur] else descendants).
Proof.
  intros Hcur (HS & HV & HD & HC & HA & HN).
  assert (rtc (childStep nodes) nodeId cur) as Hreach by (apply HS; by left).
  split_and!.
  - intros s [Hs|(_ & c & Hc & <-)]%elem_of_pushChildren.
    + apply HS. by right.
    + apply elem_of_childrenOf in Hc as [Hc Hp].
      eapply rtc_r; [done|]. by exists c.
  - intros v [->|Hv]%elem_of_add; auto.
  - intros d. rewrite elem_of_add.
    destruct keepRoot; simpl.
    + rewrite elem_of_app, list_elem_of_singleton, HD. tauto.
    + destruct (decide (cur = nodeId)) as [Heq|Hne].
      * rewrite bool_decide_eq_true_2 by done. simpl. rewrite HD.
        split; [tauto|]. intros [[->|?] Hk]; [destruct Hk; congruence | auto].
      * rewrite bool_decide_eq_false_2 by done. simpl.
        rewrite elem_of_app, list_elem_of_singleton, HD.
        split; [intros [?| ->]; tauto | tauto].
  - intros v c [->|Hv]%elem_of_add Hstep.
    + destruct (decide (c ∈ JSSet.add cur visited)) as [?|Hc]; [by left|].
      right. apply elem_of_pushChildren. right. split; [done|].
      destruct Hstep as (n & Hn & Hp & Hid). exists n.
      split; [|done]. by apply elem_of_childrenOf.
    + destruct (HC v c Hv Hstep) as [?|[->|?]%elem_of_cons].
      * left. apply elem_of_add. auto.
      * left. apply elem_of_add. auto.
      * right. apply elem_of_pushChildren. auto.
  - destruct HA as [?|[->|?]%elem_of_cons].
    + left. apply elem_of_add. auto.
    + left. apply elem_of_add. auto.
    + right. apply elem_of_pushChildren. auto.
  - destruct (keepRoot || negb (bool_decide (cur = nodeId))); [|done].
    apply NoDup_app. split_and!; [done| |apply NoDup_singleton].
    intros d Hd ->%list_elem_of_singleton. apply HD in Hd as [? _]. done.
Qed.

(** When the stack is empty the visited ids are exactly the start node and
    what is reachable from it. *)
Lemma loopInv_final visited descendants d :
  inv [] visited descendants →
  d ∈ descendants ↔
  rtc (childStep nodes) nodeId d ∧ (keepRoot = true ∨ d ≠ nodeId).
Proof.
  intros (HS & HV & HD & HC & HA & HN). rewrite HD.
  assert (∀ x, rtc (childStep nodes) nodeId x → x ∈ visited) as Hclosed.
  { apply (rtc_ind_r (R:=childStep nodes) (λ x, x ∈ visited)).
    - destruct HA as [?|?%elem_of_nil]; done.
    - intros y z _ Hstep IH.
      destruct (HC y z IH Hstep) as [?|?%elem_of_nil]; done. }
  split; intros [? ?]; split; auto.
Qed.

Lemma getDescendantsLoop_spec fuel stack visited descendants ds :
  getDescendantsLoop fuel nodes keepRoot nodeId stack visited descendants
    = Some ds →
  inv stack visited descendants →
  NoDup ds ∧
  ∀ d, d ∈ ds ↔
       rtc (childStep nodes) nodeId d ∧ (keepRoot = true ∨ d ≠ nodeId).
Proof.
  revert stack visited descendants.
  induction fuel as [|fuel IH]; intros stack visited descendants; [done|].
  simpl. destruct stack as [|cur stack].
  - intros [= <-] Hinv. split; [apply Hinv|].
    intros d. by apply loopInv_final with visited.
  - destruct (JSSet.has visited cur) eqn:E; intros Hrun Hinv.
    + apply has_true in E. eapply IH; [done|]. by eapply loopInv_skip.
    + apply has_false in E. eapply IH; [done|]. by apply loopInv_visit.
Qed.

End DescendantsLoop.

(** ** Selection engine *)

Lemma Chunked_getDescendants_run nodes nodeId :
  getDescendantsLoop (loopFuel nodes) nodes false nodeId [nodeId] JSSet.empty []
  = Some (Chunked.getDescendants nodes nodeId).
Proof.
  unfold Chunked.getDescendants.
  by destruct (getDescendantsLoop_returns nodes false nodeId) as [ds ->].
Qed.

Lemma Bridge_getDescendants_run nodes nodeId :
  getDescendantsLoop (loopFuel nodes) nodes true nodeId [nodeId] JSSet.empty []
  = Some (Bridge.getDescendants nodes nodeId).
Proof.
  unfold Bridge.getDescendants.
  by destruct (getDescendantsLoop_returns nodes true nodeId) as [ds ->].
Qed.

Lemma Chunked_getDescendants_elem nodes nodeId d :
  d ∈ Chunked.getDescendants nodes nodeId ↔ reachable nodes nodeId d ∧ d ≠ nodeId.
Proof.
  pose proof (Chunked_getDescendants_run nodes nodeId) as Hrun.
  apply getDescendantsLoop_spec in Hrun as [_ Hds]; [|apply loopInv_init].
  rewrite Hds, rtc_tc. unfold reachable.
  split; [intros [[?|?] [?|?]]; done | intros [? ?]; auto].
Qed.

Lemma Bridge_getDescendants_elem nodes nodeId d :
  d ∈ Bridge.getDescendants nodes nodeId ↔ d = nodeId ∨ reachable nodes nodeId d.
Proof.
  pose proof (Bridge_getDescendants_run nodes nodeId) as Hrun.
  apply getDescendantsLoop_spec in Hrun as [_ Hds]; [|apply loopInv_init].
  rewrite Hds, rtc_tc. unfold reachable.
  split; [intros [[?|?] _]; auto | intros [?|?]; auto].
Qed.

Lemma getDescendants_NoDup nodes nodeId :
  NoDup (Chunked.getDescendants nodes nodeId) ∧
  NoDup (Bridge.getDescendants nodes nodeId).
Proof.
  split.
  - pose proof (Chunked_getDescendants_run nodes nodeId) as Hrun.
    apply getDescendantsLoop_spec in Hrun as [? _]; [done|apply loopInv_init].
  - pose proof (Bridge_getDescendants_run nodes nodeId) as Hrun.
    apply getDescendantsLoop_spec in Hrun as [? _]; [done|apply loopInv_init].
Qed.

(** *** [getDescendantIds] of the nested-children variant *)

Lemma Tree_size_children node :
  Tree.size node = S (Tree.sizes (Tree.children node)).
Proof.
  destruct node as [i lb p lv cs]. reflexivity.
Qed.

Lemma Tree_sizes_app l1 l2 :
  Tree.sizes (l1 ++ l2) = Tree.sizes l1 + Tree.sizes l2.
Proof. induction l1 as [|c l1 IH]; simpl; [done|]. rewrite IH. lia. Qed.

Lemma Tree_loop_total fuel queue descendantIds :
  Tree.sizes queue < fuel →
  is_Some (Tree.getDescendantIdsLoop fuel queue descendantIds).
Proof.
  revert queue descendantIds.
  induction fuel as [|fuel IH]; intros queue descendantIds Hlt; [lia|].
  simpl. destruct queue as [|cur queue]; [by eexists|].
  apply IH. rewrite Tree_sizes_app. simpl in Hlt.
  rewrite Tree_size_children in Hlt. lia.
Qed.

Lemma Tree_loop_spec fuel queue descendantIds ds :
  Tree.getDescendantIdsLoop fuel queue descendantIds = Some ds →
  ∀ d, d ∈ ds ↔
       d ∈ descendantIds ∨
       ∃ q x, q ∈ queue ∧ rtc treeChild q x ∧ Tree.id x = d.
Proof.
  revert queue descendantIds.
  induction fuel as [|fuel IH]; intros queue descendantIds; [done|].
  simpl. destruct queue as [|cur queue].
  - intros [= <-] d. split; [auto|].
    intros [?|(q & x & ?%elem_of_nil & _)]; done.
  - intros Hrun d. rewrite (IH _ _ Hrun), elem_of_app, list_elem_of_singleton.
    split.
    + intros [[?| ->]|(q & x & [Hq|Hq]%elem_of_app & Hx & Hid)].
      * by left.
      * right. exists cur, cur. split_and!; [by left|done..].
      * right. exists q, x. split_and!; [by right|done..].
      * right. exists cur, x. split_and!; [by left| |done].
        by eapply rtc_l.
    + intros [?|(q & x & [->|Hq]%elem_of_cons & Hx & Hid)].
      * auto.
      * apply rtc_inv in Hx as [->|(c & Hc & Hx)]; [auto|].
        right. exists c, x. split_and!; [|done..].
        apply elem_of_app. by right.
      * right. exists q, x. split_and!; [|done..].
        apply elem_of_app. by left.
Qed.

Lemma Tree_getDescendantIds_run node :
  Tree.getDescendantIdsLoop (S (Tree.sizes (Tree.children node)))
                            (Tree.children node) []
  = Some (Tree.getDescendantIds node).
Proof.
  unfold Tree.getDescendantIds.
  destruct (Tree_loop_total (S (Tree.sizes (Tree.children node)))
              (Tree.children node) []) as [ds ->]; [lia|done].
Qed.

Lemma Tree_getDescendantIds_elem node d :
  d ∈ Tree.getDescendantIds node ↔ ∃ x, tc treeChild node x ∧ Tree.id x = d.
Proof.
  rewrite (Tree_loop_spec _ _ _ _ (Tree_getDescendantIds_run node)). split.
  - intros [?%elem_of_nil|(q & x & Hq & Hx & Hid)]; [done|].
    exists x. split; [|done]. eapply tc_rtc_r; [|done]. by apply tc_once.
  - intros (x & Hx & Hid). right. inversion Hx as [? ? Hc|? q ? Hc Hqx]; subst.
    + exists x, x. done.
    + exists q, x. split_and!; [done| |done]. by apply tc_rtc.
Qed.

(** C3 (amended). For every record set and every id, the loop of
    [getDescendants] returns, and what it returns has no repetition and
    holds exactly the ids reachable from [nodeId] through the children
    relation: without [nodeId] itself in the chunk-loading variant, and
    together with [nodeId] itself in the single-CSV variant.  In the
    nested-children variant the loop of [getDescendantIds] returns, and what
    it returns holds exactly the ids of the nodes below [node]. *)
Theorem getDescendants_exact nodes nodeId (node : Tree.HPONode) :
  (getDescendantsLoop (loopFuel nodes) nodes false nodeId [nodeId] JSSet.empty []
     = Some (Chunked.getDescendants nodes nodeId) ∧
   NoDup (Chunked.getDescendants nodes nodeId) ∧
   ∀ d, d ∈ Chunked.getDescendants nodes nodeId ↔
        reachable nodes nodeId d ∧ d ≠ nodeId) ∧
  (getDescendantsLoop (loopFuel nodes) nodes true nodeId [nodeId] JSSet.empty []
     = Some (Bridge.getDescendants nodes nodeId) ∧
   NoDup (Bridge.getDescendants nodes nodeId) ∧
   ∀ d, d ∈ Bridge.getDescendants nodes nodeId ↔
        d = nodeId ∨ reachable nodes nodeId d) ∧
  (Tree.getDescendantIdsLoop (S (Tree.sizes (Tree.children node)))
                             (Tree.children node) []
     = Some (Tree.getDescendantIds node) ∧
   ∀ d, d ∈ Tree.getDescendantIds node ↔
        ∃ x, tc treeChild node x ∧ Tree.id x = d).
Proof.
  pose proof (getDescendants_NoDup nodes nodeId) as [? ?].
  split_and!; try done.
  - apply Chunked_getDescendants_run.
  - apply Chunked_getDescendants_elem.
  - apply Bridge_getDescendants_run.
  - apply Bridge_getDescendants_elem.
  - apply Tree_getDescendantIds_run.
  - apply Tree_getDescendantIds_elem.
Qed.

Lemma Chunked_select_elem nodes il sel node d :
  d ∈ (Chunked.handleNodeSelect nodes il sel node true).1 ↔
  d = id node ∨ d ∈ sel ∨ d ∈ Chunked.getDescendants nodes (id node).
Proof. simpl. by rewrite elem_of_add, elem_of_foldl_add. Qed.

Lemma Chunked_deselect_elem nodes il sel node d :
  d ∈ (Chunked.handleNodeSelect nodes il sel node false).1 ↔
  d ≠ id node ∧ d ∈ sel ∧ d ∉ Chunked.getDescendants nodes (id node).
Proof. simpl. by rewrite elem_of_delete, elem_of_foldl_delete. Qed.

Lemma Bridge_select_elem nodes il sel node d :
  d ∈ (Bridge.handleNodeSelect nodes il sel node true).1 ↔
  d ∈ sel ∨ d ∈ Bridge.getDescendants nodes (id node).
Proof. simpl. by rewrite elem_of_foldl_add. Qed.

Lemma Bridge_deselect_elem nodes il sel node d :
  d ∈ (Bridge.handleNodeSelect nodes il sel node false).1 ↔
  d ∈ sel ∧ d ∉ Bridge.getDescendants nodes (id node).
Proof. simpl. by rewrite elem_of_foldl_delete. Qed.

(** C1. In both variants of [HPOPlugin.tsx]: whatever was toggled before,
    after [handleNodeSelect(N, true)] the node [N] and every id of
    [getDescendants(N.id)] are selected; and whatever is toggled in between,
    after a later [handleNodeSelect(N, false)] none of them is. *)
Theorem select_deselect_roundtrip nodes il sel before between node :
  (Forall (λ d, isNodeSelected
                  (Chunked.handleNodeSelect nodes il
                     (runToggles (Chunked.handleNodeSelect nodes il) before sel)
                     node true).1 d = true)
          (id node :: Chunked.getDescendants nodes (id node)) ∧
   Forall (λ d, isNodeSelected
                  (Chunked.handleNodeSelect nodes il
                     (runToggles (Chunked.handleNodeSelect nodes il) between
                        (Chunked.handleNodeSelect nodes il
                           (runToggles (Chunked.handleNodeSelect nodes il)
                                       before sel)
                           node true).1)
                     node false).1 d = false)
          (id node :: Chunked.getDescendants nodes (id node))) ∧
  (Forall (λ d, isNodeSelected
                  (Bridge.handleNodeSelect nodes il
                     (runToggles (Bridge.handleNodeSelect nodes il) before sel)
                     node true).1 d = true)
          (id node :: Bridge.getDescendants nodes (id node)) ∧
   Forall (λ d, isNodeSelected
                  (Bridge.handleNodeSelect nodes il
                     (runToggles (Bridge.handleNodeSelect nodes il) between
                        (Bridge.handleNodeSelect nodes il
                           (runToggles (Bridge.handleNodeSelect nodes il)
                                       before sel)
                           node true).1)
                     node false).1 d = false)
          (id node :: Bridge.getDescendants nodes (id node))).
Proof.
  unfold isNodeSelected. split_and!; apply Forall_forall; intros d Hd.
  - apply has_true, Chunked_select_elem.
    apply elem_of_cons in Hd as [->|?]; auto.
  - apply has_false. rewrite Chunked_deselect_elem.
    apply elem_of_cons in Hd as [->|?]; tauto.
  - apply has_true, Bridge_select_elem. right.
    apply elem_of_cons in Hd as [->|?]; [|done].
    apply Bridge_getDescendants_elem. auto.
  - apply has_false. rewrite Bridge_deselect_elem.
    assert (d ∈ Bridge.getDescendants nodes (id node)); [|tauto].
    apply elem_of_cons in Hd as [->|?]; [|done].
    apply Bridge_getDescendants_elem. auto.
Qed.

(** Counting the selected ids of a list: some but not all. *)
Lemma some_not_all (p : string → bool) (ds : list string) :
  (0 <? length (List.filter p ds)) && (length (List.filter p ds) <? length ds)
  = true ↔
  ds ≠ [] ∧ Exists (λ d, p d = true) ds ∧ ¬ Forall (λ d, p d = true) ds.
Proof.
  rewrite andb_true_iff, !Nat.ltb_lt.
  assert (0 < length (List.filter p ds) ↔ Exists (λ d, p d = true) ds) as ->.
  { induction ds as [|d ds IH]; simpl.
    - rewrite Exists_nil. lia.
    - rewrite Exists_cons. destruct (p d); simpl; [|rewrite IH]; intuition (done || lia). }
  assert (length (List.filter p ds) < length ds ↔ ¬ Forall (λ d, p d = true) ds)
    as ->.
  { induction ds as [|d ds IH]; simpl.
    - split; [lia|]. intros H. destruct H. constructor.
    - rewrite Forall_cons. pose proof (List.filter_length_le p ds).
      destruct (p d); simpl.
      + rewrite <- Nat.succ_lt_mono, IH. tauto.
      + split; [|lia]. intros _ [? _]. done. }
  split; [|tauto]. intros [He Hf]. split_and!; [|done|done].
  intros ->. by apply Exists_nil in He.
Qed.







(** ** Output adapter *)

Lemma find_id_Some nodes i n :
  List.find (λ n, bool_decide (id n = i)) nodes = Some n → n ∈ nodes ∧ id n = i.
Proof.
  intros H. apply List.find_some in H as [Hin Hid].
  apply bool_decide_eq_true in Hid. by apply list_elem_of_In in Hin.
Qed.

Lemma find_id_is_Some nodes i :
  (∃ n, n ∈ nodes ∧ id n = i) →
  is_Some (List.find (λ n, bool_decide (id n = i)) nodes).
Proof.
  intros (n & Hin & Hid).
  destruct (List.find (λ n, bool_decide (id n = i)) nodes) eqn:E; [by eexists|].
  apply list_elem_of_In in Hin.
  pose proof (List.find_none _ _ E n Hin) as Hn. simpl in Hn.
  by rewrite bool_decide_eq_true_2 in Hn.
Qed.

Lemma selectedTerms_cons nodes i sel :
  selectedTerms nodes (i :: sel) =
  match List.find (λ n, bool_decide (id n = i)) nodes with
  | Some n => formatTerm n :: selectedTerms nodes sel
  | None => selectedTerms nodes sel
  end.
Proof.
  unfold selectedTerms. simpl.
  by destruct (List.find (λ n, bool_decide (id n = i)) nodes).
Qed.

Lemma selectedTerms_known nodes sel :
  (∀ i, i ∈ sel → ∃ n, n ∈ nodes ∧ id n = i) →
  ∃ recs, Forall2 (λ i n, n ∈ nodes ∧ id n = i) sel recs ∧
          selectedTerms nodes sel = formatTerm <$> recs.
Proof.
  induction sel as [|i sel IH]; intros Hknown.
  - exists []. split; [constructor|done].
  - destruct IH as (recs & Hrecs & Heq).
    { intros j Hj. apply Hknown. by right. }
    destruct (find_id_is_Some nodes i) as [n Hn]; [apply Hknown; by left|].
    exists (n :: recs). split.
    + constructor; [by apply find_id_Some|done].
    + rewrite selectedTerms_cons, Hn, Heq. done.
Qed.

(** C7. When every id of the new selection is the id of a record, the value
    that [handleNodeSelect] writes (both variants, iframe loaded) is the
    list of ["{id} - {name}"], one per selected id in the iteration order of
    the selection, joined by single commas; for an empty selection it is the
    empty string. *)
Theorem filterValue_format nodes newSelected :
  (∀ i, i ∈ newSelected → ∃ n, n ∈ nodes ∧ id n = i) →
  (∀ sel node checked,
     (Chunked.handleNodeSelect nodes true sel node checked).2
       = Some (filterValue nodes
                 (Chunked.handleNodeSelect nodes true sel node checked).1) ∧
     (Bridge.handleNodeSelect nodes true sel node checked).2
       = Some (filterValue nodes
                 (Bridge.handleNodeSelect nodes true sel node checked).1)) ∧
  (∃ recs, Forall2 (λ i n, n ∈ nodes ∧ id n = i) newSelected recs ∧
           filterValue nodes newSelected =
           Js.join "," ((λ n, id n +:+ " - " +:+ name n) <$> recs)) ∧
  filterValue nodes [] = "".
Proof.
  intros Hknown. split_and!; try done.
  destruct (selectedTerms_known nodes newSelected Hknown) as (recs & Hrecs & Heq).
  exists recs. split; [done|]. unfold filterValue. rewrite Heq.
  destruct recs; done.
Qed.

(** C7, on scenario 1 of the specification: selecting the root of [family]
    from the empty selection. *)
Lemma filterValue_format_witness :
  (Chunked.handleNodeSelect Examples.family true [] Examples.rootA true).1
    = ["HP:3"; "HP:2"; "HP:1"] ∧
  (Chunked.handleNodeSelect Examples.family true [] Examples.rootA true).2
    = Some "HP:3 - ChildB,HP:2 - ChildA,HP:1 - RootA" ∧
  ∃ recs,
    Forall2 (λ i n, n ∈ Examples.family ∧ id n = i) ["HP:3"; "HP:2"; "HP:1"] recs ∧
    filterValue Examples.family ["HP:3"; "HP:2"; "HP:1"] =
    Js.join "," ((λ n, id n +:+ " - " +:+ name n) <$> recs).
Proof.
  destruct (filterValue_format Examples.family ["HP:3"; "HP:2"; "HP:1"])
    as (Hw & Hrecs & _).
  - intros i Hi. unfold Examples.family.
    repeat (apply elem_of_cons in Hi as [->|Hi];
            [first [ exists Examples.rootA; split; [|reflexivity]
                   | exists Examples.childA; split; [|reflexivity]
                   | exists Examples.childB; split; [|reflexivity] ];
             rewrite !elem_of_cons; auto|]).
    by apply elem_of_nil in Hi.
  - split_and!; [reflexivity| |exact Hrecs].
    destruct (Hw [] Examples.rootA true) as [-> _]. reflexivity.
Defined.

(** ** The traversals of [visibleNodes] *)

Lemma forEachM_ext {A S : Type} (f g : A → S → option S) l s :
  (∀ x s', f x s' = g x s') → forEachM f l s = forEachM g l s.
Proof.
  intros Hfg. revert s. induction l as [|x l IH]; intros s; simpl; [done|].
  rewrite Hfg. destruct (g x s); auto.
Qed.

(** What holds of [traverse] in every setting. *)
Section Traversal.
Variables (nodes : list HPONode) (emit opened enter : HPONode → bool).

Local Abbreviation walk := (traverse nodes emit opened enter).
Local Abbreviation grew := (grown nodes emit opened enter).
Local Abbreviation todo := (unvisited nodes).

Lemma grown_refl st : grew st st.
Proof.
  exists []. split_and!; auto.
  - by rewrite app_nil_r.
  - intros n ?%elem_of_nil. done.
  - constructor.
  - intros p c ?%elem_of_nil. done.
Qed.

Lemma grown_trans st1 st2 st3 : grew st1 st2 → grew st2 st3 → grew st1 st3.
Proof.
  intros (new1 & Hr1 & Hm1 & Hn1 & Hd1 & Hv1 & Hc1)
         (new2 & Hr2 & Hm2 & Hn2 & Hd2 & Hv2 & Hc2).
  exists (new1 ++ new2). split_and!.
  - by rewrite Hr2, Hr1, app_assoc.
  - auto.
  - intros n [Hn|Hn]%elem_of_app.
    + destruct (Hn1 n Hn) as (? & ? & ? & ?). auto.
    + destruct (Hn2 n Hn) as (? & ? & ? & ?). split_and!; auto.
  - rewrite fmap_app. apply NoDup_app. split_and!; [done| |done].
    intros x (n1 & -> & Hin1)%list_elem_of_fmap (n2 & Heq & Hin2)%list_elem_of_fmap.
    destruct (Hn1 n1 Hin1) as (_ & _ & _ & Hin).
    destruct (Hn2 n2 Hin2) as (_ & _ & Hnot & _).
    apply Hnot. by rewrite <- Heq.
  - intros x Hx. destruct (Hv2 x Hx) as [Hx2|(n & ? & ? & Hn)].
    + destruct (Hv1 x Hx2) as [?|(n & ? & ? & Hn)]; [by left|].
      right. exists n. split_and!; [done..|]. intros ?. apply elem_of_app. auto.
    + right. exists n. split_and!; [done..|]. intros ?. apply elem_of_app. auto.
  - intros p c [Hp|Hp]%elem_of_app; eauto.
Qed.

Lemma grown_incl st st' x : grew st st' → x ∈ st.1 → x ∈ st'.1.
Proof. intros (new & _ & Hm & _). apply Hm. Qed.

Lemma forEachM_grown (f : HPONode → ViewState → option ViewState)
  (g : HPONode → bool) l st st' :
  (∀ x s s', x ∈ l → f x s = Some s' → grew s s' ∧ (g x = true → id x ∈ s'.1)) →
  forEachM f l st = Some st' →
  grew st st' ∧ ∀ x, x ∈ l → g x = true → id x ∈ st'.1.
Proof.
  revert st. induction l as [|x l IH]; intros st Hf; simpl.
  - intros [= <-]. split; [apply grown_refl|]. intros x ?%elem_of_nil. done.
  - destruct (f x st) as [s1|] eqn:E; [|done]. intros Hrun.
    destruct (Hf x st s1) as [Hg1 Hx1]; [by left|done|].
    destruct (IH s1) as [Hg2 Hl]; [|done|].
    { intros y s s' Hy. apply Hf. by right. }
    split; [by eapply grown_trans|].
    intros y [->|Hy]%elem_of_cons Hgy; [|by apply Hl].
    eapply grown_incl; [done|]. by apply Hx1.
Qed.

Lemma traverse_grown fuel node st st' :
  node ∈ nodes →
  walk fuel node st = Some st' →
  grew st st' ∧ id node ∈ st'.1.
Proof.
  revert node st st'.
  induction fuel as [|fuel IH]; intros node [visited result] st' Hnode; [done|].
  simpl. destruct (JSSet.has visited (id node)) eqn:Ev.
  { intros [= <-]. apply has_true in Ev. split; [apply grown_refl|done]. }
  apply has_false in Ev.
  assert (id node ∈ JSSet.add (id node) visited) as Hadd
    by (apply elem_of_add; auto).
  destruct (emit node) eqn:Ee; [destruct (opened node) eqn:Eo|].
  - intros Hrun.
    apply (forEachM_grown _ enter) in Hrun as [Hg Hkids].
    2:{ intros c s s' Hc. apply elem_of_childrenOf in Hc as [Hc _].
        destruct (enter c) eqn:Ec.
        - intros Hc'. apply IH in Hc' as [? ?]; auto.
        - intros [= <-]. split; [apply grown_refl|done]. }
    destruct Hg as (new & Hr & Hm & Hn & Hd & Hv & Hc). simpl in *.
    split; [|by apply Hm].
    exists (node :: new). simpl. split_and!.
    + by rewrite Hr, <- app_assoc.
    + intros x Hx. apply Hm, elem_of_add. auto.
    + intros n [->|Hin]%elem_of_cons.
      * split_and!; auto.
      * destruct (Hn n Hin) as (? & ? & Hnot & ?). split_and!; auto.
        intros ?. apply Hnot, elem_of_add. auto.
    + apply NoDup_cons. split; [|done].
      intros (n & Heq & Hin)%list_elem_of_fmap.
      destruct (Hn n Hin) as (_ & _ & Hnot & _). apply Hnot. by rewrite <- Heq.
    + intros x Hx. destruct (Hv x Hx) as [[->|?]%elem_of_add|(n & ? & ? & Hin)].
      * right. exists node. split_and!; [done..|]. intros _. by left.
      * by left.
      * right. exists n. split_and!; [done..|]. intros ?. right. auto.
    + intros p c [->|Hp]%elem_of_cons; eauto.
  - intros [= <-]. simpl. split; [|done].
    exists [node]. simpl. split_and!.
    + done.
    + intros x Hx. apply elem_of_add. auto.
    + intros n ->%list_elem_of_singleton. auto.
    + apply NoDup_singleton.
    + intros x [->|?]%elem_of_add; [|by left].
      right. exists node. split_and!; [done..|]. intros _. by left.
    + intros p c ->%list_elem_of_singleton. congruence.
  - intros [= <-]. simpl. split; [|done].
    exists []. simpl. split_and!.
    + by rewrite app_nil_r.
    + intros x Hx. apply elem_of_add. auto.
    + intros n ?%elem_of_nil. done.
    + constructor.
    + intros x [->|?]%elem_of_add; [|by left].
      right. exists node. split_and!; [done..|]. congruence.
    + intros p c ?%elem_of_nil. done.
Qed.

Lemma unvisited_le visited : todo visited ≤ length nodes.
Proof. apply length_filter. Qed.

Lemma unvisited_mono visited visited' :
  (∀ x, x ∈ visited → x ∈ visited') → todo visited' ≤ todo visited.
Proof.
  intros Hsub. unfold unvisited.
  induction nodes as [|n l IH]; [done|].
  rewrite !filter_cons.
  destruct (decide (id n ∉ visited')) as [Hn'|Hn'].
  - rewrite decide_True by auto. simpl. lia.
  - destruct (decide (id n ∉ visited)); simpl; lia.
Qed.

Lemma unvisited_add visited node :
  node ∈ nodes → id node ∉ visited →
  todo (JSSet.add (id node) visited) < todo visited.
Proof.
  intros Hin Hnot. unfold unvisited.
  induction nodes as [|n l IH]; [by apply elem_of_nil in Hin|].
  rewrite !filter_cons.
  assert (length (filter (λ n, id n ∉ JSSet.add (id node) visited) l)
          ≤ length (filter (λ n, id n ∉ visited) l)) as Hle.
  { clear. induction l as [|m l IH]; [done|]. rewrite !filter_cons.
    destruct (decide (id m ∉ JSSet.add (id node) visited)) as [Hm|Hm].
    - rewrite decide_True; [simpl; lia|].
      intros ?. apply Hm, elem_of_add. auto.
    - destruct (decide (id m ∉ visited)); simpl; lia. }
  apply elem_of_cons in Hin as [<-|Hin].
  - rewrite decide_False, decide_True by (rewrite ?elem_of_add; auto).
    simpl. lia.
  - specialize (IH Hin).
    destruct (decide (id n ∉ JSSet.add (id node) visited)) as [Hn|Hn].
    + rewrite decide_True; [simpl; lia|].
      intros ?. apply Hn, elem_of_add. auto.
    + destruct (decide (id n ∉ visited)); simpl; lia.
Qed.

Lemma traverse_total fuel node st :
  node ∈ nodes → todo st.1 < fuel → is_Some (walk fuel node st).
Proof.
  revert node st.
  induction fuel as [|fuel IH]; intros node [visited result] Hnode Hlt; [lia|].
  simpl in *. destruct (JSSet.has visited (id node)) eqn:Ev; [by eexists|].
  apply has_false in Ev.
  destruct (emit node); [destruct (opened node)|]; [|by eexists..].
  pose proof (unvisited_add visited node Hnode Ev) as Hdec.
  assert (∀ l st1, (∀ c, c ∈ l → c ∈ nodes) → todo st1.1 < fuel →
            is_Some (forEachM (λ child st',
                                 if enter child then walk fuel child st'
                                 else Some st') l st1)) as Hloop.
  { induction l as [|c l IHl]; intros st1 Hl Hst1; simpl; [by eexists|].
    assert (c ∈ nodes) as Hc by (apply Hl; by left).
    assert (∀ s2, grew st1 s2 →
              is_Some (forEachM (λ child st',
                                   if enter child then walk fuel child st'
                                   else Some st') l s2)) as Hrest.
    { intros s2 Hg. apply IHl; [intros; apply Hl; by right|].
      eapply Nat.le_lt_trans; [|exact Hst1].
      apply unvisited_mono. intros x. by apply grown_incl. }
    destruct (enter c).
    - destruct (IH c st1 Hc Hst1) as [s2 Hs2]. rewrite Hs2.
      apply Hrest. by apply traverse_grown in Hs2 as [? _].
    - apply Hrest, grown_refl. }
  apply Hloop; [|simpl; lia].
  intros c [? _]%elem_of_childrenOf. done.
Qed.

(** The [forEach] over the roots. *)
Lemma forEachM_traverse_total fuel l st :
  (∀ c, c ∈ l → c ∈ nodes) → todo st.1 < fuel →
  is_Some (forEachM (walk fuel) l st).
Proof.
  revert st. induction l as [|c l IHl]; intros st Hl Hst; simpl; [by eexists|].
  destruct (traverse_total fuel c st) as [s2 Hs2]; [apply Hl; by left|done|].
  rewrite Hs2. apply IHl; [intros; apply Hl; by right|].
  apply traverse_grown in Hs2 as [Hg _]; [|apply Hl; by left].
  eapply Nat.le_lt_trans; [|exact Hst].
  apply unvisited_mono. intros x. by apply grown_incl.
Qed.

Lemma forEachM_traverse_grown fuel l st st' :
  (∀ c, c ∈ l → c ∈ nodes) →
  forEachM (walk fuel) l st = Some st' →
  grew st st' ∧ ∀ c, c ∈ l → id c ∈ st'.1.
Proof.
  intros Hl Hrun.
  apply (forEachM_grown _ (λ _, true)) in Hrun as [Hg Hall].
  - split; [done|]. intros c Hc. by apply Hall.
  - intros c s s' Hc Hs. apply traverse_grown in Hs as [? ?]; auto.
Qed.

End Traversal.

Lemma addNode_traverse fuel nodes expandedNodes node st :
  addNode fuel nodes expandedNodes node st =
  traverse nodes (λ _, true) (λ n, JSSet.has expandedNodes (id n)) (λ _, true)
           fuel node st.
Proof.
  revert node st. induction fuel as [|fuel IH]; intros node [visited result];
    simpl; [done|].
  destruct (JSSet.has visited (id node)); [done|].
  destruct (JSSet.has expandedNodes (id node)); [|done].
  apply forEachM_ext. intros child st'. apply IH.
Qed.

Lemma addNodeAndChildren_traverse fuel nodes matchingNodes ancestorNodes node st :
  addNodeAndChildren fuel nodes matchingNodes ancestorNodes node st =
  traverse nodes (included matchingNodes ancestorNodes) (λ _, true)
           (included matchingNodes ancestorNodes) fuel node st.
Proof.
  revert node st. induction fuel as [|fuel IH]; intros node [visited result];
    simpl; [done|].
  destruct (JSSet.has visited (id node)); [done|].
  destruct (included matchingNodes ancestorNodes node); [|done].
  apply forEachM_ext. intros child st'.
  destruct (included matchingNodes ancestorNodes child); [apply IH|done].
Qed.

(** The two branches of [visibleNodes], each as a loop over the roots. *)
Lemma visibleNodes_plain fuel nodes expandedNodes :
  visibleNodes fuel nodes expandedNodes "" =
  snd <$> forEachM (traverse nodes (λ _, true)
                             (λ n, JSSet.has expandedNodes (id n)) (λ _, true)
                             (depthFuel nodes))
                   (childrenOf nodes None) (JSSet.empty, []).
Proof.
  unfold visibleNodes. rewrite bool_decide_eq_true_2 by done. cbn [negb].
  f_equal. apply forEachM_ext. intros. apply addNode_traverse.
Qed.

Lemma visibleNodes_search fuel nodes expandedNodes term :
  term ≠ "" →
  visibleNodes fuel nodes expandedNodes term =
  match collectMatches fuel nodes (Js.toLowerCase term) with
  | Some (matchingNodes, ancestorNodes) =>
    snd <$> forEachM (traverse nodes (included matchingNodes ancestorNodes)
                               (λ _, true)
                               (included matchingNodes ancestorNodes)
                               (depthFuel nodes))
                     (childrenOf nodes None) (JSSet.empty, [])
  | None => None
  end.
Proof.
  intros Hterm. unfold visibleNodes.
  rewrite bool_decide_eq_false_2 by done. cbn [negb].
  destruct (collectMatches fuel nodes (Js.toLowerCase term)) as [[M A]|]; [|done].
  f_equal. apply forEachM_ext. intros. apply addNodeAndChildren_traverse.
Qed.

Lemma roots_in_nodes nodes c : c ∈ childrenOf nodes None → c ∈ nodes.
Proof. by intros [? _]%elem_of_childrenOf. Qed.

(** The loop over the roots returns, and its result is a repetition-free
    list of records that were to be emitted. *)
Lemma roots_loop nodes emit opened enter :
  ∃ visited result,
    forEachM (traverse nodes emit opened enter (depthFuel nodes))
             (childrenOf nodes None) (JSSet.empty, []) = Some (visited, result) ∧
    grown nodes emit opened enter (JSSet.empty, []) (visited, result) ∧
    ∀ c, c ∈ childrenOf nodes None → id c ∈ visited.
Proof.
  destruct (forEachM_traverse_total nodes emit opened enter (depthFuel nodes)
              (childrenOf nodes None) (JSSet.empty, []))
    as [[visited result] Hrun].
  - apply roots_in_nodes.
  - unfold depthFuel. pose proof (unvisited_le nodes JSSet.empty). simpl. lia.
  - exists visited, result. split; [done|].
    apply forEachM_traverse_grown in Hrun; [done|apply roots_in_nodes].
Qed.

Lemma grown_from_empty nodes emit opened enter visited result :
  grown nodes emit opened enter (JSSet.empty, []) (visited, result) →
  NoDup (id <$> result) ∧
  ∀ n, n ∈ result → n ∈ nodes ∧ emit n = true.
Proof.
  intros (new & Hr & _ & Hn & Hd & _). simpl in Hr. subst result.
  split; [done|]. intros n Hin. destruct (Hn n Hin) as (? & ? & _). done.
Qed.

(** What [visibleNodes] returns is the [result] of a loop over the roots
    that starts from the empty state. *)
Lemma visibleNodes_Some fuel nodes expandedNodes term l :
  visibleNodes fuel nodes expandedNodes term = Some l →
  ∃ emit opened enter visited,
    grown nodes emit opened enter (JSSet.empty, []) (visited, l).
Proof.
  intros Hrun. destruct (decide (term = "")) as [->|Hterm].
  - rewrite visibleNodes_plain in Hrun.
    destruct (roots_loop nodes (λ _, true)
                (λ n, JSSet.has expandedNodes (id n)) (λ _, true))
      as (v & r & Hr & Hg & _).
    rewrite Hr in Hrun. injection Hrun as <-. eauto.
  - rewrite visibleNodes_search in Hrun by done.
    destruct (collectMatches fuel nodes (Js.toLowerCase term)) as [[M A]|];
      [|done].
    destruct (roots_loop nodes (included M A) (λ _, true) (included M A))
      as (v & r & Hr & Hg & _).
    rewrite Hr in Hrun. injection Hrun as <-. eauto.
Qed.

(** C10. Whenever [visibleNodes] returns, in plain or in search mode, no id
    occurs twice in the list and every element is a record of the record
    set.  In plain mode it returns for every record set and expansion set;
    in search mode it returns as soon as the ancestor walks of the first
    pass do. *)
Theorem visibleNodes_distinct_records fuel nodes expandedNodes term :
  (∀ l, visibleNodes fuel nodes expandedNodes term = Some l →
        NoDup (id <$> l) ∧ ∀ n, n ∈ l → n ∈ nodes) ∧
  is_Some (visibleNodes fuel nodes expandedNodes "") ∧
  (is_Some (collectMatches fuel nodes (Js.toLowerCase term)) →
   is_Some (visibleNodes fuel nodes expandedNodes term)).
Proof.
  split_and!.
  - intros l (emit & opened & enter & v & Hg)%visibleNodes_Some.
    apply grown_from_empty in Hg as [? Hg]. split; [done|].
    intros n Hn. by apply Hg.
  - rewrite visibleNodes_plain.
    destruct (roots_loop nodes (λ _, true)
                (λ n, JSSet.has expandedNodes (id n)) (λ _, true))
      as (v & r & -> & _). by eexists.
  - intros [[M A] Hc]. destruct (decide (term = "")) as [->|Hterm].
    + rewrite visibleNodes_plain.
      destruct (roots_loop nodes (λ _, true)
                  (λ n, JSSet.has expandedNodes (id n)) (λ _, true))
        as (v & r & -> & _). by eexists.
    + rewrite visibleNodes_search, Hc by done.
      destruct (roots_loop nodes (included M A) (λ _, true) (included M A))
        as (v & r & -> & _). by eexists.
Qed.

(** C10, on scenario 3 of the specification (search) and on its plain view
    with the root expanded. *)
Lemma visibleNodes_distinct_records_witness :
  (NoDup (id <$> [Examples.rootA; Examples.childA]) ∧
   ∀ n, n ∈ [Examples.rootA; Examples.childA] → n ∈ Examples.family) ∧
  (NoDup (id <$> Examples.family) ∧
   ∀ n, n ∈ Examples.family → n ∈ Examples.family).
Proof.
  split.
  - apply (visibleNodes_distinct_records 3 Examples.family [] "childa").
    reflexivity.
  - apply (visibleNodes_distinct_records 0 Examples.family ["HP:1"] "").
    reflexivity.
Defined.

(** ** The ancestor walk *)

Lemma ancestorWalk_spec fuel byId cur acc acc' :
  ancestorWalk fuel byId cur acc = Some acc' →
  ∀ x, x ∈ acc' ↔ x ∈ acc ∨ onChain byId cur x.
Proof.
  revert cur acc. induction fuel as [|fuel IH]; intros cur acc; [done|].
  simpl. destruct (parent_id cur) as [p|] eqn:Hp.
  - destruct (decide (p = "")) as [->|Hne].
    + rewrite bool_decide_eq_true_2 by done. intros [= <-] x.
      split; [auto|]. intros [?|Hc]; [done|].
      inversion Hc; congruence.
    + rewrite bool_decide_eq_false_2 by done.
      destruct (byId !! p) as [parent|] eqn:Hl.
      * intros Hrun x. rewrite (IH _ _ Hrun), elem_of_add. split.
        -- intros [[->|?]|?]; [right; by constructor|by left|].
           right. by eapply onChain_up.
        -- intros [?|Hc]; [auto|]. inversion Hc; simplify_eq; auto.
      * intros [= <-] x. rewrite elem_of_add. split.
        -- intros [->|?]; [right; by constructor|by left].
        -- intros [?|Hc]; [auto|]. inversion Hc; simplify_eq; auto.
  - intros [= <-] x. split; [auto|]. intros [?|Hc]; [done|].
    inversion Hc; congruence.
Qed.

(** The first pass of search mode, when it returns. *)
Lemma collectMatches_spec fuel nodes searchLower matchingNodes ancestorNodes :
  collectMatches fuel nodes searchLower = Some (matchingNodes, ancestorNodes) →
  (∀ x, x ∈ matchingNodes ↔
        ∃ n, n ∈ nodes ∧ matchesSearch searchLower n = true ∧ id n = x) ∧
  (∀ x, x ∈ ancestorNodes ↔
        ∃ n, n ∈ nodes ∧ matchesSearch searchLower n = true ∧
             onChain (nodesById nodes) n x).
Proof.
  unfold collectMatches. generalize (nodesById nodes) as byId. intros byId.
  assert (∀ l M0 A0 M A,
            forEachM (λ node '(matchingNodes, ancestorNodes),
                        if matchesSearch searchLower node then
                          match ancestorWalk fuel byId node ancestorNodes with
                          | Some ancestorNodes' =>
                            Some (JSSet.add (id node) matchingNodes, ancestorNodes')
                          | None => None
                          end
                        else Some (matchingNodes, ancestorNodes))
                     l (M0, A0) = Some (M, A) →
            (∀ x, x ∈ M ↔ x ∈ M0 ∨
                  ∃ n, n ∈ l ∧ matchesSearch searchLower n = true ∧ id n = x) ∧
            (∀ x, x ∈ A ↔ x ∈ A0 ∨
                  ∃ n, n ∈ l ∧ matchesSearch searchLower n = true ∧
                       onChain byId n x)) as Hgen.
  { induction l as [|n l IH]; intros M0 A0 M A; simpl.
    - intros [= <- <-]. split; intros x; (split; [auto|]);
        intros [?|(n & ?%elem_of_nil & _)]; done.
    - destruct (matchesSearch searchLower n) eqn:Em.
      + destruct (ancestorWalk fuel byId n A0) as [A1|] eqn:Ew; [|done].
        intros [HM HA]%IH. pose proof (ancestorWalk_spec _ _ _ _ _ Ew) as HA1.
        split; intros x.
        * rewrite HM, elem_of_add. split.
          -- intros [[->|?]|(m & ? & ? & ?)]; [|by left|].
             ++ right. exists n. split_and!; [by left|done..].
             ++ right. exists m. split_and!; [by right|done..].
          -- intros [?|(m & [->|?]%elem_of_cons & ? & ?)]; [auto|auto|].
             right. by exists m.
        * rewrite HA, HA1. split.
          -- intros [[?|?]|(m & ? & ? & ?)]; [by left| |].
             ++ right. exists n. split_and!; [by left|done..].
             ++ right. exists m. split_and!; [by right|done..].
          -- intros [?|(m & [->|?]%elem_of_cons & ? & ?)]; [auto|auto|].
             right. by exists m.
      + intros [HM HA]%IH. split; intros x.
        * rewrite HM. split.
          -- intros [?|(m & ? & ? & ?)]; [by left|].
             right. exists m. split_and!; [by right|done..].
          -- intros [?|(m & [->|?]%elem_of_cons & ? & ?)]; [auto|congruence|].
             right. by exists m.
        * rewrite HA. split.
          -- intros [?|(m & ? & ? & ?)]; [by left|].
             right. exists m. split_and!; [by right|done..].
          -- intros [?|(m & [->|?]%elem_of_cons & ? & ?)]; [auto|congruence|].
             right. by exists m. }
  intros [HM HA]%Hgen. unfold JSSet.empty in *.
  split; intros x; [rewrite HM|rewrite HA]; rewrite elem_of_nil; tauto.
Qed.

(** *** A parent cycle *)

Lemma cyclic_lookup :
  nodesById Examples.cyclic !! "A" = Some Examples.cycleA ∧
  nodesById Examples.cyclic !! "B" = Some Examples.cycleB.
Proof. split_and!; reflexivity. Qed.

(** On the cycle the walk never leaves the loop: no amount of fuel lets it
    return. *)
Lemma ancestorWalk_cyclic fuel acc :
  ancestorWalk fuel (nodesById Examples.cyclic) Examples.cycleA acc = None ∧
  ancestorWalk fuel (nodesById Examples.cyclic) Examples.cycleB acc = None.
Proof.
  destruct cyclic_lookup as [HA HB].
  revert acc. induction fuel as [|fuel IH]; intros acc; [done|].
  split.
  - change (ancestorWalk (S fuel) (nodesById Examples.cyclic) Examples.cycleA acc)
      with (match nodesById Examples.cyclic !! "B" with
            | Some parent =>
              ancestorWalk fuel (nodesById Examples.cyclic) parent
                           (JSSet.add "B" acc)
            | None => Some (JSSet.add "B" acc)
            end).
    rewrite HB. apply IH.
  - change (ancestorWalk (S fuel) (nodesById Examples.cyclic) Examples.cycleB acc)
      with (match nodesById Examples.cyclic !! "A" with
            | Some parent =>
              ancestorWalk fuel (nodesById Examples.cyclic) parent
                           (JSSet.add "A" acc)
            | None => Some (JSSet.add "A" acc)
            end).
    rewrite HA. apply IH.
Qed.

(** C5, at the record set where A's parent is B and B's parent is A, with
    the search term "a": [getDescendants] returns in both variants, but
    neither [visibleNodes] nor the auto-expand effect returns, whatever the
    fuel. *)
Theorem ancestor_walk_cycle_diverges fuel :
  Chunked.getDescendants Examples.cyclic "A" = ["B"] ∧
  Bridge.getDescendants Examples.cyclic "A" = ["A"; "B"] ∧
  visibleNodes fuel Examples.cyclic [] "a" = None ∧
  autoExpand fuel Examples.cyclic "a" = None.
Proof.
  split_and!; [reflexivity..| |].
  - unfold visibleNodes, collectMatches.
    rewrite bool_decide_eq_false_2 by done. cbn [negb].
    unfold Examples.cyclic at 2. cbn [forEachM].
    change (matchesSearch (Js.toLowerCase "a") Examples.cycleA) with true.
    cbv iota. by destruct (ancestorWalk_cyclic fuel JSSet.empty) as [-> _].
  - unfold autoExpand.
    rewrite bool_decide_eq_false_2 by done. cbn [negb].
    unfold Examples.cyclic at 2. cbn [forEachM].
    change (matchesSearch (Js.toLowerCase "a") Examples.cycleA) with true.
    cbv iota. by destruct (ancestorWalk_cyclic fuel JSSet.empty) as [-> _].
Qed.

(** ** Search mode on well-formed record sets *)

Lemma unique_record nodes n n' :
  NoDup (id <$> nodes) → n ∈ nodes → n' ∈ nodes → id n = id n' → n = n'.
Proof.
  intros Hnd Hn Hn' Heq.
  pose proof (nodesById_unique nodes n Hnd Hn) as H1.
  pose proof (nodesById_unique nodes n' Hnd Hn') as H2.
  rewrite Heq in H1. congruence.
Qed.

Lemma onChain_properAncestor nodes m x a :
  onChain (nodesById nodes) m x → m ∈ nodes → a ∈ nodes → id a = x →
  properAncestor nodes a m.
Proof.
  intros Hc. revert a. induction Hc as [cur p Hp Hne|cur p parent x Hp Hne Hl Hc IH];
    intros a Hcur Ha Hid.
  - apply tc_once. unfold parentOf. subst p. done.
  - apply nodesById_Some in Hl as [Hparent Hidp].
    eapply tc_r; [by apply IH|]. unfold parentOf. subst p. done.
Qed.

Lemma properAncestor_onChain nodes a m :
  NoDup (id <$> nodes) → (∀ n, n ∈ nodes → parent_id n ≠ Some "") →
  properAncestor nodes a m → onChain (nodesById nodes) m (id a).
Proof.
  intros Hnd Hne Hanc. revert m Hanc.
  apply (tc_ind_r (R:=parentOf nodes) (λ m, onChain (nodesById nodes) m (id a))).
  - intros m (Ha & Hm & Hp). apply onChain_parent; [done|].
    intros Heq. apply (Hne m Hm). by rewrite Hp, Heq.
  - intros b m _ (Hb & Hm & Hp) IH.
    eapply onChain_up; [done| |by apply nodesById_unique|done].
    intros Heq. apply (Hne m Hm). by rewrite Hp, Heq.
Qed.

(** With unique ids, a node that search mode includes is relevant. *)
Lemma included_is_relevant fuel nodes searchLower matchingNodes ancestorNodes n :
  NoDup (id <$> nodes) →
  collectMatches fuel nodes searchLower = Some (matchingNodes, ancestorNodes) →
  n ∈ nodes →
  included matchingNodes ancestorNodes n = true → relevant nodes searchLower n.
Proof.
  intros Hnd [HM HA]%collectMatches_spec Hn.
  unfold included, relevant. rewrite orb_true_iff, !has_true, HM, HA.
  intros [(n' & Hn' & Hm & Hid)|(m & Hm & Hmatch & Hc)].
  - left. by rewrite <- (unique_record nodes n' n Hnd Hn' Hn Hid).
  - right. exists m. split_and!; [done..|].
    by eapply onChain_properAncestor.
Qed.

(** On a well-formed record set the nodes that search mode includes are the
    relevant ones. *)
Lemma included_relevant fuel nodes searchLower matchingNodes ancestorNodes n :
  NoDup (id <$> nodes) → (∀ n, n ∈ nodes → parent_id n ≠ Some "") →
  collectMatches fuel nodes searchLower = Some (matchingNodes, ancestorNodes) →
  n ∈ nodes →
  included matchingNodes ancestorNodes n = true ↔ relevant nodes searchLower n.
Proof.
  intros Hnd Hne Hcoll Hn. split; [by eapply included_is_relevant|].
  apply collectMatches_spec in Hcoll as [HM HA].
  unfold included, relevant. rewrite orb_true_iff, !has_true, HM, HA.
  intros [Hm|(m & Hm & Hmatch & Hanc)].
  - left. by exists n.
  - right. exists m. split_and!; [done..|].
    by apply properAncestor_onChain.
Qed.

(** X24. Search mode on any record set with unique ids: whatever the list
    holds is a record that matches or a proper ancestor of one that does. *)
Lemma visibleNodes_search_sound fuel nodes expandedNodes term l n :
  NoDup (id <$> nodes) → term ≠ "" →
  visibleNodes fuel nodes expandedNodes term = Some l →
  n ∈ l → n ∈ nodes ∧ relevant nodes (Js.toLowerCase term) n.
Proof.
  intros Hnd Hterm Hrun Hn. rewrite visibleNodes_search in Hrun by done.
  destruct (collectMatches fuel nodes (Js.toLowerCase term)) as [[M A]|] eqn:Hc;
    [|done].
  destruct (roots_loop nodes (included M A) (λ _, true) (included M A))
    as (v & r & Hr & Hg & _).
  rewrite Hr in Hrun. injection Hrun as <-.
  apply grown_from_empty in Hg as [_ Hg]. destruct (Hg n Hn) as [Hin He].
  split; [done|]. by eapply included_is_relevant.
Qed.

Lemma relevant_parent nodes searchLower p n :
  parentOf nodes p n → relevant nodes searchLower n → relevant nodes searchLower p.
Proof.
  intros Hp [Hm|(m & Hm & Hmatch & Hanc)]; right.
  - exists n. split_and!; [apply Hp|done|by apply tc_once].
  - exists m. split_and!; [done..|]. by eapply tc_l.
Qed.

Lemma ancestorWalk_total nodes n :
  NoDup (id <$> nodes) → rooted nodes n →
  ∃ k, ∀ fuel acc, k < fuel →
       is_Some (ancestorWalk fuel (nodesById nodes) n acc).
Proof.
  intros Hnd Hr. induction Hr as [n Hp|n p Hin Hp Hr [k IH]].
  - exists 0. intros [|fuel] acc Hlt; [lia|]. simpl. rewrite Hp. by eexists.
  - exists (S k). intros [|fuel] acc Hlt; [lia|]. simpl. rewrite Hp.
    destruct (bool_decide (id p = "")); [by eexists|].
    rewrite nodesById_unique by done. apply IH. lia.
Qed.

Lemma collect_loop_total nodes searchLower l :
  NoDup (id <$> nodes) → (∀ n, n ∈ l → rooted nodes n) →
  ∃ K, ∀ fuel st, K < fuel →
    is_Some (forEachM (λ node '(matchingNodes, ancestorNodes),
                         if matchesSearch searchLower node then
                           match ancestorWalk fuel (nodesById nodes) node
                                              ancestorNodes with
                           | Some ancestorNodes' =>
                             Some (JSSet.add (id node) matchingNodes,
                                   ancestorNodes')
                           | None => None
                           end
                         else Some (matchingNodes, ancestorNodes))
                      l st).
Proof.
  intros Hnd. induction l as [|n l IH]; intros Hr.
  - exists 0. intros fuel st _. by eexists.
  - destruct IH as [K IH]; [intros; apply Hr; by right|].
    destruct (ancestorWalk_total nodes n Hnd) as [k Hk]; [apply Hr; by left|].
    exists (K `max` k). intros fuel [M A] Hlt. simpl.
    destruct (matchesSearch searchLower n).
    + destruct (Hk fuel A) as [A' ->]; [lia|]. apply IH. lia.
    + apply IH. lia.
Qed.

Lemma collectMatches_total nodes searchLower :
  NoDup (id <$> nodes) → (∀ n, n ∈ nodes → rooted nodes n) →
  ∃ K, ∀ fuel, K < fuel → is_Some (collectMatches fuel nodes searchLower).
Proof.
  intros Hnd Hr.
  destruct (collect_loop_total nodes searchLower nodes Hnd Hr) as [K HK].
  exists K. intros fuel Hlt. by apply HK.
Qed.

(** On a well-formed record set every relevant record is emitted. *)
Lemma search_complete nodes matchingNodes ancestorNodes searchLower visited result :
  wellFormed nodes →
  (∀ n, n ∈ nodes →
        included matchingNodes ancestorNodes n = true ↔ relevant nodes searchLower n) →
  grown nodes (included matchingNodes ancestorNodes) (λ _, true)
        (included matchingNodes ancestorNodes) (JSSet.empty, []) (visited, result) →
  (∀ c, c ∈ childrenOf nodes None → id c ∈ visited) →
  ∀ n, n ∈ nodes → relevant nodes searchLower n → n ∈ result.
Proof.
  intros (Hnd & Hne & Hrooted) Hincl (new & Hr & _ & _ & _ & Hv & Hc) Hroots.
  simpl in *. subst new.
  assert (∀ n, n ∈ nodes → relevant nodes searchLower n → id n ∈ visited →
               n ∈ result) as Hmarked.
  { intros n Hn Hrel Hin. destruct (Hv _ Hin) as [?%elem_of_nil|(n' & Hn' & Hid & He)];
      [done|].
    rewrite (unique_record nodes n' n Hnd Hn' Hn Hid) in He.
    apply He. by apply Hincl. }
  intros n Hn. specialize (Hrooted n Hn).
  induction Hrooted as [n Hp|n p Hpin Hp Hrp IH]; intros Hrel.
  - apply Hmarked; [done..|]. apply Hroots. by apply elem_of_childrenOf.
  - assert (relevant nodes searchLower p) as Hrelp.
    { eapply relevant_parent; [|done]. by unfold parentOf. }
    apply Hmarked; [done..|].
    apply (Hc p n); [by apply IH|done| |by apply Hincl].
    by apply elem_of_childrenOf.
Qed.

(** X23. Search mode on a well-formed record set: with enough fuel for the
    ancestor walks, [visibleNodes] returns, and the list holds each relevant
    record (each match and each proper ancestor of a match) once, and
    nothing else. *)
Theorem visibleNodes_search_wellFormed nodes expandedNodes term :
  wellFormed nodes → term ≠ "" →
  ∃ K, ∀ fuel, K < fuel →
    ∃ l, visibleNodes fuel nodes expandedNodes term = Some l ∧
         NoDup (id <$> l) ∧
         ∀ n, n ∈ l ↔ n ∈ nodes ∧ relevant nodes (Js.toLowerCase term) n.
Proof.
  intros Hwf Hterm. pose proof Hwf as (Hnd & Hne & Hrooted).
  destruct (collectMatches_total nodes (Js.toLowerCase term) Hnd Hrooted)
    as [K HK].
  exists K. intros fuel Hlt. destruct (HK fuel Hlt) as [[M A] Hcoll].
  rewrite visibleNodes_search, Hcoll by done.
  destruct (roots_loop nodes (included M A) (λ _, true) (included M A))
    as (v & r & -> & Hg & Hroots).
  exists r. split; [done|].
  pose proof (grown_from_empty _ _ _ _ _ _ Hg) as [Hd Hin].
  split; [done|]. intros n. split.
  - intros Hn. destruct (Hin n Hn) as [Hnn He]. split; [done|].
    by eapply included_relevant.
  - intros [Hn Hrel]. eapply search_complete; try done.
    intros n' Hn'. by eapply included_relevant.
Qed.

(** Scenario 3 of the specification: the search term "childa" shows the
    root and the matching child. *)
Lemma visibleNodes_search_wellFormed_witness :
  ∃ K, ∀ fuel, K < fuel →
    ∃ l, visibleNodes fuel Examples.family [] "childa" = Some l ∧
         NoDup (id <$> l) ∧
         ∀ n, n ∈ l ↔ n ∈ Examples.family ∧ relevant Examples.family "childa" n.
Proof.
  apply (visibleNodes_search_wellFormed Examples.family [] "childa"); [|done].
  assert (rooted Examples.family Examples.rootA) as Hroot
    by (by apply rooted_root).
  assert (Examples.rootA ∈ Examples.family) as Hin by (by left).
  unfold wellFormed. split_and!.
  - vm_compute. repeat constructor; rewrite ?elem_of_cons, ?elem_of_nil;
      intuition congruence.
  - intros n Hn. unfold Examples.family in Hn.
    repeat (apply elem_of_cons in Hn as [->|Hn]; [done|]).
    by apply elem_of_nil in Hn.
  - intros n Hn. unfold Examples.family in Hn.
    repeat (apply elem_of_cons in Hn as [->|Hn];
            [first [exact Hroot | by eapply rooted_child]|]).
    by apply elem_of_nil in Hn.
Defined.

(** ** Records whose parent is missing *)

(** C2, at a record set with a missing parent: [orphan] is a record, it is
    a proper ancestor of [orphanChild], which matches "childa", and the
    search-mode list is empty as soon as the ancestor walks return. *)
Theorem search_misses_ancestor_under_missing_parent fuel :
  Examples.orphan ∈ Examples.dangling ∧
  Examples.orphanChild ∈ Examples.dangling ∧
  matchesSearch (Js.toLowerCase "childa") Examples.orphanChild = true ∧
  properAncestor Examples.dangling Examples.orphan Examples.orphanChild ∧
  visibleNodes (S (S fuel)) Examples.dangling [] "childa" = Some [].
Proof.
  assert (Examples.orphan ∈ Examples.dangling) by (by left).
  assert (Examples.orphanChild ∈ Examples.dangling) by (right; by left).
  split_and!; [done..| |reflexivity].
  apply tc_once. by unfold parentOf.
Qed.

(** Where the new elements of [result] come from: the node the traversal
    was called on, or the children array of a record. *)
Lemma traverse_origin nodes emit opened enter fuel node st st' :
  node ∈ nodes →
  traverse nodes emit opened enter fuel node st = Some st' →
  ∀ n, n ∈ st'.2 →
       n ∈ st.2 ∨ n = node ∨ ∃ p, p ∈ nodes ∧ parent_id n = Some (id p).
Proof.
  revert node st st'.
  induction fuel as [|fuel IH]; intros node [visited result] st' Hnode; [done|].
  simpl. destruct (JSSet.has visited (id node)); [intros [= <-]; auto|].
  destruct (emit node); [destruct (opened node)|].
  - assert (∀ l s s',
              (∀ c, c ∈ l → c ∈ nodes ∧ parent_id c = Some (id node)) →
              forEachM (λ child st',
                          if enter child
                          then traverse nodes emit opened enter fuel child st'
                          else Some st') l s = Some s' →
              ∀ n, n ∈ s'.2 →
                   n ∈ s.2 ∨ ∃ p, p ∈ nodes ∧ parent_id n = Some (id p))
      as Hloop.
    { induction l as [|c l IHl]; intros s s' Hl; simpl.
      - intros [= <-]. auto.
      - destruct (Hl c) as [Hc Hpc]; [by left|].
        destruct (if enter c then traverse nodes emit opened enter fuel c s
                  else Some s) as [s1|] eqn:E; [|done].
        intros Hrun n Hn.
        assert (n ∈ s1.2 ∨ ∃ p, p ∈ nodes ∧ parent_id n = Some (id p))
          as [Hn1|?]; [|clear IHl|by right].
        { eapply IHl; [intros; apply Hl; by right|exact Hrun|exact Hn]. }
        destruct (enter c).
        + destruct (IH c s s1 Hc E n Hn1) as [?|[->|?]]; eauto.
        + injection E as <-. auto. }
    intros Hrun n Hn.
    destruct (Hloop _ _ _ (λ c Hc, proj1 (elem_of_childrenOf _ _ _) Hc) Hrun n Hn)
      as [[?| ->%list_elem_of_singleton]%elem_of_app|?]; auto.
  - intros [= <-] n [?| ->%list_elem_of_singleton]%elem_of_app; auto.
  - intros [= <-]. auto.
Qed.

Lemma roots_origin nodes emit opened enter fuel l st st' :
  (∀ c, c ∈ l → c ∈ nodes ∧ parent_id c = None) →
  forEachM (traverse nodes emit opened enter fuel) l st = Some st' →
  ∀ n, n ∈ st'.2 →
       n ∈ st.2 ∨ parent_id n = None ∨
       ∃ p, p ∈ nodes ∧ parent_id n = Some (id p).
Proof.
  revert st. induction l as [|c l IHl]; intros st Hl; simpl.
  - intros [= <-]. auto.
  - destruct (Hl c) as [Hc Hpc]; [by left|].
    destruct (traverse nodes emit opened enter fuel c st) as [s1|] eqn:E; [|done].
    intros Hrun n Hn.
    assert (n ∈ s1.2 ∨ parent_id n = None ∨
            ∃ p, p ∈ nodes ∧ parent_id n = Some (id p)) as [Hn1|?]; [| |by right].
    { eapply IHl; [intros; apply Hl; by right|exact Hrun|exact Hn]. }
    destruct (traverse_origin _ _ _ _ _ _ _ _ Hc E n Hn1) as [?|[->|?]]; auto.
Qed.

(** C6, in general: in plain and in search mode, a record whose [parent_id]
    names an id that no record has is never in the list that [visibleNodes]
    returns. *)
Theorem missing_parent_never_visible fuel nodes expandedNodes term l n q :
  visibleNodes fuel nodes expandedNodes term = Some l →
  parent_id n = Some q → (∀ p, p ∈ nodes → id p ≠ q) →
  n ∉ l.
Proof.
  intros Hrun Hq Hmissing Hn.
  assert (∀ emit opened enter visited,
            forEachM (traverse nodes emit opened enter (depthFuel nodes))
                     (childrenOf nodes None) (JSSet.empty, [])
              = Some (visited, l) → False) as Hloop.
  { intros emit opened enter visited Hr.
    destruct (roots_origin _ _ _ _ _ _ _ _
                (λ c Hc, proj1 (elem_of_childrenOf _ _ _) Hc) Hr n Hn)
      as [?%elem_of_nil|[?|(p & Hp & Hpar)]]; [done|congruence|].
    apply (Hmissing p Hp). congruence. }
  destruct (decide (term = "")) as [->|Hterm].
  - rewrite visibleNodes_plain in Hrun.
    destruct (forEachM _ _ _) as [[v r]|] eqn:E; [|done].
    injection Hrun as ->. by eapply Hloop.
  - rewrite visibleNodes_search in Hrun by done.
    destruct (collectMatches _ _ _) as [[M A]|]; [|done].
    destruct (forEachM _ _ _) as [[v r]|] eqn:E; [|done].
    injection Hrun as ->. by eapply Hloop.
Qed.

(** The root selection of the nested-children variant keeps every record
    whose [parentId] is the id of no record. *)
Lemma Tree_nodesMap_None parsed q :
  (∀ p, p ∈ parsed → Tree.id p ≠ q) → Tree.nodesMap parsed !! q = None.
Proof.
  unfold Tree.nodesMap.
  induction parsed as [|node parsed IH] using rev_ind; intros Hq; [done|].
  rewrite foldl_app. simpl. rewrite lookup_insert_ne.
  - apply IH. intros p Hp. apply Hq, elem_of_app. by left.
  - apply Hq, elem_of_app. right. by apply list_elem_of_singleton.
Qed.

Lemma Tree_rootNodes_keeps_missing parsed n q :
  n ∈ parsed → Tree.parentId n = Some q →
  (∀ p, p ∈ parsed → Tree.id p ≠ q) →
  n ∈ Tree.rootNodes parsed.
Proof.
  intros Hn Hq Hmissing. unfold Tree.rootNodes.
  apply list_elem_of_In, List.filter_In. split; [by apply list_elem_of_In|].
  rewrite Hq. destruct (Js.truthy (Some q)); [|done].
  simpl. rewrite Tree_nodesMap_None by done.
  rewrite bool_decide_eq_false_2; [done|]. apply is_Some_None.
Qed.

(** C6, on scenario 5 of the specification: the record whose parent
    "HP:999" is missing is stored under that key and not under [null], and
    it is not in the plain list, whose roots are the records without
    parent; the root selection of the nested-children variant keeps the
    same record. *)
Lemma missing_parent_never_visible_witness :
  childrenOf Examples.familyAndOrphan None = [Examples.rootA] ∧
  childrenOf Examples.familyAndOrphan (Some "HP:999") = [Examples.orphan] ∧
  visibleNodes 0 Examples.familyAndOrphan ["HP:1"] "" = Some Examples.family ∧
  (Examples.orphan ∉ Examples.family) ∧
  Tree.rootNodes Examples.treeParsed
  = [Tree.mkNode "HP:1" "RootA" None (Js.JSNum 0) []; Examples.treeOrphan].
Proof.
  split_and!; [reflexivity..| |reflexivity].
  apply (missing_parent_never_visible 0 Examples.familyAndOrphan ["HP:1"] ""
           Examples.family Examples.orphan "HP:999"); [reflexivity..|].
  intros p Hp. unfold Examples.familyAndOrphan, Examples.family in Hp.
  simpl in Hp.
  repeat (apply elem_of_cons in Hp as [->|Hp]; [done|]).
  by apply elem_of_nil in Hp.
Defined.

(** ** Record normalizer *)

Lemma stripQuotes_truthy v : stripQuotes v ≠ "" → Js.truthy v = true.
Proof.
  destruct v as [s|]; simpl; [|done].
  destruct (bool_decide (s = "")); done.
Qed.

Lemma Chunked_processedNodes_app rows1 rows2 :
  ChunkedLoad.processedNodes (rows1 ++ rows2) =
  ChunkedLoad.processedNodes rows1 ++ ChunkedLoad.processedNodes rows2.
Proof.
  unfold ChunkedLoad.processedNodes. by rewrite List.filter_app, fmap_app.
Qed.

Lemma Tree_parsedNodes_app rows1 rows2 :
  Tree.parsedNodes (rows1 ++ rows2) =
  Tree.parsedNodes rows1 ++ Tree.parsedNodes rows2.
Proof. unfold Tree.parsedNodes. by rewrite List.filter_app, fmap_app. Qed.

(** What the two filter-and-map normalizers do with one row among others. *)
Lemma Chunked_processedNodes_row rows1 row rows2 :
  ChunkedLoad.processedNodes (rows1 ++ row :: rows2) =
  ChunkedLoad.processedNodes rows1 ++
  (if ChunkedLoad.rowFilter row then [ChunkedLoad.rowNode row] else []) ++
  ChunkedLoad.processedNodes rows2.
Proof.
  rewrite Chunked_processedNodes_app. f_equal.
  change (row :: rows2) with ([row] ++ rows2).
  rewrite Chunked_processedNodes_app. f_equal.
  unfold ChunkedLoad.processedNodes. simpl.
  by destruct (ChunkedLoad.rowFilter row).
Qed.

Lemma Tree_parsedNodes_row rows1 row rows2 :
  Tree.parsedNodes (rows1 ++ row :: rows2) =
  Tree.parsedNodes rows1 ++
  (if Tree.rowFilter row then [Tree.rowNode row] else []) ++
  Tree.parsedNodes rows2.
Proof.
  rewrite Tree_parsedNodes_app. f_equal.
  change (row :: rows2) with ([row] ++ rows2).
  rewrite Tree_parsedNodes_app. f_equal.
  unfold Tree.parsedNodes. simpl. by destruct (Tree.rowFilter row).
Qed.

(** C8 (amended). The chunk-loading normalizer keeps the order of the rows;
    it emits the record of a row whose [TERM_ID] and [TERM_FULL_NAME] are
    not empty after trimming and whose [TERM_ID] does not start with "]";
    it drops a row whose [TERM_ID] or [TERM_FULL_NAME] is absent or the
    empty string, and a row whose [TERM_ID] starts with "]".  The normalizer
    of the nested-children variant does the same without the "]" rule. *)
Theorem normalizer_emits_or_drops rows1 row rows2 :
  (stripQuotes (TERM_ID row) ≠ "" ∧ stripQuotes (TERM_FULL_NAME row) ≠ "" ∧
   Js.startsWith (default "" (TERM_ID row)) "]" = false →
   ChunkedLoad.processedNodes (rows1 ++ row :: rows2) =
   ChunkedLoad.processedNodes rows1 ++ ChunkedLoad.rowNode row ::
   ChunkedLoad.processedNodes rows2) ∧
  (Js.truthy (TERM_ID row) = false ∨ Js.truthy (TERM_FULL_NAME row) = false ∨
   Js.startsWith (default "" (TERM_ID row)) "]" = true →
   ChunkedLoad.processedNodes (rows1 ++ row :: rows2) =
   ChunkedLoad.processedNodes rows1 ++ ChunkedLoad.processedNodes rows2) ∧
  (stripQuotes (TERM_ID row) ≠ "" ∧ stripQuotes (TERM_FULL_NAME row) ≠ "" →
   Tree.parsedNodes (rows1 ++ row :: rows2) =
   Tree.parsedNodes rows1 ++ Tree.rowNode row :: Tree.parsedNodes rows2) ∧
  (Js.truthy (TERM_ID row) = false ∨ Js.truthy (TERM_FULL_NAME row) = false →
   Tree.parsedNodes (rows1 ++ row :: rows2) =
   Tree.parsedNodes rows1 ++ Tree.parsedNodes rows2).
Proof.
  rewrite Chunked_processedNodes_row, Tree_parsedNodes_row.
  unfold ChunkedLoad.rowFilter, Tree.rowFilter. split_and!.
  - intros (Hi%stripQuotes_truthy & Hn%stripQuotes_truthy & Hb).
    by rewrite Hi, Hn, Hb.
  - intros [-> | [-> | ->]]; rewrite ?andb_false_r; done.
  - intros (Hi%stripQuotes_truthy & Hn%stripQuotes_truthy).
    by rewrite Hi, Hn.
  - intros [-> | ->]; rewrite ?andb_false_r; done.
Qed.

(** C8 (amended), on a well-formed row, on the row of scenario 4 of the
    specification (empty [TERM_ID]) and on a row whose [TERM_ID] starts
    with "]". *)
Lemma normalizer_emits_or_drops_witness :
  ChunkedLoad.processedNodes [Examples.goodRow] = [Examples.rootA] ∧
  ChunkedLoad.processedNodes [Examples.emptyIdRow] = [] ∧
  ChunkedLoad.processedNodes [Examples.bracketRow] = [].
Proof.
  split_and!.
  - apply (normalizer_emits_or_drops [] Examples.goodRow []). done.
  - apply (normalizer_emits_or_drops [] Examples.emptyIdRow []). by left.
  - apply (normalizer_emits_or_drops [] Examples.bracketRow []). right. by right.
Defined.

(** C8 as stated fails: a row whose fields are not empty after trimming is
    dropped because its [TERM_ID] starts with "]"; and a row whose
    [TERM_ID] is made of quotes only, empty after trimming, is emitted. *)
Lemma normalizer_not_exactly_nonempty :
  (stripQuotes (TERM_ID Examples.bracketRow) ≠ "" ∧
   stripQuotes (TERM_FULL_NAME Examples.bracketRow) ≠ "" ∧
   ChunkedLoad.processedNodes [Examples.bracketRow] = []) ∧
  (stripQuotes (TERM_ID Examples.quotesOnlyRow) = "" ∧
   ChunkedLoad.processedNodes [Examples.quotesOnlyRow]
   = [mkNode "" "RootA" None (Js.JSNum 0) false]).
Proof. split_and!; done. Qed.

(** The single-CSV loader never stores NaN as a level. *)
Lemma Bridge_level_number row n :
  BridgeLoad.rowNode row = Some n → ∃ z, level n = Js.JSNum z.
Proof.
  unfold BridgeLoad.rowNode.
  destruct (Js.truthy (Js.trim <$> TERM_ID row) &&
            Js.truthy (Js.trim <$> TERM_FULL_NAME row)); [|done].
  intros [= <-]. simpl. destruct (Js.parseInt (LEVEL row)); by eexists.
Qed.

(** C9, at a row whose [LEVEL] is "abc": the row is emitted, and the level
    of its record is NaN in the chunk-loading and in the nested-children
    normalizer, while the single-CSV loader stores 0. *)
Theorem level_parse_failure_is_NaN :
  ChunkedLoad.processedNodes [Examples.badLevelRow]
  = [mkNode "HP:1" "RootA" None Js.JSNaN false] ∧
  Tree.parsedNodes [Examples.badLevelRow]
  = [Tree.mkNode "HP:1" "RootA" None Js.JSNaN []] ∧
  BridgeLoad.hpoNodes [Examples.badLevelRow]
  = [mkNode "HP:1" "RootA" None (Js.JSNum 0) false].
Proof. split_and!; reflexivity. Qed.

(** C3 as stated fails on the single-CSV variant: the list holds the start
    node itself. *)
Lemma Bridge_getDescendants_holds_start :
  Bridge.getDescendants Examples.family "HP:1" = ["HP:1"; "HP:3"; "HP:2"] ∧
  Chunked.getDescendants Examples.family "HP:1" = ["HP:3"; "HP:2"] ∧
  Tree.getDescendantIds Examples.treeFamily = ["HP:2"; "HP:3"].
Proof. split_and!; reflexivity. Qed.

(** * Further properties of the components *)

(** ** Selection *)

Lemma foldl_add_present (l : list string) (s : JSSet.t) :
  (∀ i, i ∈ l → i ∈ s) → foldl (λ s i, JSSet.add i s) s l = s.
Proof.
  revert s. induction l as [|i l IH]; intros s Hl; simpl; [done|].
  assert (JSSet.add i s = s) as ->.
  { unfold JSSet.add. rewrite (proj2 (has_true s i)); [done|]. apply Hl. by left. }
  apply IH. intros j Hj. apply Hl. by right.
Qed.

Lemma delete_absent (x : string) (s : list string) :
  x ∉ s → JSSet.delete x s = s.
Proof.
  intros Hx. unfold JSSet.delete, JSSet.t. induction s as [|y s IH]; [done|].
  apply not_elem_of_cons in Hx as [Hne Hx].
  rewrite filter_cons, decide_True by done. by rewrite IH.
Qed.

Lemma foldl_delete_absent (l : list string) (s : JSSet.t) :
  (∀ i, i ∈ l → i ∉ s) → foldl (λ s i, JSSet.delete i s) s l = s.
Proof.
  revert s. induction l as [|i l IH]; intros s Hl; simpl; [done|].
  rewrite delete_absent by (apply Hl; by left).
  apply IH. intros j Hj. apply Hl. by right.
Qed.

(** X1. [handleNodeSelect] touches the node and its descendants only: an id
    that is neither [node.id] nor in [getDescendants(node.id)] is selected
    after the call exactly when it was before, whether the box was checked
    or unchecked (both variants of [HPOPlugin.tsx]). *)
Theorem handleNodeSelect_frame nodes il sel node checked d :
  (d ≠ id node → d ∉ Chunked.getDescendants nodes (id node) →
   isNodeSelected (Chunked.handleNodeSelect nodes il sel node checked).1 d
   = isNodeSelected sel d) ∧
  (d ∉ Bridge.getDescendants nodes (id node) →
   isNodeSelected (Bridge.handleNodeSelect nodes il sel node checked).1 d
   = isNodeSelected sel d).
Proof.
  unfold isNodeSelected, JSSet.has. split.
  - intros Hne Hd. apply bool_decide_ext. destruct checked.
    + rewrite Chunked_select_elem. tauto.
    + rewrite Chunked_deselect_elem. tauto.
  - intros Hd. apply bool_decide_ext. destruct checked.
    + rewrite Bridge_select_elem. tauto.
    + rewrite Bridge_deselect_elem. tauto.
Qed.

(** X1, on scenario 2 of the specification: selecting "HP:2" leaves "HP:3"
    as it was, selected or not. *)
Lemma handleNodeSelect_frame_witness :
  isNodeSelected
    (Chunked.handleNodeSelect Examples.family true ["HP:3"] Examples.childA true).1
    "HP:3" = true ∧
  isNodeSelected
    (Bridge.handleNodeSelect Examples.family true [] Examples.childA true).1
    "HP:3" = false.
Proof.
  split.
  - pose proof (handleNodeSelect_frame Examples.family true ["HP:3"]
                  Examples.childA true "HP:3") as [H1 _].
    rewrite H1; [done|done|]. vm_compute. by intros ?%elem_of_nil.
  - pose proof (handleNodeSelect_frame Examples.family true []
                  Examples.childA true "HP:3") as [_ H2].
    rewrite H2; [done|]. vm_compute.
    intros [?|?%elem_of_nil]%elem_of_cons; done.
Defined.

(** X2. Right after [handleNodeSelect] on a node, checked or unchecked,
    that node is not partially selected: its descendants are all selected
    or all unselected (both variants of [HPOPlugin.tsx]). *)
Theorem toggled_node_not_partial nodes il sel node checked :
  Chunked.isNodePartiallySelected nodes
    (Chunked.handleNodeSelect nodes il sel node checked).1 (id node) = false ∧
  Bridge.isNodePartiallySelected nodes
    (Bridge.handleNodeSelect nodes il sel node checked).1 (id node) = false.
Proof.
  unfold Chunked.isNodePartiallySelected, Bridge.isNodePartiallySelected.
  split; apply not_true_is_false; rewrite some_not_all;
    intros (_ & Hex & Hall); destruct checked.
  - apply Hall, Forall_forall. intros d Hd.
    apply has_true, Chunked_select_elem. auto.
  - apply Exists_exists in Hex as (d & Hd & Hsel).
    apply has_true, Chunked_deselect_elem in Hsel. tauto.
  - apply Hall, Forall_forall. intros d Hd.
    apply has_true, Bridge_select_elem. auto.
  - apply Exists_exists in Hex as (d & Hd & Hsel).
    apply has_true, Bridge_deselect_elem in Hsel. tauto.
Qed.

(** The descendants of a descendant are descendants (or the start node, on
    a cycle). *)
Lemma reachable_trans nodes a d x :
  reachable nodes a d → reachable nodes d x → reachable nodes a x.
Proof. unfold reachable. intros. by etrans. Qed.

(** X3. Checking a box a second time, or checking the box of a descendant
    of a node that was just checked, changes nothing: the selection is the
    same list, in the same order (chunk-loading variant; for the second
    call of the single-CSV variant too). *)
Theorem select_under_selected_is_noop nodes il sel node child :
  id child = id node ∨ id child ∈ Chunked.getDescendants nodes (id node) →
  (Chunked.handleNodeSelect nodes il
     (Chunked.handleNodeSelect nodes il sel node true).1 child true).1
  = (Chunked.handleNodeSelect nodes il sel node true).1 ∧
  (Bridge.handleNodeSelect nodes il
     (Bridge.handleNodeSelect nodes il sel node true).1 node true).1
  = (Bridge.handleNodeSelect nodes il sel node true).1.
Proof.
  intros Hchild. split.
  - set (s1 := (Chunked.handleNodeSelect nodes il sel node true).1).
    assert (∀ i, i = id child ∨ i ∈ Chunked.getDescendants nodes (id child) →
                 i ∈ s1) as Hin.
    { intros i Hi. apply Chunked_select_elem.
      destruct Hchild as [Heq|Hc].
      - rewrite Heq in Hi. tauto.
      - destruct Hi as [->|Hi]; [auto|].
        apply Chunked_getDescendants_elem in Hc as [Hc _].
        apply Chunked_getDescendants_elem in Hi as [Hi _].
        pose proof (reachable_trans _ _ _ _ Hc Hi) as Hr.
        destruct (decide (i = id node)) as [->|Hne]; [auto|].
        right. right. by apply Chunked_getDescendants_elem. }
    change ((Chunked.handleNodeSelect nodes il s1 child true).1)
      with (JSSet.add (id child)
              (foldl (λ s i, JSSet.add i s) s1
                     (Chunked.getDescendants nodes (id child)))).
    rewrite foldl_add_present by auto.
    unfold JSSet.add. rewrite (proj2 (has_true s1 (id child))); auto.
  - set (s1 := (Bridge.handleNodeSelect nodes il sel node true).1).
    change ((Bridge.handleNodeSelect nodes il s1 node true).1)
      with (foldl (λ s i, JSSet.add i s) s1
                  (Bridge.getDescendants nodes (id node))).
    apply foldl_add_present. intros i Hi. apply Bridge_select_elem. auto.
Qed.

(** X3, on scenario 1 of the specification: after the root was checked,
    checking "HP:2" leaves the selection as it is. *)
Lemma select_under_selected_is_noop_witness :
  (Chunked.handleNodeSelect Examples.family true
     (Chunked.handleNodeSelect Examples.family true [] Examples.rootA true).1
     Examples.childA true).1
  = (Chunked.handleNodeSelect Examples.family true [] Examples.rootA true).1 ∧
  (Bridge.handleNodeSelect Examples.family true
     (Bridge.handleNodeSelect Examples.family true [] Examples.rootA true).1
     Examples.rootA true).1
  = (Bridge.handleNodeSelect Examples.family true [] Examples.rootA true).1.
Proof.
  apply (select_under_selected_is_noop Examples.family true []
           Examples.rootA Examples.childA).
  right. vm_compute. right. left.
Defined.

(** ** Expansion *)

(** X4. [toggleExpansion] flips the membership of [nodeId] and of no other
    id; toggling the same node twice gives back a set with the members it
    had. *)
Theorem toggleExpansion_flips expandedNodes nodeId x :
  (JSSet.has (toggleExpansion expandedNodes nodeId) nodeId
   = negb (JSSet.has expandedNodes nodeId)) ∧
  (x ≠ nodeId →
   JSSet.has (toggleExpansion expandedNodes nodeId) x
   = JSSet.has expandedNodes x) ∧
  (JSSet.has (toggleExpansion (toggleExpansion expandedNodes nodeId) nodeId) x
   = JSSet.has expandedNodes x).
Proof.
  assert (∀ s y, JSSet.has (toggleExpansion s nodeId) y
                 = if decide (y = nodeId) then negb (JSSet.has s nodeId)
                   else JSSet.has s y) as Htoggle.
  { intros s y. unfold toggleExpansion.
    destruct (JSSet.has s nodeId) eqn:E; simpl.
    - apply has_true in E. destruct (decide (y = nodeId)) as [->|Hne].
      + apply has_false. rewrite elem_of_delete. tauto.
      + apply bool_decide_ext. rewrite elem_of_delete. tauto.
    - apply has_false in E. destruct (decide (y = nodeId)) as [->|Hne].
      + apply has_true, elem_of_add. auto.
      + apply bool_decide_ext. rewrite elem_of_add. tauto. }
  split_and!.
  - rewrite Htoggle. by rewrite decide_True.
  - intros Hne. rewrite Htoggle. by rewrite decide_False.
  - rewrite !Htoggle. destruct (decide (x = nodeId)) as [->|Hne].
    + rewrite decide_True by done. apply negb_involutive.
    + done.
Qed.

(** ** Output adapter *)

Lemma selectedTerms_app nodes s1 s2 :
  selectedTerms nodes (s1 ++ s2) = selectedTerms nodes s1 ++ selectedTerms nodes s2.
Proof.
  induction s1 as [|i s1 IH]; [done|].
  change ((i :: s1) ++ s2) with (i :: (s1 ++ s2)).
  rewrite !selectedTerms_cons, IH.
  by destruct (List.find (λ n, bool_decide (id n = i)) nodes).
Qed.

(** X5. A selected id that is the id of no record is left out of the value
    written to the host, without any error: the value is the one the rest
    of the selection gives. *)
Theorem filterValue_skips_unknown nodes s1 i s2 :
  (∀ n, n ∈ nodes → id n ≠ i) →
  filterValue nodes (s1 ++ i :: s2) = filterValue nodes (s1 ++ s2).
Proof.
  intros Hunknown. unfold filterValue.
  change (i :: s2) with ([i] ++ s2).
  rewrite !selectedTerms_app, selectedTerms_cons.
  destruct (List.find (λ n, bool_decide (id n = i)) nodes) as [n|] eqn:E; [|done].
  apply find_id_Some in E as [Hn Hid]. by destruct (Hunknown n Hn).
Qed.

(** X5, on the records of scenario 1 and a selection that holds the
    unknown id "HP:9". *)
Lemma filterValue_skips_unknown_witness :
  filterValue Examples.family (["HP:2"] ++ "HP:9" :: ["HP:3"])
  = "HP:2 - ChildA,HP:3 - ChildB".
Proof.
  rewrite (filterValue_skips_unknown Examples.family ["HP:2"] "HP:9" ["HP:3"]);
    [reflexivity|].
  intros n Hn. unfold Examples.family in Hn.
  repeat (apply elem_of_cons in Hn as [->|Hn]; [done|]).
  by apply elem_of_nil in Hn.
Defined.

(** ** Auto-expand *)

Lemma ancestorWalk_returns_any_acc fuel byId cur acc acc' :
  is_Some (ancestorWalk fuel byId cur acc) →
  is_Some (ancestorWalk fuel byId cur acc').
Proof.
  revert cur acc acc'. induction fuel as [|fuel IH]; intros cur acc acc';
    simpl; [by intros [? ?]|].
  destruct (parent_id cur) as [p|]; [|by eexists].
  destruct (bool_decide (p = "")); [by eexists|].
  destruct (byId !! p); [apply IH|by eexists].
Qed.

Lemma autoExpand_loop fuel byId searchLower l M0 A0 E0 M A :
  (∀ x, x ∈ E0 ↔ x ∈ M0 ∨ x ∈ A0) →
  forEachM (λ node '(matchingNodes, ancestorNodes),
              if matchesSearch searchLower node then
                match ancestorWalk fuel byId node ancestorNodes with
                | Some ancestorNodes' =>
                  Some (JSSet.add (id node) matchingNodes, ancestorNodes')
                | None => None
                end
              else Some (matchingNodes, ancestorNodes))
           l (M0, A0) = Some (M, A) →
  ∃ E, forEachM (λ node matches,
                   if matchesSearch searchLower node then
                     JSSet.add (id node) <$> ancestorWalk fuel byId node matches
                   else Some matches)
                l E0 = Some E ∧
       ∀ x, x ∈ E ↔ x ∈ M ∨ x ∈ A.
Proof.
  revert M0 A0 E0. induction l as [|n l IH]; intros M0 A0 E0 Hinv; simpl.
  - intros [= <- <-]. by exists E0.
  - destruct (matchesSearch searchLower n).
    + destruct (ancestorWalk fuel byId n A0) as [A1|] eqn:EA; [|done].
      destruct (ancestorWalk_returns_any_acc fuel byId n A0 E0) as [E1 EE];
        [by eexists|].
      rewrite EE. simpl. apply IH.
      intros x. rewrite !elem_of_add, (ancestorWalk_spec _ _ _ _ _ EA),
        (ancestorWalk_spec _ _ _ _ _ EE), Hinv. tauto.
    + by apply IH.
Qed.

(** X6. The auto-expand effect and the first pass of search mode go
    together: for a non-empty term, whenever the first pass of
    [visibleNodes] returns its sets [matchingNodes] and [ancestorNodes], the
    effect returns too, and the expansion set it installs holds exactly the
    ids of these two sets; for the empty term it installs the empty set. *)
Theorem autoExpand_is_included fuel nodes term matchingNodes ancestorNodes :
  (term ≠ "" →
   collectMatches fuel nodes (Js.toLowerCase term)
     = Some (matchingNodes, ancestorNodes) →
   ∃ expanded, autoExpand fuel nodes term = Some expanded ∧
     ∀ x, x ∈ expanded ↔ x ∈ matchingNodes ∨ x ∈ ancestorNodes) ∧
  autoExpand fuel nodes "" = Some [].
Proof.
  split; [|done]. intros Hterm. unfold autoExpand, collectMatches.
  rewrite bool_decide_eq_false_2 by done. cbn [negb].
  apply autoExpand_loop. intros x. unfold JSSet.empty.
  rewrite elem_of_nil. tauto.
Qed.

(** X6, on scenario 3 of the specification: the term "childa" expands the
    root and the match. *)
Lemma autoExpand_is_included_witness :
  ∃ expanded, autoExpand 3 Examples.family "childa" = Some expanded ∧
    ∀ x, x ∈ expanded ↔ x ∈ ["HP:2"] ∨ x ∈ ["HP:1"].
Proof.
  apply (autoExpand_is_included 3 Examples.family "childa" ["HP:2"] ["HP:1"]);
    [done|reflexivity].
Defined.

(** ** Plain mode *)

Section Justified.
Variables (nodes : list HPONode) (emit opened enter : HPONode → bool).

Local Abbreviation walk' := (traverse nodes emit opened enter).
Local Abbreviation just := (justified nodes opened).

Lemma traverse_justified fuel node st st' :
  node ∈ nodes →
  walk' fuel node st = Some st' →
  just st.2 →
  node ∈ childrenOf nodes None ∨
  (∃ p, p ∈ st.2 ∧ opened p = true ∧ node ∈ childrenOf nodes (Some (id p))) →
  just st'.2.
Proof.
  revert node st st'.
  induction fuel as [|fuel IH]; intros node [visited result] st' Hnode; [done|].
  simpl. destruct (JSSet.has visited (id node)); [by intros [= <-]|].
  destruct (emit node); [|by intros [= <-]].
  destruct (opened node) eqn:Eo.
  2:{ intros [= <-] Hj Hwhy. simpl. by constructor. }
  intros Hrun Hj Hwhy.
  assert (just (result ++ [node])) as Hj1 by by constructor.
  assert (node ∈ result ++ [node]) as Hin1
    by (apply elem_of_app; right; by apply list_elem_of_singleton).
  assert (∀ c, c ∈ childrenOf nodes (Some (id node)) →
               c ∈ childrenOf nodes (Some (id node))) as Hkids by done.
  revert Hrun Hj1 Hin1 Hkids.
  generalize (result ++ [node]) as r1.
  generalize (JSSet.add (id node) visited) as v1.
  generalize (childrenOf nodes (Some (id node))) at 1 2 as kids.
  induction kids as [|c kids IHk]; intros v1 r1; simpl.
  - by intros [= <-].
  - intros Hrun Hj1 Hin1 Hkids.
    assert (c ∈ childrenOf nodes (Some (id node))) as Hc by (apply Hkids; by left).
    assert (c ∈ nodes) as Hcn by by apply elem_of_childrenOf in Hc as [? _].
    destruct (enter c).
    + destruct (walk' fuel c (v1, r1)) as [[v2 r2]|] eqn:Ec; [|done].
      apply (IHk v2 r2); [done| | |].
      * apply (IH c (v1, r1) (v2, r2)); [done..|]. right. by exists node.
      * apply traverse_grown in Ec as [(new & Hr & _) _]; [|done].
        simpl in Hr. rewrite Hr. apply elem_of_app. by left.
      * intros c' Hc'. apply Hkids. by right.
    + apply (IHk v1 r1); [done..|]. intros c' Hc'. apply Hkids. by right.
Qed.

Lemma roots_justified fuel l st st' :
  (∀ c, c ∈ l → c ∈ childrenOf nodes None) →
  forEachM (walk' fuel) l st = Some st' →
  just st.2 → just st'.2.
Proof.
  revert st. induction l as [|c l IH]; intros st Hl; simpl; [by intros [= <-]|].
  destruct (walk' fuel c st) as [s1|] eqn:Ec; [|done]. intros Hrun Hj.
  apply (IH s1); [intros c' ?; apply Hl; by right|done|].
  apply (traverse_justified fuel c st s1); [|done..|left; apply Hl; by left].
  apply roots_in_nodes, Hl. by left.
Qed.

Lemma justified_before l :
  just l →
  ∀ l1 n l2, l = l1 ++ n :: l2 →
    n ∈ childrenOf nodes None ∨
    ∃ p, p ∈ l1 ∧ opened p = true ∧ n ∈ childrenOf nodes (Some (id p)).
Proof.
  induction 1 as [|l x Hj IH Hwhy]; intros l1 n l2 Heq.
  - by destruct l1.
  - destruct l2 as [|y l2 _] using rev_ind.
    + apply app_inj_tail in Heq as [-> ->]. done.
    + change (n :: l2 ++ [y]) with ((n :: l2) ++ [y]) in Heq.
      rewrite app_assoc in Heq. apply app_inj_tail in Heq as [-> _].
      by apply (IH l1 n l2).
Qed.

End Justified.

(** X7. Plain mode (empty search term) always returns. Every record of the
    list is a record without parent, or a child of a listed record whose id
    is in the expansion set, and that parent stands earlier in the list.
    When the ids of the record set are unique the list holds every such
    record: the roots, and below every shown and expanded record its
    children. *)
Theorem visibleNodes_plain_shown fuel nodes expandedNodes :
  ∃ l, visibleNodes fuel nodes expandedNodes "" = Some l ∧
    (∀ n, n ∈ l → shownPlain nodes expandedNodes n) ∧
    (∀ l1 n l2, l = l1 ++ n :: l2 →
       parent_id n = None ∨
       ∃ p, p ∈ l1 ∧ JSSet.has expandedNodes (id p) = true ∧
            parent_id n = Some (id p)) ∧
    (NoDup (id <$> nodes) →
     ∀ n, shownPlain nodes expandedNodes n → n ∈ l).
Proof.
  rewrite visibleNodes_plain.
  destruct (roots_loop nodes (λ _, true)
              (λ n, JSSet.has expandedNodes (id n)) (λ _, true))
    as (visited & result & Hrun & Hgrown & Hroots).
  rewrite Hrun. exists result. split; [done|].
  assert (justified nodes (λ n, JSSet.has expandedNodes (id n)) result) as Hj.
  { eapply (roots_justified nodes _ _ _ _ _ (JSSet.empty, []) (visited, result));
      [|exact Hrun|constructor]. done. }
  split_and!.
  - clear Hrun Hgrown Hroots. induction Hj as [|l x Hj IH Hwhy]; intros n Hn.
    { by apply elem_of_nil in Hn. }
    apply elem_of_app in Hn as [Hn | ->%list_elem_of_singleton]; [by apply IH|].
    destruct Hwhy as [Hr|(p & Hp & Ho & Hc)].
    + apply elem_of_childrenOf in Hr as [? ?]. by apply shown_root.
    + apply elem_of_childrenOf in Hc as [? ?]. apply (shown_child _ _ p); auto.
  - intros l1 n l2 Heq.
    destruct (justified_before _ _ _ Hj l1 n l2 Heq) as [Hr|(p & Hp & Ho & Hc)].
    + left. by apply elem_of_childrenOf in Hr as [_ ?].
    + right. exists p. split_and!; [done..|].
      by apply elem_of_childrenOf in Hc as [_ ?].
  - intros Hnd. destruct Hgrown as (new & Hr & _ & _ & _ & Hv & Hc).
    simpl in *. subst new.
    assert (∀ n, n ∈ nodes → id n ∈ visited → n ∈ result) as Hmarked.
    { intros n Hn Hin.
      destruct (Hv _ Hin) as [?%elem_of_nil|(n' & Hn' & Hid & He)]; [done|].
      rewrite (unique_record nodes n' n Hnd Hn' Hn Hid) in He. by apply He. }
    induction 1 as [n Hn Hp|p n Hsp IH Hexp Hn Hp].
    + apply Hmarked; [done|]. apply Hroots. by apply elem_of_childrenOf.
    + apply Hmarked; [done|]. apply (Hc p n); [done..| |done].
      by apply elem_of_childrenOf.
Qed.

(** ** Hierarchy index *)

Lemma nodesByParent_lookup nodes k :
  nodesByParent nodes !! k =
  match filter (λ n, parent_id n = k) nodes with
  | [] => None
  | l => Some l
  end.
Proof.
  induction nodes as [|node nodes IH] using rev_ind; [done|].
  rewrite nodesByParent_snoc, filter_app, filter_cons, filter_nil.
  destruct (decide (parent_id node = k)) as [->|Hne].
  - rewrite lookup_insert_eq, IH.
    by destruct (filter (λ n, parent_id n = k) nodes).
  - by rewrite lookup_insert_ne, IH, app_nil_r.
Qed.

Lemma nodesById_None nodes i :
  nodesById nodes !! i = None ↔ ∀ n, n ∈ nodes → id n ≠ i.
Proof.
  induction nodes as [|node nodes IH] using rev_ind.
  - split; [by intros _ n ?%elem_of_nil|done].
  - rewrite nodesById_snoc. destruct (decide (id node = i)) as [<-|Hne].
    + rewrite lookup_insert_eq. split; [done|]. intros H. exfalso.
      apply (H node); [|done]. apply elem_of_app. right. by left.
    + rewrite lookup_insert_ne, IH by done. split.
      * intros H n [?| ->%list_elem_of_singleton]%elem_of_app; auto.
      * intros H n Hn. apply H, elem_of_app. auto.
Qed.

(** X8. The two indexes of the record set. [nodesByParent] has a key for
    the [parent_id] values that occur and for no other; the array under a
    key is never empty and holds the records with that [parent_id] in the
    order of the record set, so every record is in the array of its own
    [parent_id] and in no other. [nodesById] has a key for the ids that occur
    and for no other, and gives for an id the last record that has it. *)
Theorem hierarchy_index nodes :
  (∀ k, nodesByParent nodes !! k = None ↔ ∀ n, n ∈ nodes → parent_id n ≠ k) ∧
  (∀ k l, nodesByParent nodes !! k = Some l →
          l ≠ [] ∧ l = filter (λ n, parent_id n = k) nodes) ∧
  (∀ n k, n ∈ childrenOf nodes k ↔ n ∈ nodes ∧ k = parent_id n) ∧
  (∀ i, nodesById nodes !! i = None ↔ ∀ n, n ∈ nodes → id n ≠ i) ∧
  (∀ l1 n l2, nodes = l1 ++ n :: l2 → (∀ m, m ∈ l2 → id m ≠ id n) →
              nodesById nodes !! id n = Some n).
Proof.
  split_and!.
  - intros k. rewrite nodesByParent_lookup.
    destruct (filter (λ n, parent_id n = k) nodes) as [|x l] eqn:E.
    + split; [|done]. intros _ n Hn Hk.
      assert (n ∈ filter (λ n, parent_id n = k) nodes) as Hin
        by by apply list_elem_of_filter.
      rewrite E in Hin. by apply elem_of_nil in Hin.
    + split; [done|]. intros H. exfalso.
      assert (x ∈ filter (λ n, parent_id n = k) nodes) as Hin
        by (rewrite E; by left).
      apply list_elem_of_filter in Hin as [Hk Hx]. by apply (H x).
  - intros k l. rewrite nodesByParent_lookup.
    destruct (filter (λ n, parent_id n = k) nodes); [done|].
    by intros [= <-].
  - intros n k. rewrite elem_of_childrenOf. split; intros [? ?]; auto.
  - apply nodesById_None.
  - intros l1 n l2 -> Hlast.
    induction l2 as [|m l2 IH] using rev_ind.
    + by rewrite nodesById_snoc, lookup_insert_eq.
    + change (n :: l2 ++ [m]) with ((n :: l2) ++ [m]).
      rewrite app_assoc, nodesById_snoc, lookup_insert_ne.
      * apply IH. intros m' Hm'. apply Hlast, elem_of_app. auto.
      * apply Hlast, elem_of_app. right. by left.
Qed.

(** ** The [has_children] pass *)

Section LastIndex.
Context {A : Type} (key : A → string).

Lemma lastIndex_loop_index (l : list A) (m : gmap string nat) (i : nat) :
  (foldl (λ '(map, i) object, (<[key object := i]> map, S i)) (m, i) l).2
  = i + length l.
Proof.
  revert m i. induction l as [|x l IH]; intros m i; simpl; [lia|].
  rewrite IH. lia.
Qed.

Lemma lastIndex_snoc (l : list A) (x : A) :
  lastIndex key (l ++ [x]) = <[key x := length l]> (lastIndex key l).
Proof.
  unfold lastIndex. rewrite foldl_app. simpl.
  pose proof (lastIndex_loop_index l ∅ 0) as Hi.
  destruct (foldl _ _ l) as [m i]. simpl in *. by subst i.
Qed.

(** The map gives for an id the position of the last object that has it. *)
Lemma lastIndex_lookup (objects : list A) p j :
  lastIndex key objects !! p = Some j ↔
  ∃ n, objects !! j = Some n ∧ key n = p ∧
       ∀ k m, j < k → objects !! k = Some m → key m ≠ p.
Proof.
  revert j. induction objects as [|x l IH] using rev_ind; intros j.
  - split; [done|]. by intros (n & Hn & _).
  - rewrite lastIndex_snoc. destruct (decide (key x = p)) as [Hxp|Hxp].
    + rewrite Hxp, lookup_insert_eq. split.
      * intros [= <-]. exists x. split_and!; [|done|].
        { by rewrite lookup_app_r, Nat.sub_diag. }
        intros k m Hk Hm. apply lookup_lt_Some in Hm.
        rewrite length_app in Hm. simpl in Hm. lia.
      * intros (n & Hn & Hid & Hlast). f_equal.
        pose proof (lookup_lt_Some _ _ _ Hn) as Hlt.
        rewrite length_app in Hlt. simpl in Hlt.
        destruct (decide (j = length l)) as [->|Hne]; [done|]. exfalso.
        apply (Hlast (length l) x); [lia| |done].
        by rewrite lookup_app_r, Nat.sub_diag.
    + rewrite lookup_insert_ne, IH by done. split.
      * intros (n & Hn & Hid & Hlast). exists n. split_and!; [|done|].
        { by apply lookup_app_l_Some. }
        intros k m Hk Hm. destruct (decide (k < length l)) as [Hlt|Hge].
        -- rewrite lookup_app_l in Hm by done. by apply (Hlast k).
        -- rewrite lookup_app_r in Hm by lia.
           destruct (k - length l) as [|k'] eqn:Ek; simpl in Hm; [|done].
           by injection Hm as <-.
      * intros (n & Hn & Hid & Hlast).
        assert (j < length l) as Hlt.
        { pose proof (lookup_lt_Some _ _ _ Hn) as Hlt.
          rewrite length_app in Hlt. simpl in Hlt.
          destruct (decide (j = length l)) as [->|Hne]; [|lia].
          rewrite lookup_app_r, Nat.sub_diag in Hn by done.
          simpl in Hn. injection Hn as <-. done. }
        rewrite lookup_app_l in Hn by done.
        exists n. split_and!; [done..|].
        intros k m Hk Hm. apply (Hlast k); [done|].
        by apply lookup_app_l_Some.
Qed.

(** The map has a key exactly for the ids of the objects. *)
Lemma lastIndex_None (objects : list A) p :
  lastIndex key objects !! p = None ↔ ∀ n, n ∈ objects → key n ≠ p.
Proof.
  induction objects as [|x l IH] using rev_ind.
  - split; [by intros _ n ?%elem_of_nil|done].
  - rewrite lastIndex_snoc. destruct (decide (key x = p)) as [<-|Hne].
    + rewrite lookup_insert_eq. split; [done|]. intros H. exfalso.
      apply (H x); [|done]. apply elem_of_app. right. by left.
    + rewrite lookup_insert_ne, IH by done. split.
      * intros H n [?| ->%list_elem_of_singleton]%elem_of_app; auto.
      * intros H n Hn. apply H, elem_of_app. auto.
Qed.

End LastIndex.

Lemma nodesMap_lookup nodes p j :
  nodesMap nodes !! p = Some j ↔
  ∃ n, nodes !! j = Some n ∧ id n = p ∧
       ∀ k m, j < k → nodes !! k = Some m → id m ≠ p.
Proof. apply lastIndex_lookup. Qed.

Lemma setHasChildren_idemp n : setHasChildren (setHasChildren n) = setHasChildren n.
Proof. done. Qed.

(** The object at a position after the loop has run over [l]: flagged when
    some record of [l] names it through [nodesMap], as it was otherwise. *)
Lemma markParents_loop (idx : gmap string nat) (l objects : list HPONode)
  (j : nat) :
  foldl (λ (objects : list HPONode) (node : HPONode),
           if Js.truthy (parent_id node) then
             match idx !! default "" (parent_id node) with
             | Some j => alter setHasChildren j objects
             | None => objects
             end
           else objects)
        objects l !! j =
  (if bool_decide (Exists (λ c, Js.truthy (parent_id c) = true ∧
                                idx !! default "" (parent_id c) = Some j) l)
   then setHasChildren else λ n, n) <$> objects !! j.
Proof.
  revert objects. induction l as [|c l IH]; intros objects; cbn [foldl].
  - rewrite bool_decide_eq_false_2; [by destruct (objects !! j)|].
    by intros ?%Exists_nil.
  - rewrite IH. clear IH.
    set (h := λ c, Js.truthy (parent_id c) = true ∧
                   idx !! default "" (parent_id c) = Some j).
    assert (¬ h c → bool_decide (Exists h (c :: l)) = bool_decide (Exists h l))
      as Hskip.
    { intros Hc. apply bool_decide_ext. rewrite Exists_cons. tauto. }
    destruct (Js.truthy (parent_id c)) eqn:Et;
      [destruct (idx !! default "" (parent_id c)) as [j'|] eqn:El|].
    + destruct (decide (j' = j)) as [->|Hne].
      * rewrite list_lookup_alter, decide_True by done.
        rewrite (bool_decide_eq_true_2 (Exists h (c :: l)))
          by (apply Exists_cons; left; by split).
        destruct (bool_decide (Exists h l)), (objects !! j); done.
      * rewrite list_lookup_alter, decide_False by done. rewrite Hskip; [done|].
        intros [_ ?]. congruence.
    + rewrite Hskip; [done|]. intros [_ ?]. congruence.
    + rewrite Hskip; [done|]. intros [? _]. congruence.
Qed.

Lemma markParents_loop_length (idx : gmap string nat) (l objects : list HPONode) :
  length (foldl (λ (objects : list HPONode) (node : HPONode),
                   if Js.truthy (parent_id node) then
                     match idx !! default "" (parent_id node) with
                     | Some j => alter setHasChildren j objects
                     | None => objects
                     end
                   else objects)
                objects l) = length objects.
Proof.
  revert objects. induction l as [|c l IH]; intros objects; cbn [foldl]; [done|].
  rewrite IH. destruct (Js.truthy (parent_id c)); [|done].
  destruct (idx !! default "" (parent_id c)); [|done].
  apply length_alter.
Qed.

(** The object at a position after the pass. *)
Lemma markParents_lookup nodes j n :
  nodes !! j = Some n →
  ∃ n', markParents nodes !! j = Some n' ∧
    id n' = id n ∧ name n' = name n ∧ parent_id n' = parent_id n ∧
    level n' = level n ∧
    (has_children n' = true ↔
     has_children n = true ∨
     (id n ≠ "" ∧ (∃ c, c ∈ nodes ∧ parent_id c = Some (id n)) ∧
      ∀ k m, j < k → nodes !! k = Some m → id m ≠ id n)).
Proof.
  intros Hj. unfold markParents. rewrite markParents_loop, Hj. simpl.
  destruct (decide (Exists (λ c, Js.truthy (parent_id c) = true ∧
                         nodesMap nodes !! default "" (parent_id c) = Some j)
                      nodes))
    as [Hyes|Hno].
  - rewrite bool_decide_eq_true_2 by done. eexists. split; [done|]. simpl.
    split_and!; [done..|]. split; [|done]. intros _. right.
    apply Exists_exists in Hyes as (c & Hc & Ht & Hl).
    apply nodesMap_lookup in Hl as (n0 & Hn0 & Hid & Hlast).
    assert (n0 = n) as -> by congruence.
    destruct (parent_id c) as [p|] eqn:Hp; [|done]. simpl in *.
    apply negb_true_iff, bool_decide_eq_false in Ht. subst p.
    split_and!; [done| |done]. by exists c.
  - rewrite bool_decide_eq_false_2 by done. exists n. split; [done|].
    split_and!; [done..|]. split; [auto|].
    intros [?|(Hne & (c & Hc & Hp) & Hlast)]; [done|]. exfalso.
    apply Hno, Exists_exists. exists c. rewrite Hp. simpl. split_and!; [done| |].
    + by apply negb_true_iff, bool_decide_eq_false.
    + apply nodesMap_lookup. by exists n.
Qed.

(** X9. The pass that computes [has_children] keeps the number and the
    order of the records and every field but the flag. It sets the flag of
    the object at a position exactly when the flag was set already, or the
    id of the object is not the empty string, some record names this id as
    its [parent_id], and no later record has the same id (with unique ids:
    exactly the records that have a child get the flag). *)
Theorem markParents_spec nodes :
  length (markParents nodes) = length nodes ∧
  ∀ j n, nodes !! j = Some n →
    ∃ n', markParents nodes !! j = Some n' ∧
      id n' = id n ∧ name n' = name n ∧ parent_id n' = parent_id n ∧
      level n' = level n ∧
      (has_children n' = true ↔
       has_children n = true ∨
       (id n ≠ "" ∧ (∃ c, c ∈ nodes ∧ parent_id c = Some (id n)) ∧
        ∀ k m, j < k → nodes !! k = Some m → id m ≠ id n)).
Proof.
  split; [apply markParents_loop_length|]. apply markParents_lookup.
Qed.

(** An object of the array after the [has_children] pass is a record of the
    array before it, up to the flag. *)
Lemma markParents_elem nodes n' :
  n' ∈ markParents nodes →
  ∃ n, n ∈ nodes ∧ id n' = id n ∧ name n' = name n ∧
       parent_id n' = parent_id n ∧ level n' = level n.
Proof.
  intros (j & Hj)%list_elem_of_lookup_1. unfold markParents in Hj.
  rewrite markParents_loop in Hj.
  destruct (nodes !! j) as [n|] eqn:En; [|done]. exists n.
  split; [by apply list_elem_of_lookup_2 in En|].
  simpl in Hj. injection Hj as <-. by case_bool_decide.
Qed.

Lemma markParents_ids nodes : id <$> markParents nodes = id <$> nodes.
Proof.
  apply list_eq. intros j. rewrite !list_lookup_fmap.
  destruct (nodes !! j) as [n|] eqn:Hj.
  - destruct (markParents_lookup nodes j n Hj) as (n' & Hn' & Hid & _).
    rewrite Hn'. simpl. by rewrite Hid.
  - apply lookup_ge_None in Hj.
    rewrite <- (markParents_loop_length (nodesMap nodes) nodes nodes) in Hj.
    apply lookup_ge_None in Hj. unfold markParents. by rewrite Hj.
Qed.

(** After the pass on objects that had no flag, and with unique ids, the
    flag of a node tells whether [nodesByParent] has children for its id. *)
Lemma markParents_flag_index nodes n' :
  (∀ n, n ∈ nodes → has_children n = false) →
  NoDup (id <$> nodes) →
  n' ∈ markParents nodes →
  has_children n' = true ↔
  id n' ≠ "" ∧ childrenOf (markParents nodes) (Some (id n')) ≠ [].
Proof.
  intros Hfalse Hnd (j & Hj')%list_elem_of_lookup_1.
  assert (∀ k, (∃ c, c ∈ markParents nodes ∧ parent_id c = k) ↔
               (∃ c, c ∈ nodes ∧ parent_id c = k)) as Hsame.
  { intros k. split.
    - intros (c & (c0 & Hc0 & _ & _ & Hp & _)%markParents_elem & Hk).
      exists c0. split; [done|congruence].
    - intros (c & (i & Hi)%list_elem_of_lookup_1 & Hk).
      destruct (markParents_lookup nodes i c Hi) as (c' & Hc' & _ & _ & Hp & _).
      exists c'. split; [by apply list_elem_of_lookup_2 in Hc'|congruence]. }
  assert (childrenOf (markParents nodes) (Some (id n')) ≠ [] ↔
          ∃ c, c ∈ nodes ∧ parent_id c = Some (id n')) as ->.
  { rewrite <- Hsame. split.
    - intros Hne. destruct (childrenOf _ _) as [|c l] eqn:E; [done|].
      exists c. apply elem_of_childrenOf. rewrite E. by left.
    - intros (c & Hc) Hnil. apply elem_of_childrenOf in Hc.
      rewrite Hnil in Hc. by apply elem_of_nil in Hc. }
  assert (is_Some (nodes !! j)) as [n Hj].
  { apply lookup_lt_is_Some. apply lookup_lt_Some in Hj'.
    unfold markParents in Hj'.
    by rewrite (markParents_loop_length (nodesMap nodes) nodes nodes) in Hj'. }
  destruct (markParents_lookup nodes j n Hj) as (n0 & Hn0 & Hid & _ & _ & _ & Hflag).
  assert (n0 = n') as -> by congruence.
  rewrite Hflag, Hid, (Hfalse n) by by apply list_elem_of_lookup_2 in Hj.
  split.
  - intros [?|(? & ? & _)]; done.
  - intros [? ?]. right. split_and!; [done..|].
    intros k m Hk Hm Heq.
    assert (j = k); [|lia].
    apply (NoDup_lookup (id <$> nodes) j k (id n)); [done| |].
    + by rewrite list_lookup_fmap, Hj.
    + rewrite list_lookup_fmap, Hm. simpl. by rewrite Heq.
Qed.

(** X25. The flag and the index agree. When the ids of the loaded records
    are unique, [has_children] is set after [fetchData], and after
    [loadHPOData], exactly on the records for whose id [nodesByParent] holds
    children (and whose id is not the empty string): the expand button is
    enabled exactly where expanding shows something. *)
Theorem has_children_agrees_with_index data csvText :
  (NoDup (id <$> fetchData data) →
   ∀ n, n ∈ fetchData data →
     (has_children n = true ↔
      id n ≠ "" ∧ childrenOf (fetchData data) (Some (id n)) ≠ [])) ∧
  (NoDup (id <$> loadHPOData csvText) →
   ∀ n, n ∈ loadHPOData csvText →
     (has_children n = true ↔
      id n ≠ "" ∧ childrenOf (loadHPOData csvText) (Some (id n)) ≠ [])).
Proof.
  split; intros Hnd n Hn.
  - unfold fetchData in *. rewrite markParents_ids in Hnd.
    apply markParents_flag_index; [|done..].
    unfold ChunkedLoad.processedNodes.
    by intros n0 (row & -> & _)%list_elem_of_fmap.
  - unfold loadHPOData in *. rewrite markParents_ids in Hnd.
    apply markParents_flag_index; [|done..].
    unfold BridgeLoad.hpoNodes.
    intros n0 (row & _ & Hrow)%list_elem_of_omap.
    unfold BridgeLoad.rowNode in Hrow.
    destruct (_ && _); [|done]. by injection Hrow as <-.
Qed.

(** ** The CSV line parser *)

Lemma append_assoc (a b c : string) : (a +:+ b) +:+ c = a +:+ (b +:+ c).
Proof.
  induction a as [|x a IH]; [done|].
  change (String x ((a +:+ b) +:+ c) = String x (a +:+ (b +:+ c))).
  by f_equal.
Qed.

Lemma append_nil_r (a : string) : a +:+ "" = a.
Proof.
  induction a as [|x a IH]; [done|].
  change (String x (a +:+ "") = String x a). by f_equal.
Qed.

Lemma Line_loop_app a b st :
  Line.loop (a +:+ b) st = Line.loop b (Line.loop a st).
Proof. revert st. induction a as [|c a IH]; intros st; simpl; [done|]. apply IH. Qed.

(** A run of characters without quote or bracket, and without comma unless
    between quotes, is appended to [current]. *)
Lemma Line_loop_body f st :
  allChars quotedChar f = true →
  Line.inQuotes st = true ∨ allChars plainChar f = true →
  Line.loop f st =
  Line.mk (Line.values st) (Line.current st +:+ f) (Line.inQuotes st)
          (Line.bracketDepth st).
Proof.
  revert st. induction f as [|c f IH]; intros st; simpl.
  - intros _ _. rewrite append_nil_r. by destruct st.
  - intros [Hc Hf]%andb_true_iff Hq. rewrite IH; [|done|].
    2:{ destruct Hq as [Hq|[_ ?]%andb_true_iff]; [left|by right].
        unfold Line.step. repeat case_match; simpl; try done.
        unfold quotedChar, notQuote, Js.is_quote in Hc.
        by rewrite H in Hc. }
    unfold quotedChar, notQuote, notOpening, Js.is_quote in Hc.
    apply andb_true_iff in Hc as [[Hc1 Hc2]%andb_true_iff Hc3].
    apply negb_true_iff in Hc1, Hc2, Hc3.
    unfold Line.step. rewrite Hc1, Hc2, Hc3.
    assert (bool_decide (c = ","%char) && negb (Line.inQuotes st) &&
            bool_decide (Line.bracketDepth st = 0%Z) = false) as ->.
    { destruct Hq as [-> |[[_ Hp]%andb_true_iff _]%andb_true_iff].
      - simpl. by rewrite andb_false_r.
      - apply negb_true_iff in Hp. by rewrite Hp. }
    simpl. by rewrite append_assoc.
Qed.

Lemma Line_loop_cell cell vals cur :
  cellOK cell = true →
  Line.loop (renderCell cell) (Line.mk vals cur false 0) =
  Line.mk vals (cur +:+ cell.2) false 0.
Proof.
  assert (∀ st, Line.step st Js.quote =
                Line.mk (Line.values st) (Line.current st)
                        (negb (Line.inQuotes st)) (Line.bracketDepth st))
    as Hquote by (intros st; unfold Line.step; by rewrite bool_decide_eq_true_2).
  destruct cell as [[|] f]; unfold cellOK, renderCell; cbn [fst snd]; intros Hf.
  - cbn [Line.loop]. rewrite Hquote, Line_loop_app. simpl.
    rewrite (Line_loop_body f); [|done|by left].
    by rewrite Hquote.
  - rewrite Line_loop_body; [done| |by right].
    clear cur. induction f as [|c f IH]; simpl in *; [done|].
    apply andb_true_iff in Hf as [[? _]%andb_true_iff ?].
    apply andb_true_iff. auto.
Qed.

Lemma Line_loop_cells c0 cells vals :
  (∀ cell, cell ∈ c0 :: cells → cellOK cell = true) →
  Line.values (Line.loop (Js.join "," (renderCell <$> c0 :: cells))
                         (Line.mk vals "" false 0)) ++
  [Js.trim (Line.current (Line.loop (Js.join "," (renderCell <$> c0 :: cells))
                                    (Line.mk vals "" false 0)))]
  = vals ++ ((λ cell, Js.trim cell.2) <$> c0 :: cells).
Proof.
  revert c0 vals. induction cells as [|c1 cells IH]; intros c0 vals Hok.
  - simpl. rewrite Line_loop_cell by (apply Hok; by left). done.
  - change (Js.join "," (renderCell <$> c0 :: c1 :: cells))
      with (renderCell c0 +:+ String ","%char (Js.join "," (renderCell <$> c1 :: cells))).
    rewrite Line_loop_app, Line_loop_cell by (apply Hok; by left).
    cbn [Line.loop].
    change (Line.step (Line.mk vals ("" +:+ c0.2) false 0) ","%char)
      with (Line.mk (vals ++ [Js.trim c0.2]) "" false 0).
    rewrite IH by (intros c Hc; apply Hok; by right).
    by rewrite <- app_assoc.
Qed.

(** X10. [parseCSVLine] reads back a line written cell by cell: when every
    cell of a non-empty line is free of quote and bracket characters, and
    either stands between quotes or is free of commas, the parser returns
    the trimmed texts of the cells, in order. A comma between quotes does
    not split, and the quotes themselves are dropped. *)
Theorem parseCSVLine_reads_cells (cells : list (bool * string)) :
  cells ≠ [] →
  (∀ cell, cell ∈ cells → cellOK cell = true) →
  parseCSVLine (Js.join "," (renderCell <$> cells))
  = (λ cell, Js.trim cell.2) <$> cells.
Proof.
  intros Hne Hok. destruct cells as [|c0 cells]; [done|].
  unfold parseCSVLine. by rewrite Line_loop_cells.
Qed.

(** X10, on a line of a plain cell and a quoted cell that holds a comma. *)
Lemma parseCSVLine_reads_cells_witness :
  parseCSVLine (Js.join "," (renderCell <$> [(false, " a"); (true, "b,c")]))
  = ["a"; "b,c"].
Proof.
  refine (parseCSVLine_reads_cells [(false, " a"); (true, "b,c")] _ _); [done|].
  intros cell Hc.
  repeat (apply elem_of_cons in Hc as [-> | Hc]; [reflexivity|]).
  by apply elem_of_nil in Hc.
Defined.

Lemma allChars_dropWhile p q s :
  allChars p s = true → allChars p (Js.dropWhile q s) = true.
Proof.
  induction s as [|c s IH]; [done|]. cbn [Js.dropWhile].
  destruct (q c); [|done]. cbn [allChars]. intros [_ ?]%andb_true_iff. auto.
Qed.

Lemma allChars_rev_string p s acc :
  allChars p s = true → allChars p acc = true →
  allChars p (Js.rev_string s acc) = true.
Proof.
  revert acc. induction s as [|c s IH]; intros acc; [done|].
  cbn [allChars Js.rev_string]. intros [? ?]%andb_true_iff Hacc.
  apply IH; [done|]. cbn [allChars]. apply andb_true_iff. auto.
Qed.

Lemma allChars_trim p s : allChars p s = true → allChars p (Js.trim s) = true.
Proof.
  intros H. unfold Js.trim, Js.dropWhileEnd.
  apply allChars_rev_string; [|done]. apply allChars_dropWhile.
  apply allChars_rev_string; [|done]. by apply allChars_dropWhile.
Qed.

Lemma allChars_app p a b :
  allChars p (a +:+ b) = allChars p a && allChars p b.
Proof.
  induction a as [|c a IH]; [done|].
  change (p c && allChars p (a +:+ b) = p c && allChars p a && allChars p b).
  by rewrite IH, andb_assoc.
Qed.

Lemma Line_loop_notQuote line st :
  Forall (λ v, allChars notQuote v = true) (Line.values st) →
  allChars notQuote (Line.current st) = true →
  Forall (λ v, allChars notQuote v = true) (Line.values (Line.loop line st)) ∧
  allChars notQuote (Line.current (Line.loop line st)) = true.
Proof.
  revert st. induction line as [|c line IH]; intros st Hv Hc; [done|].
  cbn [Line.loop]. apply IH; unfold Line.step.
  - repeat case_match; simpl; try done.
    apply Forall_app. split; [done|]. constructor; [|constructor].
    by apply allChars_trim.
  - destruct (bool_decide (c = Js.quote)) eqn:Eq; [done|].
    assert (allChars notQuote (Line.current st +:+ String c "") = true) as Hcur.
    { rewrite allChars_app, Hc. unfold notQuote, Js.is_quote.
      cbn [allChars]. by rewrite Eq. }
    repeat case_match; simpl; done.
Qed.

Lemma parseCSVLine_values_clean line v :
  v ∈ parseCSVLine line → allChars notQuote v = true.
Proof.
  unfold parseCSVLine.
  destruct (Line_loop_notQuote line (Line.mk [] "" false 0)) as [Hv Hc];
    [constructor|done|].
  intros [Hin | ->%list_elem_of_singleton]%elem_of_app.
  - by apply (proj1 (Forall_forall _ _) Hv).
  - by apply allChars_trim.
Qed.

(** X11. No value that [parseCSVLine] returns holds a quote character, and
    the parser returns one value at least, whatever the line. *)
Theorem parseCSVLine_drops_quotes line :
  parseCSVLine line ≠ [] ∧
  ∀ v, v ∈ parseCSVLine line → allChars notQuote v = true.
Proof.
  split.
  - unfold parseCSVLine. by destruct (Line.values _).
  - intros v. apply parseCSVLine_values_clean.
Qed.

Lemma Line_loop_negative line st :
  allChars notOpening line = true → (Line.bracketDepth st < 0)%Z →
  Line.values (Line.loop line st) = Line.values st.
Proof.
  revert st. induction line as [|c line IH]; intros st; [done|].
  cbn [allChars Line.loop]. intros [Hc Hl]%andb_true_iff Hd.
  unfold notOpening in Hc. apply negb_true_iff in Hc.
  assert (Line.values (Line.step st c) = Line.values st ∧
          (Line.bracketDepth (Line.step st c) < 0)%Z) as [Hv Hd'].
  { unfold Line.step. rewrite Hc.
    destruct (bool_decide (c = Js.quote)); [done|].
    destruct (Line.isClosing c); [simpl; split; [done|lia]|].
    rewrite (bool_decide_eq_false_2 (Line.bracketDepth st = 0%Z)) by lia.
    by rewrite andb_false_r. }
  rewrite IH; done.
Qed.

Lemma Line_loop_depth line st :
  allChars notOpening line = true →
  (Line.bracketDepth (Line.loop line st) ≤ Line.bracketDepth st)%Z.
Proof.
  revert st. induction line as [|c line IH]; intros st; [done|].
  cbn [allChars Line.loop]. intros [Hc Hl]%andb_true_iff.
  unfold notOpening in Hc. apply negb_true_iff in Hc.
  etrans; [by apply IH|]. unfold Line.step. rewrite Hc.
  repeat case_match; simpl; lia.
Qed.

(** X12. A closing bracket with no opening bracket before it takes
    [bracketDepth] below zero, and nothing brings it back: when the line has
    no opening bracket at all, no comma after the closing bracket splits,
    between quotes or not. The values before the one that holds the bracket
    are those of the line cut before the bracket, and all the rest of the
    line goes to one last value. *)
Theorem parseCSVLine_unmatched_bracket pre rest :
  allChars notOpening pre = true → allChars notOpening rest = true →
  ∃ v, parseCSVLine (pre +:+ String "]"%char rest)
       = removelast (parseCSVLine pre) ++ [v].
Proof.
  intros Hpre Hrest. unfold parseCSVLine.
  rewrite Line_loop_app. cbn [Line.loop].
  pose proof (Line_loop_depth pre (Line.mk [] "" false 0) Hpre) as Hd.
  simpl in Hd. set (st := Line.loop pre (Line.mk [] "" false 0)) in *.
  assert (Line.values (Line.step st "]"%char) = Line.values st ∧
          (Line.bracketDepth (Line.step st "]"%char) < 0)%Z) as [Hv Hd'].
  { unfold Line.step. simpl. split; [done|lia]. }
  rewrite Line_loop_negative, Hv by done.
  rewrite removelast_last. by eexists.
Qed.

(** X12, on the line ["a,x]y,z"]: the comma after the bracket does not
    split. *)
Lemma parseCSVLine_unmatched_bracket_witness :
  ∃ v, parseCSVLine ("a,x" +:+ String "]"%char "y,z")
       = removelast (parseCSVLine "a,x") ++ [v].
Proof.
  apply (parseCSVLine_unmatched_bracket "a,x" "y,z"); reflexivity.
Defined.

(** ** The single-CSV loader *)

Lemma rowObject_loop (values headers : list string)
  (row : gmap string string) (index : nat) (k : string) :
  (foldl (λ '(row, index) header,
            (<[header := default "" (values !! index)]> row, S index))
         (row, index) headers).1 !! k = None ↔
  row !! k = None ∧ k ∉ headers.
Proof.
  revert row index. induction headers as [|h headers IH]; intros row index; simpl.
  - rewrite elem_of_nil. tauto.
  - rewrite IH, not_elem_of_cons. destruct (decide (h = k)) as [->|Hne].
    + rewrite lookup_insert_eq. split; [by intros [? _]|]. by intros [_ [? _]].
    + rewrite lookup_insert_ne by done. split; [intros [? ?]|intros [? [_ ?]]]; auto.
Qed.

(** A property of the row object is absent exactly when no header has its
    name. *)
Lemma rowObject_None headers values k :
  rowObject headers values !! k = None ↔ k ∉ headers.
Proof.
  unfold rowObject. rewrite rowObject_loop, lookup_empty. tauto.
Qed.

(** Every property of the row object is a value of the line, or the empty
    string. *)
Lemma rowObject_Some headers values k v :
  rowObject headers values !! k = Some v → v = "" ∨ v ∈ values.
Proof.
  unfold rowObject.
  assert (∀ v, (∅ : gmap string string) !! k = Some v → v = "" ∨ v ∈ values)
    as Hinit by (intros ?; by rewrite lookup_empty).
  revert Hinit. generalize (∅ : gmap string string) as row. generalize 0 as index.
  revert v. induction headers as [|h headers IH]; intros v index row Hrow; simpl.
  - apply Hrow.
  - apply IH. intros w. destruct (decide (h = k)) as [->|Hne].
    + rewrite lookup_insert_eq. intros [= <-].
      destruct (values !! index) as [x|] eqn:E; simpl; [right|by left].
      by apply list_elem_of_lookup_2 in E.
    + rewrite lookup_insert_ne by done. apply Hrow.
Qed.

(** X13. [loadHPOData] needs the two columns: when no header of the first
    line, once trimmed and freed of its quote characters, is [TERM_ID], or
    none is [TERM_FULL_NAME], it loads no node at all, whatever the rows
    hold, and raises no error. *)
Theorem loadHPOData_needs_headers csvText :
  ("TERM_ID" ∉ csvHeaders csvText ∨ "TERM_FULL_NAME" ∉ csvHeaders csvText) →
  loadHPOData csvText = [].
Proof.
  intros Hmissing. unfold loadHPOData.
  assert (BridgeLoad.hpoNodes
            ((λ line, csvRow (rowObject (csvHeaders csvText) (parseCSVLine line)))
               <$> tail (csvLines csvText)) = []) as ->; [|done].
  unfold BridgeLoad.hpoNodes.
  induction (tail (csvLines csvText)) as [|line lines IH]; [done|].
  cbn [fmap list_fmap omap list_omap]. fold (@omap list _ _ _ BridgeLoad.rowNode).
  assert (BridgeLoad.rowNode
            (csvRow (rowObject (csvHeaders csvText) (parseCSVLine line))) = None)
    as ->; [|exact IH].
  unfold BridgeLoad.rowNode, csvRow. cbn [TERM_ID TERM_FULL_NAME].
  destruct Hmissing as [H|H];
    apply (rowObject_None _ (parseCSVLine line)) in H; rewrite H; simpl; [done|].
  by rewrite andb_false_r.
Qed.

(** X13, on a file whose columns have other names. *)
Lemma loadHPOData_needs_headers_witness :
  loadHPOData ("ID,NAME" +:+ Js.newline +:+ "HP:1,Root") = [].
Proof.
  apply loadHPOData_needs_headers. left.
  assert (csvHeaders ("ID,NAME" +:+ Js.newline +:+ "HP:1,Root") = ["ID"; "NAME"])
    as -> by reflexivity.
  intros H. repeat (apply elem_of_cons in H as [?|H]; [done|]).
  by apply elem_of_nil in H.
Defined.

Lemma trim_not_empty_truthy (v : option string) :
  Js.truthy (Js.trim <$> v) = true → default "" (Js.trim <$> v) ≠ "".
Proof.
  destruct v as [s|]; [|done]. simpl.
  by intros ?%negb_true_iff%bool_decide_eq_false.
Qed.

(** X14. What [loadHPOData] never loads: a node whose id or name is the
    empty string, a [parent_id] that is the empty string (it is [null]
    instead), a level that is NaN, or an id or a name that holds a quote
    character. *)
Theorem loadHPOData_nodes_clean csvText n :
  n ∈ loadHPOData csvText →
  id n ≠ "" ∧ name n ≠ "" ∧ parent_id n ≠ Some "" ∧
  (∃ z, level n = Js.JSNum z) ∧
  allChars notQuote (id n) = true ∧ allChars notQuote (name n) = true.
Proof.
  intros (n0 & Hn0 & -> & -> & -> & ->)%markParents_elem.
  unfold BridgeLoad.hpoNodes in Hn0.
  apply list_elem_of_omap in Hn0 as (row & Hrow & Hnode).
  apply list_elem_of_fmap in Hrow as (line & -> & _).
  set (row := rowObject (csvHeaders csvText) (parseCSVLine line)) in *.
  assert (∀ k v, row !! k = Some v → allChars notQuote (Js.trim v) = true)
    as Hclean.
  { intros k v [-> |Hv]%rowObject_Some; [done|].
    apply allChars_trim. by apply parseCSVLine_values_clean in Hv. }
  pose proof (Bridge_level_number _ _ Hnode) as Hlevel.
  unfold BridgeLoad.rowNode, csvRow in Hnode.
  cbn [TERM_ID TERM_FULL_NAME PARENT_ID LEVEL] in Hnode.
  destruct (Js.truthy (Js.trim <$> row !! "TERM_ID")) eqn:Eid; [|done].
  destruct (Js.truthy (Js.trim <$> row !! "TERM_FULL_NAME")) eqn:Ename; [|done].
  cbn [andb] in Hnode. injection Hnode as <-. cbn [id name parent_id level] in *.
  split_and!.
  - by apply trim_not_empty_truthy.
  - by apply trim_not_empty_truthy.
  - by case_bool_decide; [|destruct (Js.truthy _)].
  - done.
  - destruct (row !! "TERM_ID") as [v|] eqn:E; [|done]. by apply (Hclean _ _ E).
  - destruct (row !! "TERM_FULL_NAME") as [v|] eqn:E; [|done].
    by apply (Hclean _ _ E).
Qed.

(** X14, on a file of one row whose id is written between quotes. *)
Lemma loadHPOData_nodes_clean_witness :
  id (mkNode "HP:1" "Root" None (Js.JSNum 0) false) ≠ "" ∧
  name (mkNode "HP:1" "Root" None (Js.JSNum 0) false) ≠ "" ∧
  parent_id (mkNode "HP:1" "Root" None (Js.JSNum 0) false) ≠ Some "" ∧
  (∃ z, level (mkNode "HP:1" "Root" None (Js.JSNum 0) false) = Js.JSNum z) ∧
  allChars notQuote (id (mkNode "HP:1" "Root" None (Js.JSNum 0) false)) = true ∧
  allChars notQuote (name (mkNode "HP:1" "Root" None (Js.JSNum 0) false)) = true.
Proof.
  apply (loadHPOData_nodes_clean
           ("TERM_ID,TERM_FULL_NAME" +:+ Js.newline +:+
            String Js.quote ("HP:1" +:+ String Js.quote ",Root"))).
  assert (loadHPOData
            ("TERM_ID,TERM_FULL_NAME" +:+ Js.newline +:+
             String Js.quote ("HP:1" +:+ String Js.quote ",Root"))
          = [mkNode "HP:1" "Root" None (Js.JSNum 0) false]) as -> by reflexivity.
  by left.
Defined.

(** ** The nested-children variant: lookup and selection *)

Lemma Tree_findInNode_unfold nodeId node :
  Tree.findInNode nodeId node =
  if bool_decide (Tree.id node = nodeId) then Some node
  else Tree.findNodeById (Tree.children node) nodeId.
Proof.
  destruct node as [i lb p lv cs]. cbn [Tree.findInNode Tree.id Tree.children].
  destruct (bool_decide (i = nodeId)); [done|].
  induction cs as [|c cs IH]; [done|].
  cbn [Tree.findNodeById foldr]. destruct (Tree.findInNode nodeId c); [done|].
  apply IH.
Qed.

Lemma Tree_size_elem c l : c ∈ l → Tree.size c ≤ Tree.sizes l.
Proof.
  induction l as [|x l IH]; [by intros ?%elem_of_nil|].
  intros [->|Hin]%elem_of_cons; simpl; [lia|]. apply IH in Hin. lia.
Qed.

(** What a lookup in a forest gives, when lookups in its trees are right. *)
Lemma Tree_findNodeById_forest nodeId l :
  (∀ c, c ∈ l →
     match Tree.findInNode nodeId c with
     | Some f => Tree.id f = nodeId ∧ rtc treeChild c f
     | None => ∀ x, rtc treeChild c x → Tree.id x ≠ nodeId
     end) →
  match Tree.findNodeById l nodeId with
  | Some f => Tree.id f = nodeId ∧ ∃ r, r ∈ l ∧ rtc treeChild r f
  | None => ∀ r x, r ∈ l → rtc treeChild r x → Tree.id x ≠ nodeId
  end.
Proof.
  induction l as [|c l IH]; intros Hl.
  - simpl. by intros r x ?%elem_of_nil.
  - cbn [Tree.findNodeById foldr]. fold (Tree.findNodeById l nodeId).
    pose proof (Hl c (list_elem_of_here _ _)) as Hc.
    destruct (Tree.findInNode nodeId c) as [f|].
    + destruct Hc as [? ?]. split; [done|]. exists c. split; [by left|done].
    + specialize (IH (λ c' Hc', Hl c' (list_elem_of_further _ _ _ Hc'))).
      destruct (Tree.findNodeById l nodeId) as [f|].
      * destruct IH as (? & r & ? & ?). split; [done|]. exists r.
        split; [by right|done].
      * intros r x [->|Hr]%elem_of_cons; [apply Hc|by apply IH].
Qed.

Lemma Tree_findInNode_spec nodeId node :
  match Tree.findInNode nodeId node with
  | Some f => Tree.id f = nodeId ∧ rtc treeChild node f
  | None => ∀ x, rtc treeChild node x → Tree.id x ≠ nodeId
  end.
Proof.
  remember (Tree.size node) as n eqn:Hn.
  assert (Tree.size node ≤ n) as Hle by lia. clear Hn.
  revert node Hle. induction n as [|n IH]; intros node Hle.
  { rewrite Tree_size_children in Hle. lia. }
  rewrite Tree_findInNode_unfold.
  destruct (decide (Tree.id node = nodeId)) as [Hid|Hid].
  - rewrite bool_decide_eq_true_2 by done. done.
  - rewrite bool_decide_eq_false_2 by done.
    pose proof (Tree_findNodeById_forest nodeId (Tree.children node)) as Hf.
    destruct (Tree.findNodeById (Tree.children node) nodeId) as [f|].
    + destruct Hf as (? & r & Hr & Hrf).
      { intros c Hc. apply IH. apply Tree_size_elem in Hc.
        rewrite Tree_size_children in Hle. lia. }
      split; [done|]. by eapply rtc_l.
    + intros x Hx. apply rtc_inv in Hx as [<-|(c & Hc & Hcx)]; [done|].
      apply (Hf ltac:(intros c' Hc'; apply IH; apply Tree_size_elem in Hc';
                      rewrite Tree_size_children in Hle; lia) c x); done.
Qed.

(** X15. [findNodeById] is a lookup in the whole forest: the node it
    returns has the id asked for and is a root or below a root, and it
    returns [null] exactly when no node of the forest has the id. *)
Theorem findNodeById_spec nodes nodeId :
  (∀ found, Tree.findNodeById nodes nodeId = Some found →
            Tree.id found = nodeId ∧ ∃ r, r ∈ nodes ∧ rtc treeChild r found) ∧
  (Tree.findNodeById nodes nodeId = None ↔
   ∀ r x, r ∈ nodes → rtc treeChild r x → Tree.id x ≠ nodeId).
Proof.
  pose proof (Tree_findNodeById_forest nodeId nodes
                (λ c _, Tree_findInNode_spec nodeId c)) as H.
  destruct (Tree.findNodeById nodes nodeId) as [f|].
  - split; [by intros ? [= <-]|]. split; [done|]. intros Hno. exfalso.
    destruct H as (Hid & r & Hr & Hrf). by apply (Hno r f).
  - split; [done|]. split; [by intros _|done].
Qed.

Lemma foldl_add_NoDup (l : list string) (s : JSSet.t) :
  NoDup (s ++ l) → foldl (λ s i, JSSet.add i s) s l = s ++ l.
Proof.
  revert s. induction l as [|i l IH]; intros s Hnd; simpl.
  - by rewrite app_nil_r.
  - assert (i ∉ s) as Hi.
    { apply NoDup_app in Hnd as (_ & Hdisj & _). intros Hin.
      apply (Hdisj i Hin). by left. }
    unfold JSSet.add at 2. rewrite (proj2 (has_false s i) Hi).
    rewrite IH; rewrite <- app_assoc; done.
Qed.

Lemma filter_not_in_cons (x : string) (l sel : list string) :
  List.filter (λ i, negb (bool_decide (i ∈ l))) (JSSet.delete x sel)
  = List.filter (λ i, negb (bool_decide (i ∈ x :: l))) sel.
Proof.
  unfold JSSet.delete, JSSet.t. induction sel as [|y sel IH]; [done|].
  rewrite filter_cons. cbn [List.filter].
  destruct (decide (y = x)) as [->|Hne].
  - rewrite decide_False by (intros H; by apply H).
    rewrite (bool_decide_eq_true_2 (x ∈ x :: l)) by by left. done.
  - rewrite decide_True by done. cbn [List.filter]. rewrite IH.
    assert (bool_decide (y ∈ x :: l) = bool_decide (y ∈ l)) as ->; [|done].
    apply bool_decide_ext. rewrite elem_of_cons. tauto.
Qed.

Lemma foldl_delete_filter (l : list string) (sel : JSSet.t) :
  foldl (λ s i, JSSet.delete i s) sel l
  = List.filter (λ i, negb (bool_decide (i ∈ l))) sel.
Proof.
  revert sel. induction l as [|x l IH]; intros sel; cbn [foldl].
  - induction sel as [|y sel IHs]; [done|]. cbn [List.filter].
    rewrite bool_decide_eq_false_2 by apply not_elem_of_nil.
    cbn [negb]. by rewrite <- IHs.
  - by rewrite IH, filter_not_in_cons.
Qed.

(** X16. The two branches of [handleNodeSelect] of the nested-children
    variant agree: on a selection without repetition (the members of a
    [Set]), the set built in local development and the array given to
    [setFilterValue] otherwise hold the same ids in the same order, for a
    select as for a deselect. *)
Theorem Tree_handleNodeSelect_branches nodes selectedNodes nodeId selected :
  NoDup selectedNodes →
  Tree.handleNodeSelect nodes true selectedNodes nodeId selected
  = Tree.handleNodeSelect nodes false selectedNodes nodeId selected.
Proof.
  intros Hnd. unfold Tree.handleNodeSelect.
  destruct (Tree.findNodeById nodes nodeId) as [t|]; [|done].
  destruct selected.
  - rewrite (foldl_app _ selectedNodes). f_equal.
    symmetry. apply (foldl_add_NoDup selectedNodes []). by rewrite app_nil_l.
  - apply foldl_delete_filter.
Qed.

(** X16, on the tree of scenario 1 with [HP:2] selected. *)
Lemma Tree_handleNodeSelect_branches_witness :
  Tree.handleNodeSelect [Examples.treeFamily] true ["HP:2"] "HP:1" true
  = Tree.handleNodeSelect [Examples.treeFamily] false ["HP:2"] "HP:1" true.
Proof.
  apply (Tree_handleNodeSelect_branches [Examples.treeFamily] ["HP:2"] "HP:1" true).
  apply NoDup_singleton.
Defined.

(** X17. [handleNodeSelect] of the nested-children variant, for an id that
    [findNodeById] finds: after a select the selection holds what it held,
    the id, and the ids of all nodes below the node found; after a deselect
    it holds what it held but these. Ids of other branches keep their
    state, in both modes. *)
Theorem Tree_handleNodeSelect_elem nodes isLocalDev selectedNodes nodeId
  selected target x :
  Tree.findNodeById nodes nodeId = Some target →
  x ∈ Tree.handleNodeSelect nodes isLocalDev selectedNodes nodeId selected ↔
  if selected
  then x ∈ selectedNodes ∨ x = nodeId ∨ ∃ d, tc treeChild target d ∧ Tree.id d = x
  else x ∈ selectedNodes ∧
       ¬ (x = nodeId ∨ ∃ d, tc treeChild target d ∧ Tree.id d = x).
Proof.
  intros Hfind. unfold Tree.handleNodeSelect. rewrite Hfind.
  pose proof (Tree_getDescendantIds_elem target x) as Hdesc.
  destruct isLocalDev, selected.
  - rewrite elem_of_foldl_add, elem_of_cons, Hdesc. tauto.
  - rewrite elem_of_foldl_delete, elem_of_cons, Hdesc. tauto.
  - rewrite elem_of_foldl_add, elem_of_app, elem_of_cons, Hdesc.
    unfold JSSet.empty. rewrite elem_of_nil. tauto.
  - rewrite list_elem_of_In, filter_In, <- list_elem_of_In, negb_true_iff,
      bool_decide_eq_false, elem_of_cons, Hdesc. tauto.
Qed.

(** X17, on the tree of scenario 1: selecting the root selects [HP:3]. *)
Lemma Tree_handleNodeSelect_elem_witness :
  "HP:3" ∈ Tree.handleNodeSelect [Examples.treeFamily] false [] "HP:1" true ↔
  "HP:3" ∈ @nil string ∨ "HP:3" = "HP:1" ∨
  ∃ d, tc treeChild Examples.treeFamily d ∧ Tree.id d = "HP:3".
Proof.
  apply (Tree_handleNodeSelect_elem [Examples.treeFamily] false [] "HP:1" true
           Examples.treeFamily "HP:3").
  reflexivity.
Defined.

(** X18. [hasSelectedDescendants] of [renderNode] looks two levels down and
    no further: it holds exactly when a child or a grandchild of the node is
    selected. When it holds, some id of [getDescendantIds] is selected; the
    selection of a deeper descendant alone does not make it hold. *)
Theorem hasSelectedDescendants_two_levels selectedNodes node :
  (Tree.hasSelectedDescendants selectedNodes node = true ↔
   ∃ child, child ∈ Tree.children node ∧
     (Tree.id child ∈ selectedNodes ∨
      ∃ grandchild, grandchild ∈ Tree.children child ∧
                    Tree.id grandchild ∈ selectedNodes)) ∧
  (Tree.hasSelectedDescendants selectedNodes node = true →
   ∃ d, d ∈ Tree.getDescendantIds node ∧ d ∈ selectedNodes).
Proof.
  assert (Tree.hasSelectedDescendants selectedNodes node = true ↔
          ∃ child, child ∈ Tree.children node ∧
            (Tree.id child ∈ selectedNodes ∨
             ∃ grandchild, grandchild ∈ Tree.children child ∧
                           Tree.id grandchild ∈ selectedNodes)) as Hiff.
  { unfold Tree.hasSelectedDescendants. rewrite existsb_exists. split.
    - intros (c & Hc%list_elem_of_In & [H|H]%orb_true_iff); exists c; (split; [done|]).
      + left. by apply has_true.
      + right. apply existsb_exists in H as (g & Hg%list_elem_of_In & H).
        exists g. split; [done|]. by apply has_true.
    - intros (c & Hc & H). exists c. split; [by apply list_elem_of_In|].
      apply orb_true_iff. destruct H as [H|(g & Hg & H)].
      + left. by apply has_true.
      + right. apply existsb_exists. exists g.
        split; [by apply list_elem_of_In|by apply has_true]. }
  split; [done|]. intros (c & Hc & H)%Hiff.
  destruct H as [H|(g & Hg & H)].
  - exists (Tree.id c). split; [|done]. apply Tree_getDescendantIds_elem.
    exists c. split; [|done]. by apply tc_once.
  - exists (Tree.id g). split; [|done]. apply Tree_getDescendantIds_elem.
    exists g. split; [|done]. eapply tc_l; [|by apply tc_once]. done.
Qed.

(** ** Lines of a text, and joining the chunks *)

Lemma includes_newline_cons c r :
  Js.includes (String c r) Js.newline
  = bool_decide (Js.lf = c) || Js.includes r Js.newline.
Proof.
  cbn [Js.includes Js.newline Js.startsWith]. by destruct r; rewrite andb_true_r.
Qed.

Lemma includes_newline_app_r a b :
  Js.includes b Js.newline = true → Js.includes (a +:+ b) Js.newline = true.
Proof.
  intros Hb. induction a as [|c a IH]; [done|].
  change (String c a +:+ b) with (String c (a +:+ b)).
  rewrite includes_newline_cons, IH. apply orb_true_r.
Qed.

Lemma split_not_nil sep s : Js.split sep s ≠ [].
Proof.
  destruct s as [|c r]; [done|]. cbn [Js.split].
  destruct (bool_decide (c = sep)); [done|]. by destruct (Js.split sep r).
Qed.

Lemma join_cons_cons sep x y l :
  Js.join sep (x :: y :: l) = x +:+ sep +:+ Js.join sep (y :: l).
Proof. done. Qed.

Lemma join_snoc sep l x :
  l ≠ [] → Js.join sep (l ++ [x]) = Js.join sep l +:+ sep +:+ x.
Proof.
  induction l as [|y l IH]; [done|]. intros _.
  destruct l as [|z l]; [done|].
  change ((y :: z :: l) ++ [x]) with (y :: (z :: l) ++ [x]).
  change ((z :: l) ++ [x]) with (z :: l ++ [x]) at 1.
  rewrite join_cons_cons.
  change (z :: l ++ [x]) with ((z :: l) ++ [x]). rewrite IH by done.
  rewrite join_cons_cons. by rewrite !append_assoc.
Qed.

(** [s.split('\n').join('\n')] is [s]. *)
Lemma join_split s : Js.join Js.newline (Js.split Js.lf s) = s.
Proof.
  induction s as [|c r IH]; [done|]. cbn [Js.split].
  pose proof (split_not_nil Js.lf r) as Hne.
  destruct (Js.split Js.lf r) as [|h t]; [done|].
  case_bool_decide as Hc.
  - rewrite join_cons_cons, IH. by subst c.
  - destruct t as [|h' t]; [simpl in *; by subst|].
    rewrite join_cons_cons. rewrite join_cons_cons in IH. by rewrite <- IH.
Qed.

Lemma split_no_newline s :
  Js.includes s Js.newline = false → Js.split Js.lf s = [s].
Proof.
  induction s as [|c r IH]; [done|]. rewrite includes_newline_cons.
  intros [Hc Hr]%orb_false_iff. cbn [Js.split].
  rewrite bool_decide_eq_false_2
    by (apply bool_decide_eq_false in Hc; congruence).
  by rewrite IH.
Qed.

Lemma split_newline_init s :
  Js.includes s Js.newline = true → removelast (Js.split Js.lf s) ≠ [].
Proof.
  induction s as [|c r IH]; [done|]. rewrite includes_newline_cons.
  cbn [Js.split]. pose proof (split_not_nil Js.lf r) as Hne.
  destruct (decide (c = Js.lf)) as [->|Hc].
  - intros _. rewrite bool_decide_eq_true_2 by done.
    by destruct (Js.split Js.lf r).
  - rewrite (bool_decide_eq_false_2 (c = Js.lf)) by done.
    rewrite (bool_decide_eq_false_2 (Js.lf = c)) by congruence.
    intros Hr. specialize (IH Hr).
    destruct (Js.split Js.lf r) as [|h [|h' t]]; done.
Qed.

(** A text with a line feed is its complete lines, a line feed, and what
    follows the last line feed. *)
Lemma split_newline_last s :
  Js.includes s Js.newline = true →
  Js.join Js.newline (removelast (Js.split Js.lf s)) +:+ Js.newline +:+
  List.last (Js.split Js.lf s) "" = s.
Proof.
  intros Hs. rewrite <- join_snoc by by apply split_newline_init.
  rewrite <- app_removelast_last by apply split_not_nil. apply join_split.
Qed.

Lemma Tree_combineLoop_concat chunks combinedData partialLine :
  chunks ≠ [] →
  (∀ c, c ∈ removelast chunks → Js.includes c Js.newline = true) →
  Tree.combineLoop chunks combinedData partialLine
  = combinedData +:+ partialLine +:+ Js.join "" chunks.
Proof.
  revert combinedData partialLine.
  induction chunks as [|chunk rest IH]; intros combined partial Hne Hnl; [done|].
  destruct rest as [|c2 rest].
  - cbn [Tree.combineLoop Js.join]. by rewrite join_split.
  - change (Tree.combineLoop (chunk :: c2 :: rest) combined partial)
      with (Tree.combineLoop (c2 :: rest)
              (combined +:+
               Js.join Js.newline
                 (removelast (Js.split Js.lf (partial +:+ chunk))) +:+ Js.newline)
              (List.last (Js.split Js.lf (partial +:+ chunk)) "")).
    assert (Js.includes (partial +:+ chunk) Js.newline = true) as Hincl.
    { apply includes_newline_app_r, Hnl.
      change (removelast (chunk :: c2 :: rest))
        with (chunk :: removelast (c2 :: rest)). by left. }
    pose proof (split_newline_last (partial +:+ chunk) Hincl) as Heq.
    remember (Js.join Js.newline
                (removelast (Js.split Js.lf (partial +:+ chunk)))) as J.
    remember (List.last (Js.split Js.lf (partial +:+ chunk)) "") as L.
    rewrite IH; [|done|].
    2:{ intros c Hc. apply Hnl.
        change (removelast (chunk :: c2 :: rest))
          with (chunk :: removelast (c2 :: rest)). by right. }
    rewrite join_cons_cons.
    change ("" +:+ Js.join "" (c2 :: rest)) with (Js.join "" (c2 :: rest)).
    rewrite <- (append_assoc partial chunk), <- Heq, !append_assoc. done.
Qed.

(** X19. The chunk joiner of the nested-children variant puts the file
    together again: when every chunk but the last holds a line feed, the
    combined text is the chunks one after the other, wherever the chunk
    boundaries fall inside the lines. *)
Theorem Tree_combinedData_concat chunks :
  chunks ≠ [] →
  (∀ c, c ∈ removelast chunks → Js.includes c Js.newline = true) →
  Tree.combinedData chunks = Some (Js.join "" chunks).
Proof.
  intros Hne Hnl. destruct chunks as [|c chunks]; [done|].
  unfold Tree.combinedData. by rewrite Tree_combineLoop_concat.
Qed.

(** X19, on a record cut in the middle of a line. *)
Lemma Tree_combinedData_concat_witness :
  Tree.combinedData ["a,b" +:+ Js.newline +:+ "c"; ",d" +:+ Js.newline]
  = Some (Js.join "" ["a,b" +:+ Js.newline +:+ "c"; ",d" +:+ Js.newline]).
Proof.
  apply Tree_combinedData_concat; [done|].
  intros c Hc. cbn [removelast] in Hc.
  apply list_elem_of_singleton in Hc as ->. reflexivity.
Defined.

Lemma Tree_combineLoop_prefix chunks a b partialLine :
  Tree.combineLoop chunks (a +:+ b) partialLine
  = a +:+ Tree.combineLoop chunks b partialLine.
Proof.
  revert b partialLine. induction chunks as [|chunk rest IH]; intros b partial.
  - done.
  - destruct rest as [|c2 rest].
    + cbn [Tree.combineLoop]. by rewrite append_assoc.
    + change (Tree.combineLoop (chunk :: c2 :: rest) (a +:+ b) partial)
        with (Tree.combineLoop (c2 :: rest)
                ((a +:+ b) +:+
                 Js.join Js.newline
                   (removelast (Js.split Js.lf (partial +:+ chunk))) +:+ Js.newline)
                (List.last (Js.split Js.lf (partial +:+ chunk)) "")).
      rewrite append_assoc. by rewrite IH.
Qed.

(** X20. The joiner needs the line feeds: a first chunk without any (with
    more chunks after it) is held back whole as a partial line, but a line
    feed is written to the combined text all the same. The result is the
    text of the same chunks with the first two put together, after an empty
    line that the file does not have. *)
Theorem Tree_combinedData_spurious_line c1 c2 rest :
  Js.includes c1 Js.newline = false →
  Tree.combinedData (c1 :: c2 :: rest)
  = (λ s, Js.newline +:+ s) <$> Tree.combinedData ((c1 +:+ c2) :: rest).
Proof.
  intros Hc1. unfold Tree.combinedData. cbn [fmap option_fmap option_map]. f_equal.
  change (Tree.combineLoop (c1 :: c2 :: rest) "" "")
    with (Tree.combineLoop (c2 :: rest)
            ("" +:+ Js.join Js.newline (removelast (Js.split Js.lf c1))
                +:+ Js.newline)
            (List.last (Js.split Js.lf c1) "")).
  rewrite split_no_newline by done. cbn [removelast List.last Js.join].
  change ("" +:+ "" +:+ Js.newline) with (Js.newline +:+ "").
  rewrite Tree_combineLoop_prefix. by destruct rest.
Qed.

(** X20, on a first chunk that ends before the first line does. *)
Lemma Tree_combinedData_spurious_line_witness :
  Tree.combinedData ["ab"; "c" +:+ Js.newline +:+ "d"]
  = (λ s, Js.newline +:+ s)
      <$> Tree.combinedData [("ab" +:+ "c" +:+ Js.newline +:+ "d")].
Proof.
  apply (Tree_combinedData_spurious_line "ab" ("c" +:+ Js.newline +:+ "d") []).
  reflexivity.
Defined.

Lemma split_app_newline a b :
  Js.split Js.lf (a +:+ Js.newline +:+ b) = Js.split Js.lf a ++ Js.split Js.lf b.
Proof.
  induction a as [|c a IH].
  - change ("" +:+ Js.newline +:+ b) with (String Js.lf b).
    cbn [Js.split]. by rewrite bool_decide_eq_true_2.
  - change (String c a +:+ Js.newline +:+ b)
      with (String c (a +:+ Js.newline +:+ b)).
    cbn [Js.split]. rewrite IH. pose proof (split_not_nil Js.lf a) as Hne.
    destruct (bool_decide (c = Js.lf)); [done|].
    by destruct (Js.split Js.lf a).
Qed.

Lemma split_elem_no_newline s x :
  x ∈ Js.split Js.lf s → Js.includes x Js.newline = false.
Proof.
  revert x. induction s as [|c r IH]; intros x.
  - by intros ->%list_elem_of_singleton.
  - cbn [Js.split]. pose proof (split_not_nil Js.lf r) as Hne.
    destruct (decide (c = Js.lf)) as [->|Hc].
    + rewrite bool_decide_eq_true_2 by done.
      intros [->|?]%elem_of_cons; [done|by apply IH].
    + rewrite bool_decide_eq_false_2 by done.
      destruct (Js.split Js.lf r) as [|h t]; [done|].
      intros [->|?]%elem_of_cons.
      * rewrite includes_newline_cons, IH by by left.
        rewrite bool_decide_eq_false_2 by congruence. done.
      * apply IH. by right.
Qed.

Lemma split_join_concat x l :
  Js.split Js.lf (Js.join Js.newline (x :: l))
  = Js.split Js.lf x ++ concat (Js.split Js.lf <$> l).
Proof.
  revert x. induction l as [|y l IH]; intros x.
  - cbn [Js.join fmap list_fmap concat]. by rewrite app_nil_r.
  - rewrite join_cons_cons, split_app_newline, IH. done.
Qed.

(** Lines are read back from their join. *)
Lemma split_join_lines l :
  l ≠ [] → (∀ x, x ∈ l → Js.includes x Js.newline = false) →
  Js.split Js.lf (Js.join Js.newline l) = l.
Proof.
  destruct l as [|x l]; [done|]. intros _ Hl. rewrite split_join_concat.
  rewrite split_no_newline by (apply Hl; by left).
  change ([x] ++ concat (Js.split Js.lf <$> l))
    with (x :: concat (Js.split Js.lf <$> l)). f_equal.
  assert (∀ y, y ∈ l → Js.includes y Js.newline = false) as Hl'
    by (intros y Hy; apply Hl; by right).
  clear Hl. induction l as [|y l IH]; [done|].
  cbn [fmap list_fmap concat]. rewrite split_no_newline by (apply Hl'; by left).
  fold (@fmap list _ _ _ (Js.split Js.lf) l).
  rewrite IH by (intros z Hz; apply Hl'; by right). done.
Qed.

(** X21. The chunk joiner of the chunk-loading variant works on lines: the
    lines of the combined text are the lines of the first chunk, followed
    for every later chunk by its lines but the first. A later chunk loses
    its first line also when that line is data and not a header, and a
    later chunk of one line leaves an empty line. Without any chunk the
    loader raises its error. *)
Theorem Chunked_combinedData_lines firstChunk restChunks :
  ChunkedLoad.combinedData [] = None ∧
  ∃ combined,
    ChunkedLoad.combinedData (firstChunk :: restChunks) = Some combined ∧
    Js.split Js.lf combined
    = Js.split Js.lf firstChunk ++
      concat ((λ chunk, match tail (Js.split Js.lf chunk) with
                        | [] => [""]
                        | lines => lines
                        end) <$> restChunks).
Proof.
  split; [done|]. eexists. split; [done|].
  rewrite split_join_concat. f_equal. rewrite <- list_fmap_compose.
  f_equal. apply list_fmap_ext. intros _ chunk _. simpl.
  destruct (tail (Js.split Js.lf chunk)) as [|l ls] eqn:E; [done|].
  apply split_join_lines; [done|]. intros x Hx.
  apply (split_elem_no_newline chunk). rewrite <- E in Hx.
  destruct (Js.split Js.lf chunk); [done|]. by right.
Qed.

(** ** The linking pass of the nested-children variant *)

Lemma linkChildren_loop (idx : gmap string nat) (l : list Tree.HPONode)
  (arrays : list (list nat)) (k j : nat) :
  (foldl (λ '(arrays, i) node,
            (if Js.truthy (Tree.parentId node) then
               match idx !! default "" (Tree.parentId node) with
               | Some j => alter (λ children, children ++ [i]) j arrays
               | None => arrays
               end
             else arrays, S i))
         (arrays, k) l).1 !! j
  = (λ children, children ++ linkHits idx j k l) <$> arrays !! j.
Proof.
  revert arrays k. induction l as [|n l IH]; intros arrays k.
  - cbn [foldl linkHits fst]. destruct (arrays !! j) as [a|]; [|done].
    simpl. by rewrite app_nil_r.
  - cbn [foldl linkHits]. rewrite IH. clear IH.
    destruct (Js.truthy (Tree.parentId n));
      [destruct (idx !! default "" (Tree.parentId n)) as [j'|] eqn:El|].
    + rewrite list_lookup_alter. destruct (decide (j' = j)) as [->|Hne].
      * rewrite bool_decide_eq_true_2 by done.
        destruct (arrays !! j) as [a|]; [|done]. simpl.
        by rewrite <- app_assoc.
      * rewrite bool_decide_eq_false_2 by congruence. done.
    + rewrite bool_decide_eq_false_2 by congruence. done.
    + done.
Qed.

Lemma linkChildren_loop_length (idx : gmap string nat) (l : list Tree.HPONode)
  (arrays : list (list nat)) (k : nat) :
  length (foldl (λ '(arrays, i) node,
                   (if Js.truthy (Tree.parentId node) then
                      match idx !! default "" (Tree.parentId node) with
                      | Some j => alter (λ children, children ++ [i]) j arrays
                      | None => arrays
                      end
                    else arrays, S i))
                (arrays, k) l).1 = length arrays.
Proof.
  revert arrays k. induction l as [|n l IH]; intros arrays k; [done|].
  cbn [foldl]. rewrite IH. destruct (Js.truthy (Tree.parentId n)); [|done].
  destruct (idx !! default "" (Tree.parentId n)); [|done].
  apply length_alter.
Qed.

Lemma elem_of_linkHits idx j k l i :
  i ∈ linkHits idx j k l ↔
  ∃ n, k ≤ i ∧ l !! (i - k) = Some n ∧ Js.truthy (Tree.parentId n) = true ∧
       idx !! default "" (Tree.parentId n) = Some j.
Proof.
  revert k. induction l as [|n l IH]; intros k.
  - cbn [linkHits]. rewrite elem_of_nil. split; [done|]. by intros (? & _ & ? & _).
  - cbn [linkHits]. rewrite elem_of_app, IH. split.
    + intros [Hhere|(m & Hk & Hm & Ht & Hi)].
      * destruct (Js.truthy (Tree.parentId n)) eqn:Et; [|by apply elem_of_nil in Hhere].
        case_bool_decide; [|by apply elem_of_nil in Hhere].
        apply list_elem_of_singleton in Hhere as ->.
        exists n. rewrite Nat.sub_diag. done.
      * exists m. split_and!; [lia| |done..].
        replace (i - k) with (S (i - S k)) by lia. done.
    + intros (m & Hk & Hm & Ht & Hi).
      destruct (decide (i = k)) as [->|Hne].
      * left. rewrite Nat.sub_diag in Hm. injection Hm as ->.
        rewrite Ht, bool_decide_eq_true_2 by done. by left.
      * right. exists m. split_and!; [lia| |done..].
        replace (i - k) with (S (i - S k)) in Hm by lia. done.
Qed.

Lemma linkHits_bound idx j k l i : i ∈ linkHits idx j k l → k ≤ i.
Proof. by intros (? & ? & _)%elem_of_linkHits. Qed.

Lemma linkHits_sorted idx j k l : StronglySorted lt (linkHits idx j k l).
Proof.
  revert k. induction l as [|n l IH]; intros k; [constructor|].
  cbn [linkHits]. destruct (_ && _); [|apply IH]. simpl.
  constructor; [apply IH|]. apply Forall_forall. intros i Hi.
  apply linkHits_bound in Hi. lia.
Qed.

Lemma Tree_nodesMap_is_Some parsed p :
  is_Some (Tree.nodesMap parsed !! p) ↔ ∃ n, n ∈ parsed ∧ Tree.id n = p.
Proof.
  unfold Tree.nodesMap. induction parsed as [|x l IH] using rev_ind.
  - simpl. rewrite lookup_empty. split; [by intros [? ?]|].
    by intros (? & ?%elem_of_nil & _).
  - rewrite foldl_app. simpl. destruct (decide (Tree.id x = p)) as [<-|Hne].
    + rewrite lookup_insert_eq. split; [|by eexists].
      intros _. exists x. split; [|done]. apply elem_of_app. right. by left.
    + rewrite lookup_insert_ne, IH by done. split.
      * intros (n & ? & ?). exists n. split; [|done]. apply elem_of_app. auto.
      * intros (n & [?| ->%list_elem_of_singleton]%elem_of_app & ?); [|done].
        by exists n.
Qed.

Lemma linkChildren_lookup parsedNodes j :
  TreeLoad.linkChildren parsedNodes !! j
  = if decide (j < length parsedNodes)
    then Some (linkHits (TreeLoad.nodesMap parsedNodes) j 0 parsedNodes)
    else None.
Proof.
  unfold TreeLoad.linkChildren. rewrite linkChildren_loop.
  destruct (decide (j < length parsedNodes)) as [Hlt|Hge].
  - by rewrite lookup_replicate_2.
  - rewrite (proj1 (lookup_replicate_None _ _ _)); [done|lia].
Qed.

Lemma linkHits_linkedTo parsedNodes i j :
  i ∈ linkHits (TreeLoad.nodesMap parsedNodes) j 0 parsedNodes ↔
  linkedTo parsedNodes i j.
Proof.
  rewrite elem_of_linkHits. unfold linkedTo. rewrite Nat.sub_0_r. split.
  - intros (n & _ & ? & ? & ?). by exists n.
  - intros (n & ? & ? & ?). exists n. split_and!; [lia|done..].
Qed.

Lemma linkedTo_functional parsedNodes i j j' :
  linkedTo parsedNodes i j → linkedTo parsedNodes i j' → j = j'.
Proof. intros (n & Hn & _ & Hj) (n' & Hn' & _ & Hj'). congruence. Qed.

Lemma linkedTo_bounds parsedNodes i j :
  linkedTo parsedNodes i j → i < length parsedNodes ∧ j < length parsedNodes.
Proof.
  intros (n & Hn%lookup_lt_Some & _ & Hj). split; [done|].
  by apply lastIndex_lookup in Hj as (p & Hp%lookup_lt_Some & _).
Qed.

(** The root filter keeps the objects that name no parent. *)
Lemma rootNodes_not_linked parsedNodes i n :
  parsedNodes !! i = Some n →
  n ∈ Tree.rootNodes parsedNodes ↔ ∀ j, ¬ linkedTo parsedNodes i j.
Proof.
  intros Hi. unfold Tree.rootNodes.
  rewrite list_elem_of_In, filter_In, <- list_elem_of_In. split.
  - intros [_ Hroot] j (n' & Hn' & Ht & Hj).
    assert (n' = n) as -> by congruence.
    rewrite Ht in Hroot. simpl in Hroot.
    apply negb_true_iff, bool_decide_eq_false in Hroot. apply Hroot.
    apply Tree_nodesMap_is_Some.
    apply lastIndex_lookup in Hj as (p & Hp & Hid & _).
    exists p. split; [by apply list_elem_of_lookup_2 in Hp|done].
  - intros Hno. split; [by apply list_elem_of_lookup_2 in Hi|].
    destruct (Js.truthy (Tree.parentId n)) eqn:Et; [|done]. simpl.
    apply negb_true_iff, bool_decide_eq_false.
    intros (p & Hp & Hid)%Tree_nodesMap_is_Some.
    destruct (TreeLoad.nodesMap parsedNodes !! default "" (Tree.parentId n))
      as [j|] eqn:Ej.
    + apply (Hno j). by exists n.
    + pose proof (proj1 (lastIndex_None Tree.id parsedNodes _) Ej) as Hnone.
      by apply (Hnone p).
Qed.

(** X22. The linking pass of [loadChunkedData]. It fills the [children]
    array of an object with the objects that name it as their parent
    through [nodesMap], each once and in the order of the parsed array, so
    no object is in two arrays. The root filter keeps exactly the objects
    that are in no array: every parsed object is a root or a child, and
    never both. *)
Theorem Tree_linking parsedNodes :
  length (TreeLoad.linkChildren parsedNodes) = length parsedNodes ∧
  (∀ j children, TreeLoad.linkChildren parsedNodes !! j = Some children →
     StronglySorted lt children ∧
     ∀ i, i ∈ children ↔ linkedTo parsedNodes i j) ∧
  (∀ i j j', linkedTo parsedNodes i j → linkedTo parsedNodes i j' → j = j') ∧
  (∀ i n, parsedNodes !! i = Some n →
     (n ∈ Tree.rootNodes parsedNodes ↔ ∀ j, ¬ linkedTo parsedNodes i j) ∧
     (∀ j, linkedTo parsedNodes i j →
           ∃ children, TreeLoad.linkChildren parsedNodes !! j = Some children ∧
                       i ∈ children)).
Proof.
  split_and!.
  - unfold TreeLoad.linkChildren.
    by rewrite linkChildren_loop_length, length_replicate.
  - intros j children. rewrite linkChildren_lookup. case_decide; [|done].
    intros [= <-]. split; [apply linkHits_sorted|].
    intros i. apply linkHits_linkedTo.
  - apply linkedTo_functional.
  - intros i n Hi. split; [by apply rootNodes_not_linked|].
    intros j Hlink. destruct (linkedTo_bounds _ _ _ Hlink) as [_ Hj].
    rewrite linkChildren_lookup, decide_True by done. eexists. split; [done|].
    by apply linkHits_linkedTo.
Qed.

(** ** The nested-children variant: order and number of the descendants *)

Lemma Tree_loop_length fuel queue descendantIds ds :
  Tree.getDescendantIdsLoop fuel queue descendantIds = Some ds →
  length ds = length descendantIds + Tree.sizes queue ∧
  ∃ rest, ds = descendantIds ++ (Tree.id <$> queue) ++ rest.
Proof.
  revert queue descendantIds.
  induction fuel as [|fuel IH]; intros queue descendantIds; [done|].
  simpl. destruct queue as [|cur queue].
  - intros [= <-]. split; [simpl; lia|]. exists []. by rewrite !app_nil_r.
  - intros (Hlen & rest & Hds)%IH. split.
    + rewrite Hlen, length_app, Tree_sizes_app. simpl.
      rewrite (Tree_size_children cur). lia.
    + exists ((Tree.id <$> Tree.children cur) ++ rest).
      rewrite Hds, fmap_app, <- !app_assoc. done.
Qed.

(** X26. [getDescendantIds] walks breadth-first and meets every node
    once: it returns as many ids as there are nodes below the node (a node
    whose id occurs twice is counted twice), and the ids of the children
    come first, in the order of the [children] array. *)
Theorem Tree_getDescendantIds_breadth_first node :
  length (Tree.getDescendantIds node) = Tree.sizes (Tree.children node) ∧
  ∃ rest, Tree.getDescendantIds node
          = (Tree.id <$> Tree.children node) ++ rest.
Proof.
  destruct (Tree_loop_length _ _ _ _ (Tree_getDescendantIds_run node))
    as (Hlen & rest & Hds).
  split; [done|]. by exists rest.
Qed.

(** X25, on two rows: the root has a child and gets the flag. *)
Lemma has_children_agrees_with_index_witness :
  has_children (mkNode "HP:1" "Root" None (Js.JSNum 0) true) = true ↔
  id (mkNode "HP:1" "Root" None (Js.JSNum 0) true) ≠ "" ∧
  childrenOf (fetchData [mkRow (Some "HP:1") (Some "Root") None (Some "0");
                         mkRow (Some "HP:2") (Some "Child") (Some "HP:1")
                               (Some "1")])
             (Some (id (mkNode "HP:1" "Root" None (Js.JSNum 0) true))) ≠ [].
Proof.
  apply (proj1 (has_children_agrees_with_index
                  [mkRow (Some "HP:1") (Some "Root") None (Some "0");
                   mkRow (Some "HP:2") (Some "Child") (Some "HP:1") (Some "1")]
                  "")).
  - assert (id <$> fetchData
                     [mkRow (Some "HP:1") (Some "Root") None (Some "0");
                      mkRow (Some "HP:2") (Some "Child") (Some "HP:1") (Some "1")]
            = ["HP:1"; "HP:2"]) as -> by reflexivity.
    apply NoDup_cons. split; [|apply NoDup_singleton].
    by intros ?%list_elem_of_singleton.
  - assert (fetchData
              [mkRow (Some "HP:1") (Some "Root") None (Some "0");
               mkRow (Some "HP:2") (Some "Child") (Some "HP:1") (Some "1")]
            = [mkNode "HP:1" "Root" None (Js.JSNum 0) true;
               mkNode "HP:2" "Child" (Some "HP:1") (Js.JSNum 1) false])
      as -> by reflexivity.
    by left.
Defined.

(** X24, on scenario 3 of the specification: the child listed for the
    term "childa" matches it. *)
Lemma visibleNodes_search_sound_witness :
  Examples.childA ∈ Examples.family ∧
  relevant Examples.family (Js.toLowerCase "childa") Examples.childA.
Proof.
  apply (visibleNodes_search_sound 3 Examples.family [] "childa"
           [Examples.rootA; Examples.childA] Examples.childA).
  - vm_compute. repeat constructor; rewrite ?elem_of_cons, ?elem_of_nil;
      intuition congruence.
  - done.
  - reflexivity.
  - right. by left.
Defined.

(** ** The nested-children variant: the state after loading *)

(** The parent of a position of a chain is in the chain, after its head. *)
Lemma chainUp_parent parsedNodes i l x y :
  chainUp parsedNodes (i :: l) → x ∈ i :: l → linkedTo parsedNodes x y → y ∈ l.
Proof.
  revert i. induction l as [|i' l IH]; intros i Hchain Hx Hlink.
  - inversion Hchain as [r Hr Hroot|]; subst.
    apply list_elem_of_singleton in Hx as ->. by destruct (Hroot y).
  - inversion Hchain as [|c i0 l0 Hci Hrest]; subst.
    apply elem_of_cons in Hx as [->|Hx].
    + rewrite (linkedTo_functional _ _ _ _ Hlink Hci). by left.
    + right. by apply (IH i').
Qed.

Lemma chainUp_NoDup parsedNodes l : chainUp parsedNodes l → NoDup l.
Proof.
  induction 1 as [r Hr Hroot|c i l Hci Hchain IH]; [apply NoDup_singleton|].
  apply NoDup_cons. split; [|done]. intros Hc.
  pose proof (chainUp_parent _ _ _ _ _ Hchain Hc Hci) as Hi.
  by apply NoDup_cons in IH as [? _].
Qed.

Lemma chainUp_bound parsedNodes l x :
  chainUp parsedNodes l → x ∈ l → x < length parsedNodes.
Proof.
  induction 1 as [r Hr Hroot|c i l Hci Hchain IH].
  - by intros ->%list_elem_of_singleton.
  - intros [->|Hx]%elem_of_cons; [|by apply IH].
    by apply linkedTo_bounds in Hci as [? _].
Qed.

(** A chain is never longer than the parsed array. *)
Lemma chainUp_length parsedNodes l :
  chainUp parsedNodes l → length l ≤ length parsedNodes.
Proof.
  intros Hchain.
  assert (length l ≤ length (seq 0 (length parsedNodes))) as Hle.
  { apply submseteq_length, NoDup_submseteq; [by eapply chainUp_NoDup|].
    intros x Hx. apply elem_of_seq.
    pose proof (chainUp_bound _ _ _ Hchain Hx). lia. }
  by rewrite length_seq in Hle.
Qed.

(** Below the head of a chain the objects unfold to a tree, whatever cycles
    the parsed array holds elsewhere. *)
Lemma nested_total parsedNodes fuel i l :
  chainUp parsedNodes (i :: l) →
  length parsedNodes < fuel + length (i :: l) →
  is_Some (TreeLoad.nested fuel parsedNodes (TreeLoad.linkChildren parsedNodes) i).
Proof.
  revert i l. induction fuel as [|fuel IH]; intros i l Hchain Hfuel.
  { apply chainUp_length in Hchain. simpl in *. lia. }
  assert (i < length parsedNodes) as Hi
    by (eapply chainUp_bound; [done|by left]).
  cbn [TreeLoad.nested].
  destruct (lookup_lt_is_Some_2 parsedNodes i Hi) as [node ->].
  rewrite linkChildren_lookup, decide_True by done.
  assert (is_Some (mapM (TreeLoad.nested fuel parsedNodes
                           (TreeLoad.linkChildren parsedNodes))
                        (linkHits (TreeLoad.nodesMap parsedNodes) i 0 parsedNodes)))
    as [cs ->]; [|by eexists].
  apply mapM_is_Some, Forall_forall. intros c Hc%linkHits_linkedTo.
  apply (IH c (i :: l)); [by constructor|]. simpl in *. lia.
Qed.

Lemma nested_treeOf parsedNodes arrays fuel i t :
  TreeLoad.nested fuel parsedNodes arrays i = Some t →
  treeOf parsedNodes arrays i t.
Proof.
  revert i t. induction fuel as [|fuel IH]; intros i t; [done|].
  cbn [TreeLoad.nested].
  destruct (parsedNodes !! i) as [node|] eqn:Hn; [|done].
  destruct (arrays !! i) as [children|] eqn:Ha; [|done].
  destruct (mapM _ children) as [cs|] eqn:Hcs; [|done].
  intros [= <-]. econstructor; [done..|].
  apply mapM_Some in Hcs. eapply Forall2_impl; [done|]. apply IH.
Qed.

Lemma elem_of_rootPositions parsedNodes i :
  i ∈ TreeLoad.rootPositions parsedNodes ↔
  ∃ node, parsedNodes !! i = Some node ∧ node ∈ Tree.rootNodes parsedNodes.
Proof.
  unfold TreeLoad.rootPositions.
  rewrite list_elem_of_In, filter_In, <- list_elem_of_In, elem_of_seq. split.
  - intros [_ Hroot]. destruct (parsedNodes !! i) as [node|] eqn:Hi; [|done].
    exists node. split; [done|]. unfold Tree.rootNodes.
    rewrite list_elem_of_In, filter_In, <- list_elem_of_In.
    split; [by apply list_elem_of_lookup_2 in Hi|done].
  - intros (node & Hi & Hroot). split.
    + apply lookup_lt_Some in Hi. lia.
    + rewrite Hi. unfold Tree.rootNodes in Hroot.
      rewrite list_elem_of_In, filter_In in Hroot. by destruct Hroot.
Qed.

(** X27. Loading always gives a forest. Whatever the parsed records are
    (repeated ids, records that name themselves or each other as parent),
    the objects kept as roots unfold to finite trees: one tree for each
    position that the root filter keeps, in order, each node with the
    fields of its object and, below it, the trees of the objects of its
    [children] array. Objects on a parent cycle are below no root and are
    not part of the state, and no chain of parents that ends at a root is
    longer than the parsed array. *)
Theorem Tree_loadedNodes_forest parsedNodes :
  ∃ forest,
    TreeLoad.loadedNodes parsedNodes = Some forest ∧
    Forall2 (treeOf parsedNodes (TreeLoad.linkChildren parsedNodes))
            (TreeLoad.rootPositions parsedNodes) forest ∧
    (∀ i, i ∈ TreeLoad.rootPositions parsedNodes ↔
          ∃ node, parsedNodes !! i = Some node ∧
                  node ∈ Tree.rootNodes parsedNodes) ∧
    (∀ l, chainUp parsedNodes l → length l ≤ length parsedNodes).
Proof.
  assert (is_Some (TreeLoad.loadedNodes parsedNodes)) as [forest Hforest].
  { unfold TreeLoad.loadedNodes. apply mapM_is_Some, Forall_forall.
    intros r (node & Hr & Hroot)%elem_of_rootPositions.
    apply (nested_total parsedNodes _ r []); [|simpl; lia].
    constructor; [by apply lookup_lt_Some in Hr|].
    by apply (rootNodes_not_linked parsedNodes r node). }
  exists forest. split_and!; [done| |apply elem_of_rootPositions|
                              apply chainUp_length].
  unfold TreeLoad.loadedNodes in Hforest. apply mapM_Some in Hforest.
  eapply Forall2_impl; [done|]. intros i t. apply nested_treeOf.
Qed.

(** ** Trimming *)

Lemma rev_string_acc s acc : Js.rev_string s acc = Js.rev_string s "" +:+ acc.
Proof.
  revert acc. induction s as [|c s IH]; intros acc; [done|].
  cbn [Js.rev_string]. rewrite (IH (String c acc)), (IH (String c "")).
  by rewrite append_assoc.
Qed.

Lemma rev_string_app a b :
  Js.rev_string (a +:+ b) "" = Js.rev_string b "" +:+ Js.rev_string a "".
Proof.
  induction a as [|c a IH]; [by rewrite append_nil_r|].
  change (String c a +:+ b) with (String c (a +:+ b)). cbn [Js.rev_string].
  rewrite (rev_string_acc (a +:+ b)), (rev_string_acc a), IH.
  by rewrite append_assoc.
Qed.

Lemma rev_string_involutive s : Js.rev_string (Js.rev_string s "") "" = s.
Proof.
  induction s as [|c s IH]; [done|]. cbn [Js.rev_string].
  rewrite (rev_string_acc s (String c "")), rev_string_app, IH. done.
Qed.

Lemma dropWhile_first p s c :
  firstChar (Js.dropWhile p s) = Some c → p c = false.
Proof.
  induction s as [|x s IH]; [done|]. cbn [Js.dropWhile].
  destruct (p x) eqn:E; [done|]. by intros [= <-].
Qed.

Lemma dropWhile_keeps p s :
  (∀ c, firstChar s = Some c → p c = false) → Js.dropWhile p s = s.
Proof.
  destruct s as [|c s]; [done|]. intros H. cbn [Js.dropWhile].
  by rewrite (H c).
Qed.

Lemma dropWhile_app_stop p a c b :
  p c = false →
  Js.dropWhile p (a +:+ String c b) = Js.dropWhile p a +:+ String c b.
Proof.
  intros Hc. induction a as [|x a IH].
  - change ("" +:+ String c b) with (String c b). cbn [Js.dropWhile].
    by rewrite Hc.
  - change (String x a +:+ String c b) with (String x (a +:+ String c b)).
    cbn [Js.dropWhile]. by destruct (p x).
Qed.

Lemma dropWhileEnd_last p s c :
  lastChar (Js.dropWhileEnd p s) = Some c → p c = false.
Proof.
  unfold lastChar, Js.dropWhileEnd. rewrite rev_string_involutive.
  apply dropWhile_first.
Qed.

Lemma dropWhileEnd_first p s c :
  firstChar s = Some c → p c = false →
  firstChar (Js.dropWhileEnd p s) = Some c.
Proof.
  destruct s as [|x s]; [done|]. intros [= ->] Hc.
  unfold Js.dropWhileEnd. cbn [Js.rev_string].
  rewrite (rev_string_acc s), dropWhile_app_stop, rev_string_app by done.
  done.
Qed.

Lemma dropWhileEnd_keeps p s :
  (∀ c, lastChar s = Some c → p c = false) → Js.dropWhileEnd p s = s.
Proof.
  intros H. unfold Js.dropWhileEnd.
  rewrite dropWhile_keeps by done. apply rev_string_involutive.
Qed.

Lemma trim_ends s c :
  (firstChar (Js.trim s) = Some c → Ascii.is_space c = false) ∧
  (lastChar (Js.trim s) = Some c → Ascii.is_space c = false).
Proof.
  unfold Js.trim. split; [|apply dropWhileEnd_last].
  destruct (Js.dropWhile Ascii.is_space s) as [|x t] eqn:E; [done|].
  assert (Ascii.is_space x = false) as Hx
    by (apply (dropWhile_first _ s); by rewrite E).
  rewrite (dropWhileEnd_first _ _ x) by done. by intros [= <-].
Qed.

(** X28. [stripQuotes] never returns a string that begins or ends with one
    of the six white space characters of the ASCII range, and it returns a
    value as it is when the first and the last character of the value are
    ASCII characters other than the quote and these white space characters
    (for a value that ends with a character outside the ASCII range nothing
    is said: [trim] strips some of them). *)
Theorem stripQuotes_ends (v : option string) :
  (∀ c, firstChar (stripQuotes v) = Some c → Ascii.is_space c = false) ∧
  (∀ c, lastChar (stripQuotes v) = Some c → Ascii.is_space c = false) ∧
  (∀ s, v = Some s →
        (∀ c, firstChar s = Some c → keptAtEnd c = true) →
        (∀ c, lastChar s = Some c → keptAtEnd c = true) →
        stripQuotes v = s).
Proof.
  assert (∀ c, keptAtEnd c = true →
               Js.is_quote c = false ∧ Ascii.is_space c = false) as Hkept.
  { intros c [[_ ?%negb_true_iff]%andb_true_iff ?%negb_true_iff]%andb_true_iff.
    done. }
  split_and!.
  - intros c. unfold stripQuotes. destruct v as [s|]; [|done].
    case_bool_decide; [done|]. apply trim_ends.
  - intros c. unfold stripQuotes. destruct v as [s|]; [|done].
    case_bool_decide; [done|]. apply trim_ends.
  - intros s -> Hfirst Hlast. unfold stripQuotes.
    case_bool_decide; [done|]. unfold Js.replaceOuterQuotes, Js.trim.
    rewrite (dropWhile_keeps Js.is_quote s)
      by (intros c Hc; by apply Hkept, Hfirst).
    rewrite (dropWhileEnd_keeps Js.is_quote s)
      by (intros c Hc; by apply Hkept, Hlast).
    rewrite (dropWhile_keeps Ascii.is_space s)
      by (intros c Hc; by apply Hkept, Hfirst).
    apply dropWhileEnd_keeps. intros c Hc. by apply Hkept, Hlast.
Qed.

(** X28, on an id as the files have it. *)
Lemma stripQuotes_ends_witness : stripQuotes (Some "HP:1") = "HP:1".
Proof.
  apply (proj2 (proj2 (stripQuotes_ends (Some "HP:1"))) "HP:1"); [done| |].
  - intros c Hc. vm_compute in Hc. by injection Hc as <-.
  - intros c Hc. vm_compute in Hc. by injection Hc as <-.
Defined.
